(** * Dappspec: segmentation, highlighting and composition of sections

    A shallow embedding of [source/dappspec.go] (a Go port of Docco for
    Solidity sources) together with the properties of its pipeline:
    [parse] splits a file into sections, [highlight] sends the code of all
    sections through one run of the external highlighter and cuts its
    output back into fragments, and [generateHTML] derives the anchor tag of
    each section and composes what the page template receives.

    Conventions of the embedding.
    - A Go [[]byte] and a Go [string] are both sequences of bytes; they are
      modelled by [bytes], a list of 8-bit characters.  A nil slice is the
      empty list.
    - A run-time panic of the Go program is the [Panic] result.
    - The [regexp] package is modelled by a small backtracking matcher with
      Go's leftmost-first semantics, working on bytes.  All class atoms of
      the program's patterns are ASCII, so this agrees with the library on
      every text as long as the literals of the pattern are ASCII; a pattern
      that is not valid UTF-8 makes [regexp.MustCompile] panic, which the
      model of [highlightRefs] reproduces.  Every pattern of the program
      consumes at least one byte, so the library's rules for empty matches
      never apply.
    - The external highlighter, the Markdown renderer and the page template
      are parameters. *)

From Stdlib Require Import Ascii String DecimalString Bool Arith ZArith Lia List.
From Stdlib Require DecimalPos DecimalZ.
Import ListNotations.

(** ** Bytes *)

Definition bytes := list ascii.

Definition bs (s : string) : bytes := list_ascii_of_string s.

Definition nl : ascii := "010"%char.
Definition dquote : ascii := "034"%char.

Fixpoint bytes_eqb (a b : bytes) : bool :=
  match a, b with
  | [], [] => true
  | x :: a', y :: b' => Ascii.eqb x y && bytes_eqb a' b'
  | _, _ => false
  end.

(** [strings.HasPrefix] / [bytes.HasPrefix]; the variant returns what
    follows the prefix. *)
Fixpoint strip_prefix (p s : bytes) : option bytes :=
  match p with
  | [] => Some s
  | x :: p' =>
      match s with
      | y :: s' => if Ascii.eqb x y then strip_prefix p' s' else None
      | [] => None
      end
  end.

Definition HasPrefix (s p : bytes) : bool :=
  match strip_prefix p s with Some _ => true | None => false end.

(** [bytes.Split] and [strings.Split] with a one-byte separator: the pieces
    between the separators, always at least one piece. *)
Fixpoint Split (s : bytes) (sep : ascii) : list bytes :=
  match s with
  | [] => [[]]
  | c :: s' =>
      if Ascii.eqb c sep then [] :: Split s' sep
      else match Split s' sep with
           | l :: ls => (c :: l) :: ls
           | [] => [[c]]
           end
  end.

(** The inverse direction, [bytes.Join] with a one-byte separator. *)
Fixpoint Join (ls : list bytes) (sep : ascii) : bytes :=
  match ls with
  | [] => []
  | [l] => l
  | l :: ls' => l ++ sep :: Join ls' sep
  end.

(** ** Results of code that may panic *)

Inductive result (A : Type) : Type :=
| Ok (a : A)
| Panic (msg : string).

Arguments Ok {A} a.
Arguments Panic {A} msg.

Definition bind {A B} (r : result A) (f : A -> result B) : result B :=
  match r with
  | Ok a => f a
  | Panic m => Panic m
  end.

Notation "x <- c ;; k" := (bind c (fun x => k))
  (at level 61, c at next level, right associativity).

(** ** The regexp matcher *)

Module Regexp.

Definition class := ascii -> bool.

(** [\s] of RE2: tab, newline, form feed, carriage return, space. *)
Definition space : class := fun c =>
  match N_of_ascii c with
  | 9%N | 10%N | 12%N | 13%N | 32%N => true
  | _ => false
  end.

(** [\w]: ASCII letters, digits and the underscore. *)
Definition word : class := fun c =>
  let n := N_of_ascii c in
  ((48 <=? n) && (n <=? 57) || (65 <=? n) && (n <=? 90)
   || (97 <=? n) && (n <=? 122) || (n =? 95))%N.

Definition only (x : ascii) : class := fun c => Ascii.eqb c x.

Inductive atom : Type :=
| Bol                   (* ^ without the multi-line flag *)
| Lit (l : bytes)       (* literal text *)
| Star (c : class)      (* c*, greedy *)
| Plus (c : class)      (* c+, greedy *)
| Opt (c : class).      (* c?, greedy *)

(** A pattern is a sequence of atoms, each possibly a capturing group. *)
Inductive node : Type :=
| Plain (a : atom)
| Group (a : atom).

Definition regex := list node.

Definition atom_of (n : node) : atom :=
  match n with Plain a | Group a => a end.

Definition captures (n : node) : bool :=
  match n with Plain _ => false | Group _ => true end.

Section Matcher.
Variable R : Type.

(** Longest run of [c] first, then shorter ones, as backtracking over a
  greedy repetition does. *)
Fixpoint greedy (c : class) (s taken : bytes)
       (k : bytes -> bytes -> option R) : option R :=
match s with
| x :: s' =>
    if c x then
      match greedy c s' (taken ++ [x]) k with
      | Some r => Some r
      | None => k taken s
      end
    else k taken s
| [] => k taken s
end.

Definition match_atom (a : atom) (pos : nat) (s : bytes)
         (k : bytes -> bytes -> option R) : option R :=
match a with
| Bol => if pos =? 0 then k [] s else None
| Lit l =>
    match strip_prefix l s with
    | Some r => k l r
    | None => None
    end
| Star c => greedy c s [] k
| Plus c =>
    greedy c s [] (fun m r => match m with [] => None | _ => k m r end)
| Opt c =>
    match s with
    | x :: s' =>
        if c x then
          match k [x] s' with
          | Some r => Some r
          | None => k [] s
          end
        else k [] s
    | [] => k [] s
    end
end.
End Matcher.

Arguments greedy {R} c s taken k.
Arguments match_atom {R} a pos s k.

(** A match of [p] that starts at offset [pos], at the head of [s]: the
    captured groups and the text after the match. *)
Fixpoint exec (p : regex) (pos : nat) (s : bytes)
  : option (list bytes * bytes) :=
  match p with
  | [] => Some ([], s)
  | n :: p' =>
      match_atom (atom_of n) pos s
        (fun m r =>
           match exec p' (pos + length m) r with
           | Some (caps, rest) =>
               Some (if captures n then m :: caps else caps, rest)
           | None => None
           end)
  end.

(** Leftmost match at or after the head of [s]: its start offset, its
    groups and the text after it. *)
Fixpoint search (p : regex) (pos : nat) (s : bytes)
  : option (nat * list bytes * bytes) :=
  match exec p pos s with
  | Some (caps, rest) => Some (pos, caps, rest)
  | None =>
      match s with
      | [] => None
      | _ :: s' => search p (S pos) s'
      end
  end.

Definition Match (p : regex) (s : bytes) : bool :=
  match search p 0 s with Some _ => true | None => false end.

(** [FindIndex]: the two offsets of the leftmost match, or nil. *)
Definition FindIndex (p : regex) (s : bytes) : option (nat * nat) :=
  match search p 0 s with
  | Some (a, _, rest) => Some (a, length s - length rest)
  | None => None
  end.

(** Replacement templates: text and [$n] references. *)
Inductive titem : Type :=
| T (t : bytes)
| V (n : nat).

Definition expand (tmpl : list titem) (caps : list bytes) : bytes :=
  concat (map (fun i => match i with
                        | T t => t
                        | V n => nth (pred n) caps []
                        end) tmpl).

(** [ReplaceAll]: [skip] counts the bytes of the last match that are still
    to be passed over. *)
Fixpoint replace_from (p : regex) (tmpl : list titem)
         (skip pos : nat) (s : bytes) : bytes :=
  match skip with
  | S k =>
      match s with
      | [] => []
      | _ :: s' => replace_from p tmpl k (S pos) s'
      end
  | 0 =>
      match exec p pos s with
      | Some (caps, rest) =>
          expand tmpl caps ++
          match s with
          | [] => []
          | x :: s' =>
              match length s - length rest with
              | 0 => x :: replace_from p tmpl 0 (S pos) s'
              | S k => replace_from p tmpl k (S pos) s'
              end
          end
      | None =>
          match s with
          | [] => []
          | x :: s' => x :: replace_from p tmpl 0 (S pos) s'
          end
      end
  end.

Definition ReplaceAll (p : regex) (s : bytes) (tmpl : list titem) : bytes :=
  replace_from p tmpl 0 0 s.

End Regexp.

Import Regexp.

(** ** Types *)

(** A [section] (the type [Section] of the program; the capital is taken
    by the vernacular) captures a piece of documentation and the code after
    it. *)
Record section : Type := mkSection {
  docsText : bytes;
  codeText : bytes;
  firstCodeLine : bytes;
  DocsHTML : bytes;
  CodeHTML : bytes
}.

(** A [TemplateSection] is a section that can be passed to the templating
    system; its fields [DocsHTML] and [CodeHTML] carry the prefix [ts] here,
    the plain names being those of [section]. *)
Record TemplateSection : Type := mkTemplateSection {
  tsDocsHTML : bytes;
  tsCodeHTML : bytes;
  SectionTag : bytes
}.

Record Language : Type := mkLanguage {
  name : bytes;
  symbol : bytes;
  commentMatcher : regex;
  dividerText : bytes;
  dividerHTML : regex
}.

Record TemplateData : Type := mkTemplateData {
  Title : bytes;
  Sections : list TemplateSection;
  Sources : list bytes;
  Multiple : bool
}.

Definition highlightStart : bytes :=
  bs "<div class=" ++ [dquote] ++ bs "highlight" ++ [dquote] ++ bs "><pre>".
Definition highlightEnd : bytes := bs "</pre></div>".

(** ** The language registry *)

(** The body of the loop of [setup]: the three derived fields of a language.
    The comment symbol is spliced into the patterns as it is; the symbol of
    the one registered language has no character that is special in a
    pattern, so it stands for itself.
    - commentMatcher: [^\s*] symbol [\s?]
    - dividerText: newline, symbol, [DIVIDER], newline
    - dividerHTML: [\n*<span class="c1?">] symbol [DIVIDER<\/span>\n*] *)
Definition setup_language (nm sym : bytes) : Language :=
  {| name := nm;
     symbol := sym;
     commentMatcher :=
       [Plain Bol; Plain (Star space); Plain (Lit sym); Plain (Opt space)];
     dividerText := [nl] ++ sym ++ bs "DIVIDER" ++ [nl];
     dividerHTML :=
       [Plain (Star (only nl));
        Plain (Lit (bs "<span class=" ++ [dquote] ++ bs "c"));
        Plain (Opt (only "1"%char));
        Plain (Lit ([dquote] ++ bs ">" ++ sym ++ bs "DIVIDER</span>"));
        Plain (Star (only nl))] |}.

(** [setupLanguages] followed by [setup]: the map from extensions. *)
Definition solidity : Language := setup_language (bs "solidity") (bs "///").

Definition languages : list (bytes * Language) := [(bs ".sol", solidity)].

Fixpoint lookup (m : list (bytes * Language)) (k : bytes) : option Language :=
  match m with
  | [] => None
  | (k', v) :: m' => if bytes_eqb k' k then Some v else lookup m' k
  end.

(** [filepath.Ext] on a system whose path separator is the slash: the suffix
    that starts at the last dot of the last path element, through the
    reversed path. *)
Fixpoint ext_rev (r acc : bytes) : bytes :=
  match r with
  | [] => []
  | c :: r' =>
      if Ascii.eqb c "/"%char then []
      else if Ascii.eqb c "."%char then c :: acc
      else ext_rev r' (c :: acc)
  end.

Definition Ext (path : bytes) : bytes := ext_rev (rev path) [].

(** A nil pointer when the extension is not registered. *)
Definition getLanguage (source : bytes) : option Language :=
  lookup languages (Ext source).

(** ** parse *)

(** The variables of [parse] that the loop updates. *)
Record parser : Type := mkParser {
  p_sections : list section;
  p_hasCode : bool;
  p_codeText : bytes;
  p_docsText : bytes;
  p_firstCodeLine : bytes
}.

Definition parser_init : parser :=
  {| p_sections := []; p_hasCode := false; p_codeText := [];
     p_docsText := []; p_firstCodeLine := [] |}.

(** The closure [save]: a section with copies of the two buffers is pushed
    at the back of the list. *)
Definition save (sections : list section) (docs code firstCodeLine : bytes)
  : list section :=
  sections ++ [mkSection docs code firstCodeLine [] []].

(** One iteration of the loop over the lines. *)
Definition parse_line (language : Language) (st : parser) (line : bytes)
  : parser :=
  if Match (commentMatcher language) line then
    let st1 :=
      if p_hasCode st then
        {| p_sections := save (p_sections st) (p_docsText st) (p_codeText st)
                              (p_firstCodeLine st);
           p_hasCode := false;
           p_codeText := [];
           p_docsText := [];
           p_firstCodeLine := p_firstCodeLine st |}
      else st in
    {| p_sections := p_sections st1;
       p_hasCode := p_hasCode st1;
       p_codeText := p_codeText st1;
       p_docsText :=
         p_docsText st1 ++ ReplaceAll (commentMatcher language) line [] ++ [nl];
       p_firstCodeLine := p_firstCodeLine st1 |}
  else
    {| p_sections := p_sections st;
       p_hasCode := true;
       p_codeText := p_codeText st ++ line ++ [nl];
       p_docsText := p_docsText st;
       p_firstCodeLine :=
         if p_hasCode st then p_firstCodeLine st else line |}.

(** The loop, then the unconditional last [save]. *)
Definition parse_lines (language : Language) (lines : list bytes)
  : list section :=
  let st := fold_left (parse_line language) lines parser_init in
  save (p_sections st) (p_docsText st) (p_codeText st) (p_firstCodeLine st).

(** [parse]: the loop dereferences [language] at its first line, and there
    is always a first line, so a nil language panics. *)
Definition parse (source code : bytes) : result (list section) :=
  match getLanguage source with
  | None => Panic "invalid memory address or nil pointer dereference"
  | Some language => Ok (parse_lines language (Split code nl))
  end.

(** ** Library functions used by the later stages *)

(** [bytes.Replace (s, old, nil, -1)] for a non-empty [old]: every
    occurrence of [old], left to right and without overlap, is dropped;
    [skip] counts the bytes of the last occurrence still to be dropped. *)
Fixpoint remove_from (old : bytes) (skip : nat) (s : bytes) : bytes :=
  match skip with
  | S k =>
      match s with
      | [] => []
      | _ :: s' => remove_from old k s'
      end
  | 0 =>
      match s with
      | [] => []
      | x :: s' =>
          if HasPrefix s old then remove_from old (pred (length old)) s'
          else x :: remove_from old 0 s'
      end
  end.

Definition RemoveAll (s old : bytes) : bytes := remove_from old 0 s.

Definition byte (n : N) : ascii := ascii_of_N n.

(** The UTF-8 encodings of the characters for which [unicode.IsSpace]
    holds: tab, newline, vertical tab, form feed, carriage return, space,
    U+0085, U+00A0, U+1680, U+2000 to U+200A, U+2028, U+2029, U+202F, U+205F
    and U+3000. *)
Definition unicode_spaces : list bytes :=
  map (fun n => [byte n]) [9; 10; 11; 12; 13; 32]%N
  ++ [[byte 194; byte 133]; [byte 194; byte 160];
      [byte 225; byte 154; byte 128]]
  ++ map (fun n => [byte 226; byte 128; byte n])
         [128; 129; 130; 131; 132; 133; 134; 135; 136; 137; 138;
          168; 169; 175]%N
  ++ [[byte 226; byte 129; byte 159]; [byte 227; byte 128; byte 128]].

(** What follows the first of the sequences [ps] that [s] starts with. *)
Fixpoint strip_any (ps : list bytes) (s : bytes) : option bytes :=
  match ps with
  | [] => None
  | p :: ps' =>
      match strip_prefix p s with
      | Some r => Some r
      | None => strip_any ps' s
      end
  end.

Fixpoint trim_left (fuel : nat) (ps : list bytes) (s : bytes) : bytes :=
  match fuel with
  | 0 => s
  | S f =>
      match s with
      | [] => []
      | _ :: _ =>
          match strip_any ps s with
          | Some r => trim_left f ps r
          | None => s
          end
      end
  end.

(** [strings.TrimSpace]: leading, then trailing white space is cut; an
    encoded character is decoded backwards at the end of the string, which
    is decoding the reversed encoding forwards on the reversed string. *)
Definition TrimSpace (s : bytes) : bytes :=
  let l := trim_left (length s) unicode_spaces s in
  rev (trim_left (length l) (map (@rev ascii) unicode_spaces) (rev l)).

(** [fmt.Sprintf ("%d", index)]. *)
Definition Sprintf_d (index : Z) : bytes :=
  bs (DecimalString.NilZero.string_of_int (Z.to_int index)).

(** The width of the UTF-8 encoding at the head of [s], when there is a
    well-formed one ([utf8.DecodeRune] not answering [RuneError], 1). *)
Definition utf8_width (s : bytes) : option nat :=
  let within (lo hi : N) (c : ascii) :=
    ((lo <=? N_of_ascii c) && (N_of_ascii c <=? hi))%N in
  let cont := within 128%N 191%N in
  match s with
  | [] => None
  | c0 :: t =>
      if within 0%N 127%N c0 then Some 1
      else
        let second (lo hi : N) (n : nat) :=
          match t with
          | c1 :: t1 =>
              if within lo hi c1 then
                match n, t1 with
                | 2, _ => Some 2
                | 3, c2 :: _ => if cont c2 then Some 3 else None
                | 4, c2 :: c3 :: _ =>
                    if cont c2 && cont c3 then Some 4 else None
                | _, _ => None
                end
              else None
          | [] => None
          end in
        if within 194%N 223%N c0 then second 128%N 191%N 2
        else if within 224%N 224%N c0 then second 160%N 191%N 3
        else if within 225%N 236%N c0 then second 128%N 191%N 3
        else if within 237%N 237%N c0 then second 128%N 159%N 3
        else if within 238%N 239%N c0 then second 128%N 191%N 3
        else if within 240%N 240%N c0 then second 144%N 191%N 4
        else if within 241%N 243%N c0 then second 128%N 191%N 4
        else if within 244%N 244%N c0 then second 128%N 143%N 4
        else None
  end.

(** Whether [s] is valid UTF-8, which is what [regexp.MustCompile] demands
    of a pattern. *)
Fixpoint utf8_from (skip : nat) (s : bytes) : bool :=
  match skip with
  | S k =>
      match s with
      | [] => true
      | _ :: s' => utf8_from k s'
      end
  | 0 =>
      match s with
      | [] => true
      | _ :: s' =>
          match utf8_width s with
          | Some n => utf8_from (pred n) s'
          | None => false
          end
      end
  end.

Definition utf8_valid (s : bytes) : bool := utf8_from 0 s.

(** [filepath.Base]: the last element of the path, trailing slashes cut. *)
Fixpoint drop_slashes (r : bytes) : bytes :=
  match r with
  | c :: r' => if Ascii.eqb c "/"%char then drop_slashes r' else r
  | [] => []
  end.

Fixpoint take_element (r : bytes) : bytes :=
  match r with
  | c :: r' => if Ascii.eqb c "/"%char then [] else c :: take_element r'
  | [] => []
  end.

Definition Base (path : bytes) : bytes :=
  match path with
  | [] => bs "."
  | _ =>
      match rev (take_element (drop_slashes (rev path))) with
      | [] => bs "/"
      | b => b
      end
  end.

Definition TrimSuffix (s suffix : bytes) : bytes :=
  if HasPrefix (rev s) (rev suffix)
  then firstn (length s - length suffix) s else s.

Definition TrimPrefix (s prefix : bytes) : bytes :=
  match strip_prefix prefix s with Some r => r | None => s end.

(** [strings.LastIndex]: the offset of the last occurrence, or -1. *)
Fixpoint last_index_from (s sub : bytes) (pos : nat) (best : option nat)
  : option nat :=
  let best' := if HasPrefix s sub then Some pos else best in
  match s with
  | [] => best'
  | _ :: s' => last_index_from s' sub (S pos) best'
  end.

Definition LastIndex (s sub : bytes) : option nat :=
  last_index_from s sub 0 None.

(** ** Effects: the highlighter's pipes, the files, the log *)

(** The calls made on the input pipe of the highlighter. *)
Inductive call : Type :=
| PipeWrite (b : bytes)          (* pygmentsInput.Write *)
| PipeWriteString (s : bytes)    (* io.WriteString (pygmentsInput, _) *)
| PipeClose.

Definition payload (c : call) : bytes :=
  match c with
  | PipeWrite b => b
  | PipeWriteString s => s
  | PipeClose => []
  end.

(** The text that the calls send to the highlighter. *)
Definition stream (log : list call) : bytes := concat (map payload log).

(** One run of the external command that comes to an end, as the program
    can observe it.  The two pipes are nil when their creation failed.
    [start_error], [exit_code] and [stream_error] tell whether [Start]
    failed, how the process ended and whether a read or a write on a pipe
    failed; the program asks for none of them.  [respond] is what [io.Copy]
    has put into the buffer when it returns, for the text that was written.
    A process that never closes its output, on which [io.Copy] waits for
    ever, is not a value of this type: the statements about [highlight] are
    about runs of the command that end. *)
Record Pygmentize : Type := mkPygmentize {
  stdin_pipe : bool;
  stdout_pipe : bool;
  start_error : bool;
  exit_code : Z;
  stream_error : bool;
  respond : bytes -> bytes
}.

(** What the program acts on: the calls made on the input pipe of the
    current highlighter process, the files written so far, the lines logged
    so far, and what a call of [ioutil.WriteFile] leaves at a path: nothing
    when the file cannot be opened (for one, when the directory [docs] is
    missing or not writable), the data when the write succeeds, and what
    got into the file before the failure when it fails midway. *)
Record World : Type := mkWorld {
  w_stdin : list call;
  w_files : list (bytes * bytes);
  w_log : list bytes;
  w_write : bytes -> bytes -> option bytes
}.

Definition world0 : World :=
  {| w_stdin := []; w_files := []; w_log := [];
     w_write := fun _ data => Some data |}.

Definition IO (A : Type) : Type := World -> result A * World.

Definition ret {A} (a : A) : IO A := fun w => (Ok a, w).

Definition iobind {A B} (m : IO A) (f : A -> IO B) : IO B :=
  fun w =>
    match m w with
    | (Ok a, w') => f a w'
    | (Panic msg, w') => (Panic msg, w')
    end.

Notation "x <~ c ;; k" := (iobind c (fun x => k))
  (at level 61, c at next level, right associativity).

Definition lift {A} (r : result A) : IO A := fun w => (r, w).

Definition nil_deref : string :=
  "invalid memory address or nil pointer dereference".

(** A method call on the input pipe. *)
Definition pipe_call (pygments : Pygmentize) (c : call) : IO unit :=
  fun w =>
    if stdin_pipe pygments then
      (Ok tt, {| w_stdin := w_stdin w ++ [c];
                 w_files := w_files w; w_log := w_log w;
                 w_write := w_write w |})
    else (Panic nil_deref, w).

(** [io.Copy (buf, pygmentsOutput)] into a fresh buffer: it returns when
    the process has closed its output, which a run that ends has done. *)
Definition copy_output (pygments : Pygmentize) : IO bytes :=
  fun w =>
    if stdout_pipe pygments then
      (Ok (respond pygments (stream (w_stdin w))), w)
    else (Panic nil_deref, w).

(** [exec.Command] with its two pipes: the calls recorded from now on are
    those made on the input pipe of this new process. *)
Definition open_pipes : IO unit :=
  fun w => (Ok tt, {| w_stdin := []; w_files := w_files w;
                      w_log := w_log w; w_write := w_write w |}).

(** [ioutil.WriteFile (dest, data, 0644)] with its error discarded, as
    [generateHTML] calls it: the call returns in every case, and the file
    holds what the write left there. *)
Definition WriteFile (dest data : bytes) : IO unit :=
  fun w =>
    (Ok tt,
     match w_write w dest data with
     | Some content =>
         {| w_stdin := w_stdin w;
            w_files := w_files w ++ [(dest, content)];
            w_log := w_log w; w_write := w_write w |}
     | None => w
     end).

Definition Println (msg : bytes) : IO unit :=
  fun w => (Ok tt, {| w_stdin := w_stdin w; w_files := w_files w;
                      w_log := w_log w ++ [msg];
                      w_write := w_write w |}).

(** ** Tags and identifiers *)

Definition is_declaration (firstCodeLine : bytes) : bool :=
  HasPrefix firstCodeLine (bs "notice")
  || HasPrefix firstCodeLine (bs "dev")
  || HasPrefix firstCodeLine (bs "params")
  || HasPrefix firstCodeLine (bs "return").

Definition out_of_range : string := "index out of range [1] with length 1".

Definition getSectionTag (index : Z) (firstCodeLine : bytes) : result bytes :=
  if negb (is_declaration firstCodeLine) then
    (* not a declaration *)
    Ok (Sprintf_d index)
  else
    (* a type or variable declaration *)
    let parts := Split firstCodeLine " "%char in
    match nth_error parts 1 with
    | Some p => Ok (TrimSpace p)
    | None => Panic out_of_range
    end.

Definition getFieldOrType (firstCodeLine : bytes) : result bytes :=
  if negb (is_declaration firstCodeLine) then
    (* not a declaration, field maybe? *)
    let parts := Split firstCodeLine " "%char in
    if 0 <? length parts then
      match nth_error parts 0 with
      | Some p => Ok (TrimSpace p)
      | None => Panic "index out of range [0] with length 0"
      end
    else Ok []
  else
    (* a type or variable declaration *)
    let parts := Split firstCodeLine " "%char in
    if 0 <? length parts then
      match nth_error parts 1 with
      | Some p => Ok (TrimSpace p)
      | None => Panic out_of_range
      end
    else Ok [].

(** ** Emphasis of the section's own identifier *)

Definition strong_open : bytes := bs "<strong>".
Definition strong_close : bytes := bs "</strong>".

(** The three patterns built from the quoted identifier:
    [([\s]+)(ref)], [(ref)([\s]+)] and [([\s]+)(ref)([\s]+)]. *)
Definition rx_leading (ref : bytes) : regex :=
  [Group (Plus space); Group (Lit ref)].
Definition rx_trailing (ref : bytes) : regex :=
  [Group (Lit ref); Group (Plus space)].
Definition rx_surrounded (ref : bytes) : regex :=
  [Group (Plus space); Group (Lit ref); Group (Plus space)].

(** [highlightRefs]: the identifier is quoted, so it stands for itself in
    the three patterns.  The matcher compares bytes, which is what the
    library does for every identifier but one that holds the replacement
    character U+FFFD; for such an identifier the library also takes a byte
    of the text that is not valid UTF-8 for that character, and this
    definition does not. *)
Definition highlightRefs (text ref : bytes) : result bytes :=
  if length ref =? 0 then Ok text
  else if negb (utf8_valid ref) then
    Panic "regexp: Compile: invalid UTF-8"
  else
    let text := ReplaceAll (rx_leading ref) text
                  [V 1; T strong_open; V 2; T strong_close] in
    let text := ReplaceAll (rx_trailing ref) text
                  [T strong_open; V 1; T strong_close; V 2] in
    let text := ReplaceAll (rx_surrounded ref) text
                  [V 1; T strong_open; V 2; T strong_close; V 3] in
    Ok text.

(** [@@([\w]+)] and its replacement
    [<a href="#section-$1" title="Jump to $1">$1</a>]. *)
Definition referenceRx : regex := [Plain (Lit (bs "@@")); Group (Plus word)].
Definition referenceTpl : list titem :=
  [T (bs "<a href=" ++ [dquote] ++ bs "#section-"); V 1;
   T ([dquote] ++ bs " title=" ++ [dquote] ++ bs "Jump to "); V 1;
   T ([dquote] ++ bs ">"); V 1; T (bs "</a>")].

(** Compute the output location (in [docs/]) for the file. *)
Definition destination (source : bytes) : result bytes :=
  let base := Base source in
  match LastIndex base (Ext base) with
  | Some i => Ok (bs "docs/" ++ firstn i base ++ bs ".html")
  | None => Panic "slice bounds out of range [:-1]"
  end.

(** ** The pipeline of one source file *)

Section Pipeline.

(** [blackfriday.MarkdownCommon]. *)
Variable MarkdownCommon : bytes -> bytes.

(** [dappspecTemplate]: the page template it parses and executes is not
    part of these sources; both steps panic on an error. *)
Variable dappspecTemplate : TemplateData -> result bytes.

(** The global [sources], set by [main] before any file is handled. *)
Variable sources : list bytes.

(** [exec.Command ("pygmentize", "-l", name, ...)]: the run of the
    command for a lexer name. *)
Variable pygmentize : bytes -> Pygmentize.

(** [ioutil.ReadFile]. *)
Variable ReadFile : bytes -> option bytes.

(** The first loop of [highlight]: the code of each section, and the
    divider when another section follows. *)
Fixpoint feed (pygments : Pygmentize) (language : Language)
         (sections : list section) : IO unit :=
  match sections with
  | [] => ret tt
  | e :: next =>
      _ <~ pipe_call pygments (PipeWrite (codeText e)) ;;
      _ <~ match next with
           | [] => ret tt
           | _ :: _ =>
               pipe_call pygments (PipeWriteString (dividerText language))
           end ;;
      feed pygments language next
  end.

(** The two assignments at the end of the second loop of [highlight]: the
    fragment wrapped again, and the prose rendered. *)
Definition with_fragment (e : section) (fragment : bytes) : section :=
  {| docsText := docsText e;
     codeText := codeText e;
     firstCodeLine := firstCodeLine e;
     DocsHTML := MarkdownCommon (docsText e);
     CodeHTML := highlightStart ++ fragment ++ highlightEnd |}.

(** The second loop of [highlight]: the buffer is cut at the next match
    of the encoded divider, or at its end when there is none. *)
Fixpoint fragments (language : Language) (output : bytes)
         (sections : list section) : list section :=
  match sections with
  | [] => []
  | e :: next =>
      let index :=
        match FindIndex (dividerHTML language) output with
        | Some index => index
        | None => (length output, length output)
        end in
      (* output[0:index[0]] and output[index[1]:]; the offsets of a match
         are within the buffer, see [FindIndex_in_range] *)
      let fragment := firstn (fst index) output in
      let output := skipn (snd index) output in
      with_fragment e fragment :: fragments language output next
  end.

(** [highlight] pipes the source to Pygments, section by section.  The
    errors of [StdinPipe], [StdoutPipe], [Start], of the writes and of
    [io.Copy] are all discarded, and the exit status is never asked for. *)
Definition highlight (source : bytes) (sections : list section)
  : IO (list section) :=
  language <~ lift (match getLanguage source with
                    | Some l => Ok l
                    | None => Panic nil_deref
                    end) ;;
  let pygments := pygmentize (name language) in
  _ <~ open_pipes ;;
  _ <~ feed pygments language sections ;;
  _ <~ pipe_call pygments PipeClose ;;
  output <~ copy_output pygments ;;
  let output := RemoveAll output highlightStart in
  let output := RemoveAll output highlightEnd in
  ret (fragments language output sections).

(** The body of the loop of [generateHTML] for the section at the
    0-based position [i]. *)
Definition templateSection (i : Z) (sec : section)
  : result TemplateSection :=
  sectionTag <- getSectionTag (i + 1) (firstCodeLine sec) ;;
  let docs := ReplaceAll referenceRx (DocsHTML sec) referenceTpl in
  ref <- getFieldOrType (firstCodeLine sec) ;;
  docs <- highlightRefs docs ref ;;
  Ok {| tsDocsHTML := docs;
        SectionTag := sectionTag;
        tsCodeHTML :=
          if negb (HasPrefix (codeText sec) (bs "pragma"))
             && negb (HasPrefix (codeText sec) (bs "import"))
          then CodeHTML sec else [] |}.

Fixpoint templateSections (i : Z) (sections : list section)
  : result (list TemplateSection) :=
  match sections with
  | [] => Ok []
  | sec :: next =>
      s <- templateSection i sec ;;
      ss <- templateSections (i + 1) next ;;
      Ok (s :: ss)
  end.

(** What [generateHTML] hands to the page template: the title, every
    [section] converted into its [TemplateSection], the list of sources
    and whether there is more than one. *)
Definition templateData (source : bytes) (sections : list section)
  : result TemplateData :=
  let title := Base source in
  let title := TrimSuffix title (Ext source) in
  let title := TrimPrefix title (bs "docs_") in
  sectionsArray <- templateSections 0 sections ;;
  Ok {| Title := title; Sections := sectionsArray;
        Sources := sources; Multiple := 1 <? length sources |}.

(** Render the final HTML; the error of [ioutil.WriteFile] is
    discarded. *)
Definition generateHTML (source : bytes) (sections : list section)
  : IO unit :=
  dest <~ lift (destination source) ;;
  data <~ lift (templateData source sections) ;;
  html <~ lift (dappspecTemplate data) ;;
  _ <~ Println (bs "dappspec:  " ++ source ++ bs "  ->  " ++ dest) ;;
  WriteFile dest html.

(** Generate the documentation for a single source file; [log.Panic]
    prints the error and then panics with it. *)
Definition generateDocumentation (source : bytes) : IO unit :=
  code <~ match ReadFile source with
          | Some code => ret code
          | None =>
              _ <~ Println (bs "open: no such file or directory") ;;
              lift (Panic "open: no such file or directory")
          end ;;
  sections <~ lift (parse source code) ;;
  sections <~ highlight source sections ;;
  generateHTML source sections.

End Pipeline.

(** ** The lines behind a section *)

(** The lines a section was accumulated from, as they stand in the file:
    the comment lines before stripping, then the code lines. *)
Record raw : Type := mkRaw {
  raw_docs : list bytes;
  raw_code : list bytes
}.

Definition raw_lines (r : raw) : list bytes := raw_docs r ++ raw_code r.

(** Each line with the newline that [parse] writes after it. *)
Definition terminated (lines : list bytes) : bytes :=
  concat (map (fun line => line ++ [nl]) lines).

(** The two texts that [parse] accumulates from such lines. *)
Definition stripped (language : Language) (r : raw) : bytes * bytes :=
  (terminated
     (map (fun line => ReplaceAll (commentMatcher language) line [])
          (raw_docs r)),
   terminated (raw_code r)).

Definition texts (s : section) : bytes * bytes := (docsText s, codeText s).

Definition is_comment (language : Language) (line : bytes) : bool :=
  Match (commentMatcher language) line.

(** The grouping of the lines that the loop of [parse] performs, without
    the texts: the groups already closed and the group being filled. *)
Definition trace_line (language : Language) (t : list raw * raw)
           (line : bytes) : list raw * raw :=
  let (done, cur) := t in
  if is_comment language line then
    match raw_code cur with
    | [] => (done, mkRaw (raw_docs cur ++ [line]) [])
    | _ :: _ => (done ++ [cur], mkRaw [line] [])
    end
  else (done, mkRaw (raw_docs cur) (raw_code cur ++ [line])).

Definition raw_sections (language : Language) (lines : list bytes)
  : list raw :=
  let (done, cur) :=
    fold_left (trace_line language) lines ([], mkRaw [] []) in
  done ++ [cur].

(** A group holds comment lines, then lines that are not comments. *)
Definition well_grouped (language : Language) (r : raw) : Prop :=
  Forall (fun l => is_comment language l = true) (raw_docs r)
  /\ Forall (fun l => is_comment language l = false) (raw_code r).

(** A text that is empty or ends with a newline. *)
Definition newline_ended (b : bytes) : Prop :=
  b = [] \/ exists b', b = b' ++ [nl].

(** What links the variables of the loop of [parse] to the groups of
    lines. *)
Definition agrees (language : Language) (st : parser) (t : list raw * raw)
  : Prop :=
  map texts (p_sections st) = map (stripped language) (fst t)
  /\ (p_docsText st, p_codeText st) = stripped language (snd t)
  /\ p_hasCode st = match raw_code (snd t) with [] => false | _ => true end.

(** The groups, flattened: the lines read so far. *)
Definition flat (t : list raw * raw) : list bytes :=
  concat (map raw_lines (fst t)) ++ raw_lines (snd t).

Definition grouped (language : Language) (t : list raw * raw) : Prop :=
  Forall (well_grouped language) (fst t) /\ well_grouped language (snd t).

(** ** Vocabulary of the statements about tags and emphasis *)

(** Printable ASCII other than the space. *)
Definition graphic (c : ascii) : bool :=
  ((33 <=? N_of_ascii c) && (N_of_ascii c <=? 126))%N.

(** A token: non-empty, of printable ASCII characters without spaces. *)
Definition plain_token (t : bytes) : Prop :=
  t <> [] /\ Forall (fun c => graphic c = true) t.

(** ASCII white space: tab, newline, vertical tab, form feed, carriage
    return, space. *)
Definition ascii_space (c : ascii) : bool :=
  ((9 <=? N_of_ascii c) && (N_of_ascii c <=? 13) || (N_of_ascii c =? 32))%N.

(** The whitespace-delimited tokens of a line, in the words of the
    specification: the maximal runs of characters that are not white
    space. *)
Fixpoint tokens_from (s cur : bytes) : list bytes :=
  match s with
  | [] => match cur with [] => [] | _ :: _ => [cur] end
  | c :: s' =>
      if ascii_space c then
        match cur with
        | [] => tokens_from s' []
        | _ :: _ => cur :: tokens_from s' []
        end
      else tokens_from s' (cur ++ [c])
  end.

Definition whitespace_tokens (line : bytes) : list bytes :=
  tokens_from line [].

(** ** Vocabulary of the statements about highlight *)

(** [d] between every two consecutive calls of [cs], none after the last. *)
Fixpoint interleave (d : call) (cs : list call) : list call :=
  match cs with
  | [] => []
  | c :: cs' =>
      match cs' with
      | [] => [c]
      | _ :: _ => c :: d :: interleave d cs'
      end
  end.

(** The calls that write the divider of the language. *)
Definition is_divider (language : Language) (c : call) : bool :=
  match c with
  | PipeWriteString s => bytes_eqb s (dividerText language)
  | _ => false
  end.

Definition divider_calls (language : Language) (log : list call) : nat :=
  length (filter (is_divider language) log).

(** [cuts language buf fs]: the fragments [fs] are split off [buf] one after
    the other, each at the first match of the encoded divider in what is
    left of the buffer; when there is no match the fragment is all that is
    left, and nothing is left after it. *)
Inductive cuts (language : Language) : bytes -> list bytes -> Prop :=
| cuts_done buf : cuts language buf []
| cuts_match buf a b fs :
    FindIndex (dividerHTML language) buf = Some (a, b) ->
    cuts language (skipn b buf) fs ->
    cuts language buf (firstn a buf :: fs)
| cuts_rest buf fs :
    FindIndex (dividerHTML language) buf = None ->
    cuts language [] fs ->
    cuts language buf (buf :: fs).

(** The failures of the external process that the specification lists: it
    cannot start, it exits non-zero, a stream read or write fails. *)
Definition failed (p : Pygmentize) : bool :=
  start_error p || negb (exit_code p =? 0)%Z || stream_error p.

(** A highlighter that answers with the text it was given, and one that
    could not be started: its pipes exist but are closed, every write and
    the copy of its output fail, and nothing is collected. *)
Definition echo_pygments : Pygmentize :=
  {| stdin_pipe := true; stdout_pipe := true; start_error := false;
     exit_code := 0; stream_error := false; respond := fun b => b |}.

Definition broken_pygments : Pygmentize :=
  {| stdin_pipe := true; stdout_pipe := true; start_error := true;
     exit_code := 1; stream_error := true; respond := fun _ => [] |}.

(** A page template that lays the sections out one after the other. *)
Definition plain_template (data : TemplateData) : result bytes :=
  Ok (concat (map (fun t => SectionTag t ++ tsDocsHTML t ++ tsCodeHTML t)
                  (Sections data))).

(** ** Words and the emphasis word by word *)

(** What the three passes of [highlightRefs] amount to, stated on the words
    of the text; [highlightRefs_emphasize] proves that they do. *)

(** The identifier at the beginning of a word, wrapped. *)
Definition wrap_first (ref w : bytes) : bytes :=
  match strip_prefix ref w with
  | Some r => strong_open ++ ref ++ strong_close ++ r
  | None => w
  end.

(** The identifier at the end of a word, wrapped. *)
Definition wrap_last (ref w : bytes) : bytes :=
  match strip_prefix (rev ref) (rev w) with
  | Some l => rev l ++ strong_open ++ ref ++ strong_close
  | None => w
  end.

(** A text as its runs: the word it starts with (empty when it starts with
    white space), then each run of white space with the word after it (empty
    at the end of the text only). *)
Fixpoint split_runs (s : bytes) : bytes * list (bytes * bytes) :=
  match s with
  | [] => ([], [])
  | c :: s' =>
      let (w0, units) := split_runs s' in
      if space c then
        match w0, units with
        | [], (sp, w) :: units' => ([], (c :: sp, w) :: units')
        | _, _ => ([], ([c], w0) :: units)
        end
      else (c :: w0, units)
  end.

Fixpoint join_runs (w : bytes) (units : list (bytes * bytes)) : bytes :=
  match units with
  | [] => w
  | (sp, w') :: units' => w ++ sp ++ join_runs w' units'
  end.

(** Every word that white space follows has the identifier at its end
    wrapped. *)
Fixpoint mark_trailing (ref w : bytes) (units : list (bytes * bytes))
  : bytes :=
  match units with
  | [] => w
  | (sp, w') :: units' => wrap_last ref w ++ sp ++ mark_trailing ref w' units'
  end.

(** Every word after white space has the identifier at its beginning
    wrapped. *)
Definition mark_leading (ref : bytes) (units : list (bytes * bytes))
  : list (bytes * bytes) :=
  map (fun u => (fst u, wrap_first ref (snd u))) units.

(** The emphasis word by word: first the beginnings, then the ends. *)
Definition emphasize (ref text : bytes) : bytes :=
  let (w0, units) := split_runs text in
  mark_trailing ref w0 (mark_leading ref units).

(** Well-formed runs: white space that is not empty, words without white
    space, and no empty word except the last. *)
Fixpoint runs_ok (units : list (bytes * bytes)) : Prop :=
  match units with
  | [] => True
  | (sp, w) :: units' =>
      sp <> [] /\ Forall (fun y => space y = true) sp
      /\ Forall (fun y => space y = false) w
      /\ (w = [] -> units' = [])
      /\ runs_ok units'
  end.

(** A text that does not start with white space, and one that does not
    start with anything else. *)
Definition starts_text (l : bytes) : Prop :=
  match l with [] => True | c :: _ => space c = false end.

Definition starts_space (l : bytes) : Prop :=
  match l with [] => True | c :: _ => space c = true end.

(** ** The table of contents *)

(** The two functions that the page template calls on every entry of
    [Sources]: the title of a source and the page it links to. *)
Definition titleTOC (source : bytes) : bytes :=
  let title := Base source in
  let title := TrimSuffix title (Ext source) in
  let title := TrimPrefix title (bs "docs_") in
  title.

Definition destinationTOC (source : bytes) : bytes :=
  let title := Base source in
  let title := TrimSuffix title (Ext source) in
  let title := TrimPrefix title (bs "docs_") in
  title ++ bs ".html".

(** ** Vocabulary of the further properties *)

(** *** Paths and texts *)

(** A file name in a directory: [dir] is empty or ends with a slash. *)
Definition directory (dir : bytes) : Prop :=
  dir = [] \/ exists d, dir = d ++ bs "/".

(** [strings.Contains]. *)
Fixpoint occurs (sub s : bytes) : bool :=
  HasPrefix s sub
  || match s with
     | [] => false
     | _ :: s' => occurs sub s'
     end.

(** *** The sections of a file *)

(** The places of a file where a comment line follows a line of code. *)
Fixpoint boundaries (language : Language) (lines : list bytes) : nat :=
  match lines with
  | [] => 0
  | l :: rest =>
      match rest with
      | [] => 0
      | l' :: _ =>
          (if negb (is_comment language l) && is_comment language l'
           then 1 else 0) + boundaries language rest
      end
  end.

(** [code] starts with the line [first] and the newline written after
    it. *)
Definition first_line (code first : bytes) : Prop :=
  ~ In nl first /\ exists rest, code = first ++ nl :: rest.

(** What the loop of [parse] keeps true of [firstCodeLine]: it is the first
    line of the code of every section saved and of the code being
    collected, and while no code is collected it is still that of the
    section saved last. *)
Definition first_lines_kept (st : parser) : Prop :=
  Forall (fun s => first_line (codeText s) (firstCodeLine s)) (p_sections st)
  /\ if p_hasCode st
     then first_line (p_codeText st) (p_firstCodeLine st)
     else p_codeText st = []
          /\ p_firstCodeLine st
             = match rev (p_sections st) with
               | [] => []
               | s :: _ => firstCodeLine s
               end.

(** What the loop of [parse] keeps true of the prose: every section saved
    after the first has some, and so has the section being collected once a
    section was saved. *)
Definition docs_kept (st : parser) : Prop :=
  Forall (fun s => docsText s <> []) (tl (p_sections st))
  /\ (p_sections st <> [] -> p_docsText st <> []).

(** What is left of a comment line after its symbol: the text that follows,
    without the one white-space character that may come first. *)
Definition comment_text (rest : bytes) : bytes :=
  match rest with
  | c :: r => if space c then r else rest
  | [] => []
  end.

(** The lines of the text that [highlight] sends for groups of lines: the
    code lines of each group, and between two groups the empty line and the
    divider line that the divider text adds. *)
Fixpoint stream_lines (raws : list raw) : list bytes :=
  match raws with
  | [] => []
  | r :: rs =>
      match rs with
      | [] => raw_code r
      | _ :: _ => raw_code r ++ [[]; bs "///DIVIDER"] ++ stream_lines rs
      end
  end.

(** *** Effects *)

(** A step that writes no file and logs nothing, however it ends. *)
Definition keeps {A : Type} (m : IO A) : Prop :=
  forall w r w',
    m w = (r, w') ->
    w_files w' = w_files w /\ w_log w' = w_log w
    /\ w_write w' = w_write w.

(** A world in which no file can be written. *)
Definition read_only : World :=
  {| w_stdin := []; w_files := []; w_log := []; w_write := fun _ _ => None |}.

(** *** Matches *)

(** What an atom of a pattern can match. *)
Definition piece (a : atom) (m : bytes) : Prop :=
  match a with
  | Bol => m = []
  | Lit l => m = l
  | Star c => Forall (fun y => c y = true) m
  | Plus c => m <> [] /\ Forall (fun y => c y = true) m
  | Opt c => m = [] \/ exists y, m = [y] /\ c y = true
  end.

(** *** The answer of the highlighter *)

(** [out] is [sections] after [highlight], with the fragments [fs] in
    order: the three fields that [parse] filled are as they were, the prose
    is rendered, and the code of each section is its fragment between the
    two pieces of the wrapper markup. *)
Definition assigned (MarkdownCommon : bytes -> bytes)
           (sections : list section) (fs : list bytes) (out : list section)
  : Prop :=
  map docsText out = map docsText sections
  /\ map codeText out = map codeText sections
  /\ map firstCodeLine out = map firstCodeLine sections
  /\ map DocsHTML out = map (fun e => MarkdownCommon (docsText e)) sections
  /\ map CodeHTML out
     = map (fun fragment => highlightStart ++ fragment ++ highlightEnd) fs.

(** The divider line as the highlighter encodes it, with the class [c1] or
    [c] of a comment. *)
Definition encoded_divider (one : bool) : bytes :=
  bs "<span class=" ++ [dquote] ++ bs "c" ++ (if one then bs "1" else [])
  ++ [dquote] ++ bs ">///DIVIDER</span>".

(** Whether a text starts, or ends, with a newline. *)
Definition starts_with_newline (b : bytes) : bool :=
  match b with c :: _ => Ascii.eqb c nl | [] => false end.

Definition ends_with_newline (b : bytes) : bool :=
  starts_with_newline (rev b).

(** A divider in the answer of the highlighter: the number of newlines
    before it, whether its class is [c1], and the number of newlines after
    it. *)
Record divider : Type := mkDivider {
  lines_before : nat;
  with_one : bool;
  lines_after : nat
}.

Definition divider_html (d : divider) : bytes :=
  repeat nl (lines_before d) ++ encoded_divider (with_one d)
  ++ repeat nl (lines_after d).

(** What the highlighter answers for code fragments that came with dividers
    between them: the fragments, with an encoded divider and the newlines
    around it between every two. *)
Fixpoint highlighted (f : bytes) (rest : list (divider * bytes)) : bytes :=
  match rest with
  | [] => f
  | (d, f') :: rest' => f ++ divider_html d ++ highlighted f' rest'
  end.

(** A fragment that can be told from the dividers: the word [DIVIDER] does
    not occur in it, and no newline starts or ends it. *)
Definition clean_fragment (f : bytes) : bool :=
  negb (occurs (bs "DIVIDER") f)
  && negb (starts_with_newline f) && negb (ends_with_newline f).

(** All the ways to cut a text in two. *)
Fixpoint splits (l : bytes) : list (bytes * bytes) :=
  match l with
  | [] => [([], [])]
  | c :: l' => ([], l) :: map (fun uv => (c :: fst uv, snd uv)) (splits l')
  end.

(** Whether a cut of an encoded divider that leaves a newline or the
    opening of a tag at the head of its second part has the word [DIVIDER]
    in its first part. *)
Definition cut_has_word (uv : bytes * bytes) : bool :=
  match fst uv, snd uv with
  | _ :: _, c :: _ =>
      if Ascii.eqb c nl || Ascii.eqb c "<"%char
      then occurs (bs "DIVIDER") (fst uv) else true
  | _, _ => true
  end.

(** An answer of the highlighter in which the wrapper markup occurs only
    once, around [body]: the opening is not found again in what follows it,
    and the closing is not found before the end. *)
Definition wrapped_once (body : bytes) : bool :=
  negb (occurs highlightStart (body ++ highlightEnd))
  && negb (occurs highlightEnd (body ++ removelast highlightEnd)).

(** *** Cross-references *)

(** The anchor that replaces a cross-reference to [name]. *)
Definition anchor (name : bytes) : bytes :=
  bs "<a href=" ++ [dquote] ++ bs "#section-" ++ name
  ++ [dquote] ++ bs " title=" ++ [dquote] ++ bs "Jump to " ++ name
  ++ [dquote] ++ bs ">" ++ name ++ bs "</a>".

(** A text that does not go on with a character of a name. *)
Definition ends_name (rest : bytes) : Prop :=
  match rest with [] => True | c :: _ => word c = false end.

(** An identifier that none of the words of the markup of an anchor starts
    or ends with: it is not the beginning of [href], [title] or [to] and
    not the end of [a], [Jump] or [to]. *)
Definition apart_from_markup (name : bytes) : bool :=
  negb (HasPrefix (bs "href") name)
  && negb (HasPrefix (bs "title") name)
  && negb (HasPrefix (bs "to") name)
  && negb (HasPrefix (rev (bs "a")) (rev name))
  && negb (HasPrefix (rev (bs "Jump")) (rev name))
  && negb (HasPrefix (rev (bs "to")) (rev name)).

(** The anchor of a cross-reference with the emphasis of the identifier in
    its title. *)
Definition anchor_emphasized (name : bytes) : bytes :=
  bs "<a href=" ++ [dquote] ++ bs "#section-" ++ name
  ++ [dquote] ++ bs " title=" ++ [dquote] ++ bs "Jump to "
  ++ strong_open ++ name ++ strong_close
  ++ [dquote] ++ bs ">" ++ name ++ bs "</a>".

(** * Properties *)

(** ** The embedding on small inputs *)

Example parse_two_sections :
  parse (bs "src/a.sol")
        (bs "/// one" ++ [nl] ++ bs "x = 1;" ++ [nl] ++ bs "  /// two")
  = Ok [mkSection (bs "one" ++ [nl]) (bs "x = 1;" ++ [nl]) (bs "x = 1;") [] [];
        mkSection (bs "two" ++ [nl]) [] (bs "x = 1;") [] []].
Proof. reflexivity. Qed.

Example parse_unregistered :
  parse (bs "a.go") (bs "x") = Panic nil_deref.
Proof. reflexivity. Qed.

Example divider_found :
  FindIndex (dividerHTML solidity)
    (bs "a;" ++ [nl; nl] ++ bs "<span class=" ++ [dquote] ++ bs "c1"
     ++ [dquote] ++ bs ">///DIVIDER</span>" ++ [nl] ++ bs "b;")
  = Some (2, 39).
Proof. reflexivity. Qed.

Example tag_of_declaration :
  getSectionTag 7 (bs "dev Foo bar") = Ok (bs "Foo")
  /\ getSectionTag 3 (bs "function f()") = Ok (bs "3")
  /\ getFieldOrType (bs "dev Foo bar") = Ok (bs "Foo")
  /\ getFieldOrType (bs "uint x;") = Ok (bs "uint").
Proof. repeat split. Qed.

Example trim_space :
  TrimSpace (bs "  a b" ++ [byte 9; byte 226; byte 128; byte 168]) = bs "a b".
Proof. reflexivity. Qed.

Example emphasis_of_words :
  highlightRefs (bs "<p>Foo adds, see Foo" ++ [nl] ++ bs "or xFoo.</p>")
                (bs "Foo")
  = Ok (bs "<p><strong>Foo</strong> adds, see <strong>Foo</strong>"
        ++ [nl] ++ bs "or xFoo.</p>").
Proof. reflexivity. Qed.

Example destination_of_source :
  destination (bs "src/token.sol") = Ok (bs "docs/token.html").
Proof. reflexivity. Qed.

(** ** Splitting and joining *)

Lemma Split_nonempty (s : bytes) (sep : ascii) :
  exists l ls, Split s sep = l :: ls.
Proof.
  induction s as [|c s IH]; simpl; eauto.
  destruct (Ascii.eqb c sep); eauto.
  destruct IH as (l & ls & ->); eauto.
Qed.

Lemma Join_Split (s : bytes) (sep : ascii) : Join (Split s sep) sep = s.
Proof.
  induction s as [|c s IH]; simpl; auto.
  destruct (Ascii.eqb_spec c sep) as [->|Hne].
  - destruct (Split_nonempty s sep) as (l & ls & E).
    rewrite E in *. simpl. now rewrite <- IH.
  - destruct (Split_nonempty s sep) as (l & ls & E).
    rewrite E in *. rewrite <- IH.
    destruct ls; reflexivity.
Qed.

Lemma terminated_app (a b : list bytes) :
  terminated (a ++ b) = terminated a ++ terminated b.
Proof. unfold terminated. now rewrite map_app, concat_app. Qed.

Lemma terminated_Split (s : bytes) :
  terminated (Split s nl) = s ++ [nl].
Proof.
  unfold terminated.
  induction s as [|c s IH]; simpl; auto.
  destruct (Ascii.eqb_spec c nl) as [->|Hne]; simpl.
  - now rewrite IH.
  - destruct (Split_nonempty s nl) as (l & ls & E).
    rewrite E in *. simpl in *. now rewrite IH.
Qed.

Lemma Split_snoc (s : bytes) (sep : ascii) :
  Split (s ++ [sep]) sep = Split s sep ++ [[]].
Proof.
  induction s as [|c s IH]; simpl.
  - now rewrite Ascii.eqb_refl.
  - destruct (Ascii.eqb c sep); rewrite IH; auto.
    destruct (Split_nonempty s sep) as (l & ls & ->). reflexivity.
Qed.

Lemma newline_ended_terminated (lines : list bytes) :
  newline_ended (terminated lines).
Proof.
  destruct lines as [|l ls] using rev_ind; [now left|right].
  rewrite terminated_app. unfold terminated at 2. simpl.
  rewrite app_nil_r, app_assoc. eauto.
Qed.

(** ** The loop of parse and its grouping of the lines *)

Section ParseLoop.
Variable language : Language.

Lemma agrees_step st t line :
  agrees language st t ->
  agrees language (parse_line language st line) (trace_line language t line).
Proof.
  destruct t as [done cur]. intros (Hs & Ht & Hc). simpl in *.
  unfold parse_line, trace_line, is_comment.
  injection Ht as Hd Hcode.
  destruct (Match (commentMatcher language) line).
  - destruct (raw_code cur) as [|c0 cs] eqn:Ecode; rewrite Hc; simpl.
    + repeat split; auto.
      unfold stripped; simpl. rewrite map_app, terminated_app.
      rewrite Hd. unfold terminated at 3. simpl.
      now rewrite app_nil_r, Hcode.
    + repeat split; simpl; auto.
      * unfold save. rewrite !map_app, Hs. simpl. do 2 f_equal.
        unfold texts, stripped. simpl. rewrite Ecode. now f_equal.
      * unfold stripped, terminated. simpl. now rewrite app_nil_r.
  - repeat split; simpl; auto.
    + unfold stripped; simpl. rewrite terminated_app.
      unfold terminated at 3. simpl. rewrite app_nil_r.
      now rewrite Hd, Hcode.
    + now destruct (raw_code cur).
Qed.

Lemma agrees_fold lines : forall st t,
  agrees language st t ->
  agrees language (fold_left (parse_line language) lines st)
         (fold_left (trace_line language) lines t).
Proof.
  induction lines as [|l ls IH]; simpl; auto using agrees_step.
Qed.

Lemma parse_lines_texts lines :
  map texts (parse_lines language lines)
  = map (stripped language) (raw_sections language lines).
Proof.
  unfold parse_lines, raw_sections.
  assert (H0 : agrees language parser_init ([], mkRaw [] [])) by (repeat split).
  pose proof (agrees_fold lines _ _ H0) as (Hs & Ht & _).
  destruct (fold_left (trace_line language) lines _) as [done cur].
  simpl in *. unfold save. rewrite !map_app, Hs. simpl. now rewrite <- Ht.
Qed.

Lemma flat_step t line :
  flat (trace_line language t line) = flat t ++ [line].
Proof.
  destruct t as [done cur]. unfold trace_line, flat, raw_lines. simpl.
  destruct (is_comment language line).
  - destruct (raw_code cur) eqn:E; simpl.
    + now rewrite !app_nil_r, app_assoc.
    + rewrite map_app, concat_app. simpl.
      now rewrite E, !app_nil_r, <- !app_assoc.
  - simpl. now rewrite !app_assoc.
Qed.

Lemma flat_fold lines : forall t,
  flat (fold_left (trace_line language) lines t) = flat t ++ lines.
Proof.
  induction lines as [|l ls IH]; intros t; simpl.
  - now rewrite app_nil_r.
  - now rewrite IH, flat_step, <- app_assoc.
Qed.

Lemma raw_sections_lines lines :
  concat (map raw_lines (raw_sections language lines)) = lines.
Proof.
  unfold raw_sections.
  pose proof (flat_fold lines ([], mkRaw [] [])) as H.
  destruct (fold_left _ lines _) as [done cur].
  unfold flat in H. simpl in H.
  rewrite map_app, concat_app. simpl. now rewrite app_nil_r.
Qed.

Lemma grouped_step t line :
  grouped language t -> grouped language (trace_line language t line).
Proof.
  destruct t as [done cur]. intros [Hd [Hcd Hcc]].
  unfold trace_line, grouped, well_grouped in *. simpl in *.
  destruct (is_comment language line) eqn:E.
  - destruct (raw_code cur) eqn:Ec; simpl.
    + repeat split; auto. apply Forall_app; auto.
    + repeat split; auto. apply Forall_app. split; auto.
      constructor; auto. rewrite Ec. auto.
  - simpl. repeat split; auto. apply Forall_app; auto.
Qed.

Lemma grouped_fold lines : forall t,
  grouped language t -> grouped language (fold_left (trace_line language) lines t).
Proof.
  induction lines as [|l ls IH]; simpl; auto using grouped_step.
Qed.

Lemma raw_sections_grouped lines :
  Forall (well_grouped language) (raw_sections language lines).
Proof.
  unfold raw_sections.
  assert (H0 : grouped language ([], mkRaw [] [])).
  { repeat split; constructor. }
  pose proof (grouped_fold lines _ H0) as [Hd Hc].
  destruct (fold_left _ lines _) as [done cur]. simpl in *.
  apply Forall_app; auto.
Qed.

End ParseLoop.

(** ** The registry *)

Lemma getLanguage_solidity (source : bytes) (language : Language) :
  getLanguage source = Some language -> language = solidity.
Proof.
  unfold getLanguage, languages, lookup.
  destruct (bytes_eqb (bs ".sol") (Ext source)); congruence.
Qed.

Lemma parse_registered (source code : bytes) (language : Language) :
  getLanguage source = Some language ->
  parse source code = Ok (parse_lines language (Split code nl)).
Proof. unfold parse. now intros ->. Qed.

(** ** Runs of lines of one kind *)

Lemma trace_comments (language : Language) (lines : list bytes) :
  Forall (fun l => is_comment language l = true) lines ->
  forall done docs,
    fold_left (trace_line language) lines (done, mkRaw docs [])
    = (done, mkRaw (docs ++ lines) []).
Proof.
  induction 1 as [|l ls Hl _ IH]; intros done docs; simpl.
  - now rewrite app_nil_r.
  - rewrite Hl, IH, <- app_assoc. reflexivity.
Qed.

Lemma trace_code (language : Language) (lines : list bytes) :
  Forall (fun l => is_comment language l = false) lines ->
  forall done docs code,
    fold_left (trace_line language) lines (done, mkRaw docs code)
    = (done, mkRaw docs (code ++ lines)).
Proof.
  induction 1 as [|l ls Hl _ IH]; intros done docs code; simpl.
  - now rewrite app_nil_r.
  - rewrite Hl, IH, <- app_assoc. reflexivity.
Qed.

Lemma map_texts_singleton (sections : list section) (d c : bytes) :
  map texts sections = [(d, c)] ->
  exists s, sections = [s] /\ docsText s = d /\ codeText s = c.
Proof.
  destruct sections as [|s [|s' ss]]; simpl; try discriminate.
  intros H. injection H as Hd Hc. eauto.
Qed.

(** ** Claims about parse *)

(** C1. Segmentation completeness: for a source with a registered
    language, [parse] returns sections that are built, in order, from
    consecutive groups of the file's lines -- the comment lines of a
    section (of which [docsText] holds the stripped form) followed by its
    code lines (which [codeText] holds as they are) -- and these groups
    concatenated are exactly the lines of the file, which joined by
    newlines are the file itself: no line is added, lost or moved. *)
Theorem parse_segmentation_complete
        (source code : bytes) (language : Language) :
  getLanguage source = Some language ->
  exists sections raws,
    parse source code = Ok sections
    /\ map texts sections = map (stripped language) raws
    /\ Forall (well_grouped language) raws
    /\ concat (map raw_lines raws) = Split code nl
    /\ Join (concat (map raw_lines raws)) nl = code.
Proof.
  intros Hl.
  exists (parse_lines language (Split code nl)).
  exists (raw_sections language (Split code nl)).
  split; [now apply parse_registered|].
  split; [apply parse_lines_texts|].
  split; [apply raw_sections_grouped|].
  rewrite raw_sections_lines. split; [reflexivity|apply Join_Split].
Qed.

Lemma parse_segmentation_complete_witness :
  getLanguage (bs "a.sol") = Some solidity
  /\ exists sections raws,
       parse (bs "a.sol") (bs "/// a" ++ [nl] ++ bs "b") = Ok sections
       /\ map texts sections = map (stripped solidity) raws
       /\ Forall (well_grouped solidity) raws
       /\ concat (map raw_lines raws)
          = Split (bs "/// a" ++ [nl] ++ bs "b") nl
       /\ Join (concat (map raw_lines raws)) nl
          = bs "/// a" ++ [nl] ++ bs "b".
Proof.
  split; [reflexivity|].
  apply (@parse_segmentation_complete
           (bs "a.sol") (bs "/// a" ++ [nl] ++ bs "b") solidity).
  reflexivity.
Defined.

(** C10. Every section that [parse] produces has a [docsText] and a
    [codeText] that are each empty or end with a newline, because a newline
    is written after every line, the last one included; so the lines the
    sections were built from, each with that newline, make up the file plus
    one newline, and a file without comment lines comes back as one section
    whose code is the file plus one newline. *)
Theorem parse_newline_ended (source code : bytes) (language : Language) :
  getLanguage source = Some language ->
  exists sections raws,
    parse source code = Ok sections
    /\ Forall (fun s => newline_ended (docsText s)
                        /\ newline_ended (codeText s)) sections
    /\ map texts sections = map (stripped language) raws
    /\ concat (map (fun r => terminated (raw_lines r)) raws) = code ++ [nl]
    /\ (Forall (fun l => is_comment language l = false) (Split code nl) ->
        map texts sections = [([], code ++ [nl])]).
Proof.
  intros Hl.
  exists (parse_lines language (Split code nl)).
  exists (raw_sections language (Split code nl)).
  pose proof (parse_lines_texts language (Split code nl)) as Ht.
  split; [now apply parse_registered|].
  split; [|split; [exact Ht|split]].
  - apply Forall_forall. intros s Hs.
    apply (in_map texts) in Hs. rewrite Ht in Hs.
    apply in_map_iff in Hs as (r & Hr & _).
    unfold texts, stripped in Hr. injection Hr as <- <-.
    split; apply newline_ended_terminated.
  - rewrite <- (terminated_Split code).
    rewrite <- (raw_sections_lines language (Split code nl)) at 2.
    generalize (raw_sections language (Split code nl)).
    induction l as [|r rs IH]; simpl; auto.
    now rewrite terminated_app, IH.
  - intros Hc. rewrite Ht. unfold raw_sections.
    rewrite (@trace_code language _ Hc). simpl. unfold stripped. simpl.
    now rewrite terminated_Split.
Qed.

Lemma parse_newline_ended_witness :
  getLanguage (bs "a.sol") = Some solidity
  /\ Forall (fun l => is_comment solidity l = false) (Split (bs "x") nl)
  /\ exists sections raws,
       parse (bs "a.sol") (bs "x") = Ok sections
       /\ Forall (fun s => newline_ended (docsText s)
                           /\ newline_ended (codeText s)) sections
       /\ map texts sections = map (stripped solidity) raws
       /\ concat (map (fun r => terminated (raw_lines r)) raws)
          = bs "x" ++ [nl]
       /\ map texts sections = [([], bs "x" ++ [nl])].
Proof.
  assert (Hc : Forall (fun l => is_comment solidity l = false)
                      (Split (bs "x") nl)) by (repeat constructor).
  split; [reflexivity|]. split; [exact Hc|].
  destruct (parse_newline_ended (bs "a.sol") (bs "x") solidity eq_refl)
    as (sections & raws & Hp & Hn & Ht & Hr & Hone).
  exists sections, raws.
  split; [exact Hp|]. split; [exact Hn|]. split; [exact Ht|].
  split; [exact Hr|]. exact (Hone Hc).
Defined.

(** C3, as the spec has it, fails: for the empty input the one section
    does not have an empty [codeText]. *)
Lemma parse_empty_counterexample :
  ~ (exists s, parse (bs "a.sol") [] = Ok [s]
               /\ docsText s = [] /\ codeText s = []).
Proof.
  intros (s & H & _ & Hc).
  vm_compute in H. injection H as <-. discriminate Hc.
Qed.

(** C3, amended. Applied to an empty input, [parse] returns exactly one
    section whose [docsText] is empty and whose [codeText] is one newline
    (the single empty line that splitting yields, written back with its
    newline); applied to an input whose lines are all comment lines, with
    or without a newline after the last of them, [parse] returns exactly
    one section. *)
Theorem parse_empty_and_comments (source : bytes) (language : Language) :
  getLanguage source = Some language ->
  parse source [] = Ok [mkSection [] [nl] [] [] []]
  /\ forall code,
       Forall (fun l => is_comment language l = true) (Split code nl) ->
       (exists s, parse source code = Ok [s] /\ codeText s = [])
       /\ (exists s, parse source (code ++ [nl]) = Ok [s]
                     /\ codeText s = [nl]).
Proof.
  intros Hl. pose proof (@getLanguage_solidity source language Hl) as ->.
  split.
  - rewrite (@parse_registered source [] solidity Hl). reflexivity.
  - intros code Hc. split.
    + rewrite (@parse_registered source code solidity Hl).
      pose proof (parse_lines_texts solidity (Split code nl)) as Ht.
      unfold raw_sections in Ht. rewrite (@trace_comments solidity _ Hc) in Ht.
      apply map_texts_singleton in Ht as (s & -> & _ & Hs). eauto.
    + rewrite (@parse_registered source (code ++ [nl]) solidity Hl), Split_snoc.
      pose proof (parse_lines_texts solidity (Split code nl ++ [[]])) as Ht.
      unfold raw_sections in Ht.
      rewrite fold_left_app, (@trace_comments solidity _ Hc) in Ht.
      apply map_texts_singleton in Ht as (s & -> & _ & Hs). eauto.
Qed.

Lemma parse_empty_and_comments_witness :
  getLanguage (bs "a.sol") = Some solidity
  /\ Forall (fun l => is_comment solidity l = true) (Split (bs "/// a") nl)
  /\ parse (bs "a.sol") [] = Ok [mkSection [] [nl] [] [] []]
  /\ (exists s, parse (bs "a.sol") (bs "/// a") = Ok [s] /\ codeText s = [])
  /\ (exists s, parse (bs "a.sol") (bs "/// a" ++ [nl]) = Ok [s]
                /\ codeText s = [nl]).
Proof.
  assert (Hc : Forall (fun l => is_comment solidity l = true)
                      (Split (bs "/// a") nl)) by (repeat constructor).
  split; [reflexivity|]. split; [exact Hc|].
  destruct (parse_empty_and_comments (bs "a.sol") solidity eq_refl)
    as [He Hall].
  split; [exact He|]. exact (Hall (bs "/// a") Hc).
Defined.

(** ** Tags *)

Lemma Split_no_sep (s : bytes) (sep : ascii) :
  ~ In sep s -> Split s sep = [s].
Proof.
  induction s as [|c s IH]; simpl; auto.
  intros H. destruct (Ascii.eqb_spec c sep) as [->|_].
  - exfalso. auto.
  - rewrite IH; auto.
Qed.

Lemma Split_app_sep (l s : bytes) (sep : ascii) :
  ~ In sep l -> Split (l ++ sep :: s) sep = l :: Split s sep.
Proof.
  induction l as [|c l IH]; simpl; intros H.
  - now rewrite Ascii.eqb_refl.
  - destruct (Ascii.eqb_spec c sep) as [->|_].
    + exfalso. auto.
    + rewrite IH; auto.
Qed.

Lemma Split_Join (toks : list bytes) (sep : ascii) :
  toks <> [] ->
  Forall (fun t => ~ In sep t) toks ->
  Split (Join toks sep) sep = toks.
Proof.
  induction toks as [|t toks IH]; [congruence|].
  intros _ H. inversion H as [|? ? Ht Hts]; subst.
  destruct toks as [|t' toks]; simpl.
  - now apply Split_no_sep.
  - rewrite Split_app_sep by assumption.
    f_equal. apply IH; [discriminate|assumption].
Qed.

(** C9. A first code line that starts with one of the four keywords and
    holds no space is split into a single part, and both [getSectionTag]
    and [getFieldOrType] then take the second element of that one-element
    result: the access is out of range and the call panics ([getFieldOrType]
    tests the length against 0 only, which never fails). *)
Theorem declaration_without_space_panics (index : Z) (line : bytes) :
  is_declaration line = true ->
  ~ In " "%char line ->
  length (Split line " "%char) = 1
  /\ getSectionTag index line = Panic out_of_range
  /\ getFieldOrType line = Panic out_of_range.
Proof.
  intros Hd Hs. unfold getSectionTag, getFieldOrType.
  rewrite Hd, (Split_no_sep _ _ Hs). simpl. auto.
Qed.

Lemma declaration_without_space_panics_witness :
  is_declaration (bs "dev") = true
  /\ ~ In " "%char (bs "dev")
  /\ length (Split (bs "dev") " "%char) = 1
  /\ getSectionTag 1 (bs "dev") = Panic out_of_range
  /\ getFieldOrType (bs "dev") = Panic out_of_range.
Proof.
  assert (Hs : ~ In " "%char (bs "dev")).
  { simpl. intros [H|[H|[H|[]]]]; discriminate H. }
  split; [reflexivity|]. split; [exact Hs|].
  apply (@declaration_without_space_panics 1 (bs "dev")); [reflexivity|exact Hs].
Defined.

(** ** Tokens *)

Lemma graphic_not_space_head (c : ascii) (s : bytes) :
  graphic c = true -> strip_any unicode_spaces (c :: s) = None.
Proof.
  destruct c as [[] [] [] [] [] [] [] []];
    intros H; try discriminate H; reflexivity.
Qed.

Lemma graphic_not_space_last (c : ascii) (s : bytes) :
  graphic c = true ->
  strip_any (map (@rev ascii) unicode_spaces) (c :: s) = None.
Proof.
  destruct c as [[] [] [] [] [] [] [] []];
    intros H; try discriminate H; reflexivity.
Qed.

Lemma graphic_not_ascii_space (c : ascii) :
  graphic c = true -> ascii_space c = false.
Proof.
  destruct c as [[] [] [] [] [] [] [] []];
    intros H; try discriminate H; reflexivity.
Qed.

Lemma trim_left_stuck (ps : list bytes) (c : ascii) (s : bytes) :
  strip_any ps (c :: s) = None ->
  trim_left (length (c :: s)) ps (c :: s) = c :: s.
Proof. intros H. cbn [length trim_left]. now rewrite H. Qed.

Lemma TrimSpace_plain (t : bytes) : plain_token t -> TrimSpace t = t.
Proof.
  intros [Hne Hg]. unfold TrimSpace.
  assert (Hl : trim_left (length t) unicode_spaces t = t).
  { destruct t as [|c t]; [congruence|].
    inversion Hg; subst.
    now apply trim_left_stuck, graphic_not_space_head. }
  rewrite Hl.
  assert (Hr : Forall (fun c => graphic c = true) (rev t)).
  { apply Forall_forall. intros c Hc. apply in_rev in Hc.
    revert c Hc. now apply Forall_forall. }
  rewrite <- (length_rev t).
  destruct (rev t) as [|c r] eqn:E.
  - apply (f_equal (@rev ascii)) in E. rewrite rev_involutive in E.
    now subst.
  - inversion Hr; subst.
    rewrite trim_left_stuck by now apply graphic_not_space_last.
    rewrite <- E. apply rev_involutive.
Qed.

Lemma plain_token_no_blank (t : bytes) :
  plain_token t -> ~ In " "%char t.
Proof.
  intros [_ Hg] Hin.
  apply (proj1 (Forall_forall _ _) Hg) in Hin. discriminate Hin.
Qed.

Lemma tokens_from_run (t : bytes) :
  Forall (fun c => graphic c = true) t ->
  forall s cur, tokens_from (t ++ s) cur = tokens_from s (cur ++ t).
Proof.
  induction 1 as [|c t Hc _ IH]; intros s cur; simpl.
  - now rewrite app_nil_r.
  - rewrite (graphic_not_ascii_space _ Hc), IH, <- app_assoc. reflexivity.
Qed.

Lemma whitespace_tokens_Join (toks : list bytes) :
  Forall plain_token toks ->
  whitespace_tokens (Join toks " "%char) = toks.
Proof.
  unfold whitespace_tokens.
  induction 1 as [|t toks [Hne Hg] Hts IH]; [reflexivity|].
  destruct toks as [|t' toks].
  - simpl. rewrite <- (app_nil_r t) at 1.
    rewrite tokens_from_run by assumption. simpl.
    destruct t; [congruence|reflexivity].
  - change (Join (t :: t' :: toks) " "%char)
      with (t ++ " "%char :: Join (t' :: toks) " "%char).
    rewrite tokens_from_run by assumption.
    destruct t as [|c t]; [congruence|].
    change (tokens_from (" "%char :: Join (t' :: toks) " "%char) ([] ++ c :: t))
      with ((c :: t) :: tokens_from (Join (t' :: toks) " "%char) []).
    now rewrite IH.
Qed.

(** ** The conversion of the sections for the template *)

Lemma templateSections_nth (sections : list section) :
  forall (i : Z) (ts : list TemplateSection),
    templateSections i sections = Ok ts ->
    length ts = length sections
    /\ forall k sec,
         nth_error sections k = Some sec ->
         exists t, nth_error ts k = Some t
                   /\ templateSection (i + Z.of_nat k) sec = Ok t.
Proof.
  induction sections as [|s0 next IH]; intros i ts H; simpl in H.
  - injection H as <-. split; [reflexivity|].
    intros [|k] sec Hk; discriminate Hk.
  - destruct (templateSection i s0) as [t0|] eqn:E0; [|discriminate H].
    simpl in H.
    destruct (templateSections (i + 1) next) as [ts'|] eqn:E1;
      [|discriminate H].
    simpl in H. injection H as <-.
    destruct (IH _ _ E1) as [Hlen Hnth].
    split; [simpl; now rewrite Hlen|].
    intros [|k] sec Hk; simpl in Hk.
    + injection Hk as <-. exists t0. split; [reflexivity|].
      now rewrite Z.add_0_r.
    + destruct (Hnth k sec Hk) as (t & Ht & Hs).
      exists t. split; [exact Ht|].
      rewrite <- Hs. f_equal. lia.
Qed.

Lemma templateData_nth (sources : list bytes) (source : bytes)
      (sections : list section) (data : TemplateData) :
  templateData sources source sections = Ok data ->
  forall k sec,
    nth_error sections k = Some sec ->
    exists t, nth_error (Sections data) k = Some t
              /\ templateSection (Z.of_nat k) sec = Ok t.
Proof.
  unfold templateData. intros H k sec Hk.
  destruct (templateSections 0 sections) as [ts|] eqn:E; [|discriminate H].
  simpl in H. injection H as <-. simpl.
  destruct (templateSections_nth _ _ _ E) as [_ Hn].
  apply (Hn k sec Hk).
Qed.

Lemma templateSection_inv (i : Z) (sec : section) (t : TemplateSection) :
  templateSection i sec = Ok t ->
  exists ref,
    getSectionTag (i + 1) (firstCodeLine sec) = Ok (SectionTag t)
    /\ getFieldOrType (firstCodeLine sec) = Ok ref
    /\ highlightRefs (ReplaceAll referenceRx (DocsHTML sec) referenceTpl) ref
       = Ok (tsDocsHTML t)
    /\ tsCodeHTML t
       = if negb (HasPrefix (codeText sec) (bs "pragma"))
            && negb (HasPrefix (codeText sec) (bs "import"))
         then CodeHTML sec else [].
Proof.
  unfold templateSection. intros H.
  destruct (getSectionTag (i + 1) (firstCodeLine sec)) as [tag|] eqn:Et;
    [|discriminate H].
  simpl in H.
  destruct (getFieldOrType (firstCodeLine sec)) as [ref|] eqn:Er;
    [|discriminate H].
  simpl in H.
  destruct (highlightRefs _ ref) as [docs|] eqn:Eh; [|discriminate H].
  simpl in H. injection H as <-. exists ref. simpl. repeat split.
  exact Eh.
Qed.

(** C6, as the spec has it, fails: the tag of a declaration is cut at
    single spaces, so with two spaces after the keyword it is empty and not
    the second whitespace-delimited token. *)
Lemma section_tag_counterexample :
  is_declaration (bs "dev  Foo") = true
  /\ nth_error (whitespace_tokens (bs "dev  Foo")) 1 = Some (bs "Foo")
  /\ getSectionTag 1 (bs "dev  Foo") = Ok []
  /\ getSectionTag 1 (bs "dev  Foo") <> Ok (bs "Foo").
Proof.
  repeat split. vm_compute. discriminate.
Qed.

(** C6, amended. A first code line that starts with none of the four
    keywords gives the decimal form of the index, and [generateHTML] passes
    the 1-based position of the section as the index.  A line that starts
    with one of the keywords and holds a space gives the second of the
    pieces between single space characters, trimmed; when the line is made
    of tokens separated by single spaces, that is its second
    whitespace-delimited token. *)
Theorem section_tag_derivation (index : Z) (line : bytes) :
  (is_declaration line = false ->
   getSectionTag index line = Ok (Sprintf_d index))
  /\ (is_declaration line = true ->
      forall p0 p1 rest,
        Split line " "%char = p0 :: p1 :: rest ->
        getSectionTag index line = Ok (TrimSpace p1))
  /\ (is_declaration line = true ->
      forall toks,
        2 <= length toks -> Forall plain_token toks ->
        line = Join toks " "%char ->
        exists tag,
          getSectionTag index line = Ok tag
          /\ nth_error (whitespace_tokens line) 1 = Some tag)
  /\ (forall sources source sections data k sec,
        templateData sources source sections = Ok data ->
        nth_error sections k = Some sec ->
        firstCodeLine sec = line ->
        index = (Z.of_nat k + 1)%Z ->
        exists t, nth_error (Sections data) k = Some t
                  /\ getSectionTag index line = Ok (SectionTag t)).
Proof.
  split; [|split; [|split]].
  - intros Hd. unfold getSectionTag. now rewrite Hd.
  - intros Hd p0 p1 rest Hs. unfold getSectionTag. now rewrite Hd, Hs.
  - intros Hd toks Hlen Htoks ->.
    assert (Hsplit : Split (Join toks " "%char) " "%char = toks).
    { apply Split_Join.
      - destruct toks; [simpl in Hlen; lia|discriminate].
      - revert Htoks. apply Forall_impl. apply plain_token_no_blank. }
    destruct toks as [|t0 [|t1 toks]]; try (simpl in Hlen; lia).
    exists t1. split.
    + unfold getSectionTag. rewrite Hd, Hsplit. simpl.
      f_equal. apply TrimSpace_plain.
      inversion Htoks as [|? ? _ H1]; subst. now inversion H1.
    + now rewrite whitespace_tokens_Join.
  - intros sources source sections data k sec Hdata Hk Hline ->.
    destruct (templateData_nth _ _ _ _ Hdata k sec Hk) as (t & Ht & Hs).
    exists t. split; [exact Ht|].
    apply templateSection_inv in Hs as (ref & Htag & _).
    now rewrite <- Hline.
Qed.

Lemma section_tag_derivation_witness :
  getSectionTag 3 (bs "function f()") = Ok (bs "3")
  /\ exists tag,
       getSectionTag 1 (bs "dev Foo bar") = Ok tag
       /\ nth_error (whitespace_tokens (bs "dev Foo bar")) 1 = Some tag.
Proof.
  split.
  - apply (proj1 (section_tag_derivation 3 (bs "function f()"))).
    reflexivity.
  - apply (proj1 (proj2 (proj2 (section_tag_derivation 1 (bs "dev Foo bar"))))
             eq_refl [bs "dev"; bs "Foo"; bs "bar"]).
    + simpl. lia.
    + repeat constructor; discriminate.
    + reflexivity.
Defined.

(** C7. Code suppression: for a section whose [codeText] begins with
    [pragma] or [import], the [TemplateSection] that [generateHTML] hands
    to the page template has an empty [CodeHTML], whatever the highlighter
    produced for that section, while its tag and its rendered prose are
    those derived as for any other section. *)
Theorem code_suppression
        (sources : list bytes) (source : bytes) (sections : list section)
        (data : TemplateData) (k : nat) (sec : section) :
  templateData sources source sections = Ok data ->
  nth_error sections k = Some sec ->
  HasPrefix (codeText sec) (bs "pragma") = true
  \/ HasPrefix (codeText sec) (bs "import") = true ->
  exists t,
    nth_error (Sections data) k = Some t
    /\ tsCodeHTML t = []
    /\ getSectionTag (Z.of_nat k + 1) (firstCodeLine sec) = Ok (SectionTag t)
    /\ (exists ref,
          getFieldOrType (firstCodeLine sec) = Ok ref
          /\ highlightRefs
               (ReplaceAll referenceRx (DocsHTML sec) referenceTpl) ref
             = Ok (tsDocsHTML t))
    /\ (forall html,
          templateSection (Z.of_nat k)
            (mkSection (docsText sec) (codeText sec) (firstCodeLine sec)
                       (DocsHTML sec) html)
          = Ok t).
Proof.
  intros Hdata Hk Hp.
  destruct (templateData_nth _ _ _ _ Hdata k sec Hk) as (t & Ht & Hs).
  exists t. split; [exact Ht|].
  pose proof (templateSection_inv _ _ _ Hs) as (ref & Htag & Hr & Hd & Hc).
  assert (Hcond : negb (HasPrefix (codeText sec) (bs "pragma"))
                  && negb (HasPrefix (codeText sec) (bs "import")) = false).
  { destruct Hp as [-> | ->]; simpl; auto using andb_false_r. }
  rewrite Hcond in Hc.
  split; [exact Hc|]. split; [exact Htag|]. split; [eauto|].
  intros html. unfold templateSection.
  cbn [docsText codeText firstCodeLine DocsHTML CodeHTML].
  rewrite Htag, Hr. cbn [bind]. rewrite Hd. cbn [bind]. rewrite Hcond.
  destruct t; simpl in *. now subst.
Qed.

Lemma code_suppression_witness :
  let sec := mkSection (bs "doc") (bs "import x;") (bs "import x;")
                       (bs "<p>doc</p>") (bs "<b>import</b> x;") in
  templateData [bs "a.sol"] (bs "a.sol") [sec]
  = Ok (mkTemplateData (bs "a") [mkTemplateSection (bs "<p>doc</p>") [] (bs "1")]
                       [bs "a.sol"] false)
  /\ nth_error [sec] 0 = Some sec
  /\ (HasPrefix (codeText sec) (bs "pragma") = true
      \/ HasPrefix (codeText sec) (bs "import") = true)
  /\ exists t,
       nth_error [mkTemplateSection (bs "<p>doc</p>") [] (bs "1")] 0 = Some t
       /\ tsCodeHTML t = []
       /\ getSectionTag 1 (firstCodeLine sec) = Ok (SectionTag t)
       /\ (exists ref,
             getFieldOrType (firstCodeLine sec) = Ok ref
             /\ highlightRefs
                  (ReplaceAll referenceRx (DocsHTML sec) referenceTpl) ref
                = Ok (tsDocsHTML t))
       /\ (forall html,
             templateSection 0
               (mkSection (docsText sec) (codeText sec) (firstCodeLine sec)
                          (DocsHTML sec) html)
             = Ok t).
Proof.
  intros sec.
  split; [reflexivity|]. split; [reflexivity|].
  split; [right; reflexivity|].
  apply (code_suppression [bs "a.sol"] (bs "a.sol") [sec]
           (mkTemplateData (bs "a")
              [mkTemplateSection (bs "<p>doc</p>") [] (bs "1")]
              [bs "a.sol"] false) 0 sec).
  - reflexivity.
  - reflexivity.
  - right. reflexivity.
Defined.

(** ** What a match consumes *)

Lemma strip_prefix_app (l s r : bytes) :
  strip_prefix l s = Some r <-> s = l ++ r.
Proof.
  revert s. induction l as [|x l IH]; intros s; simpl.
  - split; congruence.
  - destruct s as [|y s]; [split; discriminate|].
    destruct (Ascii.eqb_spec x y) as [->|Hne].
    + rewrite IH. split; congruence.
    + split; [discriminate|]. intros H. injection H as -> _. congruence.
Qed.

Lemma greedy_inv (R : Type) (c : class) (k : bytes -> bytes -> option R)
      (x : R) (s : bytes) :
  forall taken,
    greedy c s taken k = Some x ->
    exists m r, s = m ++ r /\ Forall (fun y => c y = true) m
                /\ k (taken ++ m) r = Some x.
Proof.
  induction s as [|y s IH]; intros taken H; simpl in H.
  - exists [], []. rewrite !app_nil_r. repeat split; auto.
  - destruct (c y) eqn:Ey.
    + destruct (greedy c s (taken ++ [y]) k) as [x'|] eqn:E.
      * injection H as ->.
        destruct (IH _ E) as (m & r & -> & Hm & Hk).
        exists (y :: m), r. rewrite <- app_assoc in Hk. repeat split; auto.
      * exists [], (y :: s). rewrite !app_nil_r. repeat split; auto.
    + exists [], (y :: s). rewrite !app_nil_r. repeat split; auto.
Qed.

Lemma match_atom_inv (R : Type) (a : atom) (pos : nat) (s : bytes)
      (k : bytes -> bytes -> option R) (x : R) :
  match_atom a pos s k = Some x ->
  exists m r, s = m ++ r /\ k m r = Some x.
Proof.
  destruct a as [|l|c|c|c]; simpl; intros H.
  - destruct (pos =? 0); [|discriminate H]. exists [], s. auto.
  - destruct (strip_prefix l s) as [r|] eqn:E; [|discriminate H].
    apply strip_prefix_app in E. eauto.
  - apply greedy_inv in H as (m & r & -> & _ & Hk). eauto.
  - apply greedy_inv in H as (m & r & -> & _ & Hk). simpl in Hk.
    destruct m; [discriminate Hk|]. eauto.
  - destruct s as [|y s]; [exists [], []; auto|].
    destruct (c y); [|exists [], (y :: s); auto].
    destruct (k [y] s) as [x'|] eqn:E.
    + injection H as ->. exists [y], s. auto.
    + exists [], (y :: s). auto.
Qed.

Lemma exec_suffix (p : regex) :
  forall pos s caps rest,
    exec p pos s = Some (caps, rest) -> exists m, s = m ++ rest.
Proof.
  induction p as [|n p IH]; intros pos s caps rest H; simpl in H.
  - injection H as _ <-. now exists [].
  - apply match_atom_inv in H as (m & r & -> & Hk).
    destruct (exec p (pos + length m) r) as [[caps' rest']|] eqn:E;
      [|discriminate Hk].
    injection Hk as _ <-.
    destruct (IH _ _ _ _ E) as (m' & ->).
    exists (m ++ m'). now rewrite app_assoc.
Qed.

Lemma search_inv (p : regex) (s : bytes) :
  forall pos a caps rest,
    search p pos s = Some (a, caps, rest) ->
    exists pre m,
      s = pre ++ m ++ rest /\ a = pos + length pre
      /\ exec p a (m ++ rest) = Some (caps, rest).
Proof.
  induction s as [|y s IH]; intros pos a caps rest H; simpl in H.
  - destruct (exec p pos []) as [[caps' rest']|] eqn:E; [|discriminate H].
    injection H as <- <- <-.
    destruct (exec_suffix _ _ _ _ _ E) as (m & Hm).
    exists [], m. rewrite <- Hm, Nat.add_0_r. auto.
  - destruct (exec p pos (y :: s)) as [[caps' rest']|] eqn:E.
    + injection H as <- <- <-.
      destruct (exec_suffix _ _ _ _ _ E) as (m & Hm).
      exists [], m. simpl. rewrite <- Hm, Nat.add_0_r. auto.
    + destruct (IH _ _ _ _ H) as (pre & m & -> & -> & Hx).
      exists (y :: pre), m. simpl. rewrite Nat.add_succ_r. auto.
Qed.

(** The offsets that [FindIndex] answers are within the text, so that the
    two slices taken in [highlight] never panic. *)
Lemma FindIndex_in_range (p : regex) (s : bytes) (a b : nat) :
  FindIndex p s = Some (a, b) -> a <= b <= length s.
Proof.
  unfold FindIndex. intros H.
  destruct (search p 0 s) as [[[a' caps] rest]|] eqn:E; [|discriminate H].
  injection H as <- <-.
  apply search_inv in E as (pre & m & -> & -> & _).
  rewrite !length_app. lia.
Qed.

(** ** highlight *)

Lemma bytes_eqb_refl (b : bytes) : bytes_eqb b b = true.
Proof. induction b; simpl; auto. now rewrite Ascii.eqb_refl. Qed.

Lemma feed_log (pygments : Pygmentize) (language : Language)
      (sections : list section) :
  stdin_pipe pygments = true ->
  forall w,
    feed pygments language sections w
    = (Ok tt,
       {| w_stdin :=
            w_stdin w
            ++ interleave (PipeWriteString (dividerText language))
                          (map (fun e => PipeWrite (codeText e)) sections);
          w_files := w_files w;
          w_log := w_log w;
          w_write := w_write w |}).
Proof.
  intros Hp. induction sections as [|e next IH]; intros w.
  - simpl. unfold ret. rewrite app_nil_r. now destruct w.
  - cbn [feed]. unfold iobind at 1. unfold pipe_call at 1. rewrite Hp.
    destruct next as [|e' next].
    + reflexivity.
    + unfold iobind at 1. unfold pipe_call at 1. rewrite Hp.
      rewrite IH. cbn [w_stdin w_files w_log w_write map interleave].
      now rewrite <- !app_assoc.
Qed.

Lemma divider_calls_interleave (language : Language)
      (sections : list section) :
  divider_calls language
    (interleave (PipeWriteString (dividerText language))
                (map (fun e => PipeWrite (codeText e)) sections)
     ++ [PipeClose])
  = length sections - 1.
Proof.
  unfold divider_calls.
  induction sections as [|e next IH]; [reflexivity|].
  destruct next as [|e' next]; [reflexivity|].
  cbn [map interleave app filter is_divider length] in *.
  rewrite bytes_eqb_refl. cbn [length]. rewrite IH. lia.
Qed.

Lemma fragments_cuts (MarkdownCommon : bytes -> bytes) (language : Language)
      (sections : list section) :
  forall output,
    exists fs,
      length fs = length sections
      /\ cuts language output fs
      /\ fragments MarkdownCommon language output sections
         = map (fun ef => with_fragment MarkdownCommon (fst ef) (snd ef))
               (combine sections fs).
Proof.
  induction sections as [|e next IH]; intros output.
  - exists []. repeat split. constructor.
  - cbn [fragments].
    destruct (FindIndex (dividerHTML language) output) as [[a b]|] eqn:E.
    + destruct (IH (skipn b output)) as (fs & Hlen & Hcuts & Hfs).
      exists (firstn a output :: fs). cbn [fst snd].
      split; [simpl; now rewrite Hlen|].
      split; [now apply cuts_match with (b := b)|].
      simpl. now rewrite Hfs.
    + cbn [fst snd]. rewrite firstn_all, skipn_all.
      destruct (IH []) as (fs & Hlen & Hcuts & Hfs).
      exists (output :: fs).
      split; [simpl; now rewrite Hlen|].
      split; [now apply cuts_rest|].
      simpl. now rewrite Hfs.
Qed.

Lemma highlight_run (MarkdownCommon : bytes -> bytes)
      (pygmentize : bytes -> Pygmentize) (source : bytes)
      (language : Language) (sections : list section) (w : World) :
  getLanguage source = Some language ->
  stdin_pipe (pygmentize (name language)) = true ->
  stdout_pipe (pygmentize (name language)) = true ->
  let log :=
    interleave (PipeWriteString (dividerText language))
               (map (fun e => PipeWrite (codeText e)) sections)
    ++ [PipeClose] in
  let output := respond (pygmentize (name language)) (stream log) in
  highlight MarkdownCommon pygmentize source sections w
  = (Ok (fragments MarkdownCommon language
           (RemoveAll (RemoveAll output highlightStart) highlightEnd)
           sections),
     {| w_stdin := log; w_files := w_files w; w_log := w_log w;
        w_write := w_write w |}).
Proof.
  intros Hl Hin Hout log output. unfold highlight.
  rewrite Hl. unfold lift, iobind at 1.
  unfold iobind at 1. unfold open_pipes at 1.
  unfold iobind at 1. rewrite feed_log by assumption.
  unfold iobind at 1. unfold pipe_call at 1. rewrite Hin.
  unfold iobind at 1. unfold copy_output. rewrite Hout.
  reflexivity.
Qed.

(** ** Failures of the highlighter *)

Lemma fragments_of_nothing (MarkdownCommon : bytes -> bytes)
      (sections : list section) :
  fragments MarkdownCommon solidity [] sections
  = map (fun e => with_fragment MarkdownCommon e []) sections.
Proof.
  induction sections as [|e next IH]; [reflexivity|].
  cbn [fragments map].
  change (FindIndex (dividerHTML solidity) []) with (@None (nat * nat)).
  cbn [fst snd length firstn skipn]. now rewrite IH.
Qed.

Lemma highlight_nil_pipe (MarkdownCommon : bytes -> bytes)
      (pygmentize : bytes -> Pygmentize) (source : bytes)
      (language : Language) (sections : list section) (w : World) :
  getLanguage source = Some language ->
  stdin_pipe (pygmentize (name language)) = false ->
  highlight MarkdownCommon pygmentize source sections w
  = (Panic nil_deref,
     {| w_stdin := []; w_files := w_files w; w_log := w_log w;
        w_write := w_write w |}).
Proof.
  intros Hl Hin. unfold highlight. rewrite Hl.
  unfold lift, iobind at 1. unfold iobind at 1. unfold open_pipes at 1.
  unfold iobind at 1.
  destruct sections as [|e next].
  - cbn [feed]. unfold ret. unfold iobind at 1. unfold pipe_call at 1.
    now rewrite Hin.
  - cbn [feed]. unfold iobind at 1. unfold pipe_call at 1.
    now rewrite Hin.
Qed.

Lemma highlight_nil_output (MarkdownCommon : bytes -> bytes)
      (pygmentize : bytes -> Pygmentize) (source : bytes)
      (language : Language) (sections : list section) (w : World) :
  getLanguage source = Some language ->
  stdin_pipe (pygmentize (name language)) = true ->
  stdout_pipe (pygmentize (name language)) = false ->
  highlight MarkdownCommon pygmentize source sections w
  = (Panic nil_deref,
     {| w_stdin :=
          interleave (PipeWriteString (dividerText language))
                     (map (fun e => PipeWrite (codeText e)) sections)
          ++ [PipeClose];
        w_files := w_files w; w_log := w_log w;
        w_write := w_write w |}).
Proof.
  intros Hl Hin Hout. unfold highlight. rewrite Hl.
  unfold lift, iobind at 1. unfold iobind at 1. unfold open_pipes at 1.
  unfold iobind at 1. rewrite feed_log by assumption.
  unfold iobind at 1. unfold pipe_call at 1. rewrite Hin.
  unfold iobind at 1. unfold copy_output. now rewrite Hout.
Qed.

(** C4, as the spec has it, fails: with a highlighter that could not be
    started the run goes through and writes the output file, every section
    with the bare wrapper as its code. *)
Lemma highlighter_failure_counterexample :
  failed broken_pygments = true
  /\ start_error broken_pygments = true
  /\ exists w',
       generateDocumentation
         (fun b => b) plain_template [bs "a.sol"]
         (fun _ => broken_pygments) (fun _ => Some (bs "x = 1;"))
         (bs "a.sol") world0 = (Ok tt, w')
       /\ w_files w'
          = [(bs "docs/a.html", bs "1" ++ highlightStart ++ highlightEnd)].
Proof.
  split; [reflexivity|]. split; [reflexivity|].
  eexists. split; vm_compute; reflexivity.
Qed.

(** ** Replacement along a text *)

Lemma replace_skip (p : regex) (tmpl : list titem) (m : bytes) :
  forall pos s,
    replace_from p tmpl (length m) pos (m ++ s)
    = replace_from p tmpl 0 (pos + length m) s.
Proof.
  induction m as [|x m IH]; intros pos s.
  - simpl. now rewrite Nat.add_0_r.
  - cbn [length app replace_from]. rewrite IH. f_equal. lia.
Qed.

(** A match at the head of the text is replaced and the scan goes on
    after it. *)
Lemma replace_hit (p : regex) (tmpl : list titem) (pos : nat)
      (m rest : bytes) (caps : list bytes) :
  m <> [] ->
  exec p pos (m ++ rest) = Some (caps, rest) ->
  replace_from p tmpl 0 pos (m ++ rest)
  = expand tmpl caps ++ replace_from p tmpl 0 (pos + length m) rest.
Proof.
  intros Hm Hx. destruct m as [|x m]; [congruence|].
  cbn [app replace_from]. cbn [app] in Hx. rewrite Hx. f_equal.
  replace (length (x :: m ++ rest) - length rest) with (S (length m))
    by (cbn [length]; rewrite length_app; lia).
  rewrite replace_skip. f_equal. cbn [length]. lia.
Qed.

(** Where no suffix of [pre ++ rest] that starts within [pre] has a match
    at its head, [pre] is copied. *)
Lemma replace_miss (p : regex) (tmpl : list titem) (rest : bytes)
      (pre : bytes) :
  forall pos,
    (forall s1 s2 pos',
        pre = s1 ++ s2 -> s2 <> [] -> exec p pos' (s2 ++ rest) = None) ->
    replace_from p tmpl 0 pos (pre ++ rest)
    = pre ++ replace_from p tmpl 0 (pos + length pre) rest.
Proof.
  induction pre as [|x pre IH]; intros pos H.
  - simpl. now rewrite Nat.add_0_r.
  - assert (H0 : exec p pos (x :: pre ++ rest) = None).
    { apply (H [] (x :: pre) pos eq_refl). discriminate. }
    cbn [app replace_from]. rewrite H0, IH.
    + cbn [length]. rewrite Nat.add_succ_r. reflexivity.
    + intros s1 s2 pos' -> Hs2. apply (H (x :: s1) s2 pos'); auto.
Qed.

Lemma replace_end (p : regex) (tmpl : list titem) (pos : nat) :
  exec p pos [] = None -> replace_from p tmpl 0 pos [] = [].
Proof. intros H. simpl. now rewrite H. Qed.

Lemma replace_none (p : regex) (tmpl : list titem) (text : bytes) (pos : nat) :
  (forall s1 s2 pos', text = s1 ++ s2 -> exec p pos' s2 = None) ->
  replace_from p tmpl 0 pos text = text.
Proof.
  intros H. rewrite <- (app_nil_r text) at 1.
  rewrite replace_miss.
  - rewrite replace_end; [apply app_nil_r|].
    apply (H text []). now rewrite app_nil_r.
  - intros s1 s2 pos' -> _. rewrite app_nil_r. now apply (H s1 s2).
Qed.

(** ** The three patterns of the emphasis *)

Lemma greedy_longest (R : Type) (c : class) (k : bytes -> bytes -> option R)
      (x : R) (rest : bytes) (run : bytes) :
  Forall (fun y => c y = true) run ->
  (forall y s', rest = y :: s' -> c y = false) ->
  forall taken,
    k (taken ++ run) rest = Some x ->
    greedy c (run ++ rest) taken k = Some x.
Proof.
  intros Hrun Hrest. induction Hrun as [|y run Hy _ IH]; intros taken Hk.
  - rewrite app_nil_r in Hk. simpl.
    destruct rest as [|y s']; [exact Hk|].
    cbn [greedy]. now rewrite (Hrest y s' eq_refl).
  - cbn [app greedy]. rewrite Hy.
    rewrite IH; [reflexivity|]. now rewrite <- app_assoc.
Qed.

Lemma exec_leading_inv (ref : bytes) (pos : nat) (s rest : bytes)
      (caps : list bytes) :
  exec (rx_leading ref) pos s = Some (caps, rest) ->
  exists run,
    s = run ++ ref ++ rest /\ run <> []
    /\ Forall (fun y => space y = true) run.
Proof.
  unfold rx_leading. cbn [exec atom_of captures match_atom]. intros H.
  apply greedy_inv in H as (run & r & -> & Hrun & Hk). cbn [app] in Hk.
  destruct run as [|y run]; [discriminate Hk|].
  destruct (strip_prefix ref r) as [r'|] eqn:E; [|discriminate Hk].
  apply strip_prefix_app in E as ->. injection Hk as _ <-.
  exists (y :: run). repeat split; auto. discriminate.
Qed.

Lemma exec_trailing_inv (ref : bytes) (pos : nat) (s rest : bytes)
      (caps : list bytes) :
  exec (rx_trailing ref) pos s = Some (caps, rest) ->
  exists run,
    s = ref ++ run ++ rest /\ run <> []
    /\ Forall (fun y => space y = true) run.
Proof.
  unfold rx_trailing. cbn [exec atom_of captures match_atom]. intros H.
  destruct (strip_prefix ref s) as [r|] eqn:E; [|discriminate H].
  apply strip_prefix_app in E as ->.
  destruct (greedy _ _ _ _) as [[caps' rest']|] eqn:G; [|discriminate H].
  injection H as _ <-.
  apply greedy_inv in G as (run & r' & -> & Hrun & Hk). cbn [app] in Hk.
  destruct run as [|y run]; [discriminate Hk|].
  injection Hk as _ <-.
  exists (y :: run). repeat split; auto. discriminate.
Qed.

Lemma exec_surrounded_inv (ref : bytes) (pos : nat) (s rest : bytes)
      (caps : list bytes) :
  exec (rx_surrounded ref) pos s = Some (caps, rest) ->
  exists run1 run2,
    s = run1 ++ ref ++ run2 ++ rest /\ run1 <> [] /\ run2 <> []
    /\ Forall (fun y => space y = true) run1
    /\ Forall (fun y => space y = true) run2.
Proof.
  unfold rx_surrounded. intros H.
  change (exec [Group (Plus space); Group (Lit ref); Group (Plus space)] pos s)
    with (match_atom (Plus space) pos s
            (fun m r =>
               match exec (rx_trailing ref) (pos + length m) r with
               | Some (caps, rest) => Some (m :: caps, rest)
               | None => None
               end)) in H.
  cbn [match_atom] in H.
  apply greedy_inv in H as (run1 & r & -> & Hrun1 & Hk). cbn [app] in Hk.
  destruct run1 as [|y run1]; [discriminate Hk|].
  destruct (exec (rx_trailing ref) _ r) as [[caps' rest']|] eqn:E;
    [|discriminate Hk].
  injection Hk as _ <-.
  apply exec_trailing_inv in E as (run2 & -> & Hne & Hrun2).
  exists (y :: run1), run2. repeat split; auto. discriminate.
Qed.


(** ** Matches of the emphasis patterns *)


Section Emphasis.
Variable ref : bytes.
Hypothesis Href : plain_token ref.

Lemma graphic_not_space (c : ascii) : graphic c = true -> space c = false.
Proof.
  destruct c as [[] [] [] [] [] [] [] []];
    intros H; try discriminate H; reflexivity.
Qed.

Lemma ref_head : exists r ref', ref = r :: ref' /\ space r = false.
Proof.
  destruct Href as [Hne Hg]. destruct ref as [|r ref']; [congruence|].
  exists r, ref'. split; [reflexivity|].
  inversion Hg; subst. now apply graphic_not_space.
Qed.

Lemma exec_leading_hit (pos : nat) (run rest : bytes) :
  run <> [] -> Forall (fun y => space y = true) run ->
  exec (rx_leading ref) pos ((run ++ ref) ++ rest) = Some ([run; ref], rest).
Proof.
  intros Hne Hrun. destruct ref_head as (r & ref' & E & Hr).
  rewrite <- app_assoc.
  unfold rx_leading. cbn [exec atom_of captures match_atom].
  apply greedy_longest; auto.
  - intros y s' Hy. rewrite E in Hy. injection Hy as <- _. exact Hr.
  - cbn [app]. destruct run as [|y run]; [congruence|].
    rewrite (proj2 (strip_prefix_app ref (ref ++ rest) rest) eq_refl).
    reflexivity.
Qed.

End Emphasis.

Lemma graphic_utf8_valid (s : bytes) :
  Forall (fun c => graphic c = true) s -> utf8_valid s = true.
Proof.
  unfold utf8_valid. induction 1 as [|c s Hc _ IH]; [reflexivity|].
  cbn [utf8_from].
  assert (E : utf8_width (c :: s) = Some 1).
  { destruct c as [[] [] [] [] [] [] [] []];
      try discriminate Hc; reflexivity. }
  rewrite E. exact IH.
Qed.

Lemma highlightRefs_plain (text ref : bytes) :
  plain_token ref ->
  highlightRefs text ref
  = Ok (ReplaceAll (rx_surrounded ref)
          (ReplaceAll (rx_trailing ref)
             (ReplaceAll (rx_leading ref) text
                [V 1; T strong_open; V 2; T strong_close])
             [T strong_open; V 1; T strong_close; V 2])
          [V 1; T strong_open; V 2; T strong_close; V 3]).
Proof.
  intros [Hne Hg]. unfold highlightRefs.
  destruct ref as [|r ref']; [congruence|].
  cbn [length Nat.eqb]. now rewrite graphic_utf8_valid.
Qed.

Lemma markers_not_space :
  Forall (fun y => space y = false) strong_open
  /\ Forall (fun y => space y = false) strong_close.
Proof. split; repeat constructor. Qed.


(** ** The runs of a text *)

Lemma split_runs_join (s : bytes) :
  join_runs (fst (split_runs s)) (snd (split_runs s)) = s.
Proof.
  induction s as [|c s IH]; [reflexivity|].
  cbn [split_runs]. destruct (split_runs s) as [w0 units]. cbn [fst snd] in IH.
  destruct (space c).
  - destruct w0 as [|y w0]; [destruct units as [|[sp w] units]|];
      cbn [fst snd join_runs app] in *; now rewrite IH.
  - cbn [fst snd]. destruct units as [|[sp w] units];
      cbn [join_runs app] in *; now rewrite IH.
Qed.

Lemma split_runs_ok (s : bytes) :
  Forall (fun y => space y = false) (fst (split_runs s))
  /\ runs_ok (snd (split_runs s)).
Proof.
  induction s as [|c s IH]; [split; constructor|].
  cbn [split_runs]. destruct (split_runs s) as [w0 units].
  cbn [fst snd] in IH. destruct IH as [Hw0 Hok].
  destruct (space c) eqn:Ec.
  - destruct w0 as [|y w0]; [destruct units as [|[sp w] units]|];
      cbn [fst snd runs_ok] in *.
    + repeat split; auto. discriminate.
    + destruct Hok as (Hne & Hsp & Hw & Hlast & Hok).
      repeat split; auto. discriminate.
    + repeat split; auto; discriminate.
  - cbn [fst snd]. split; auto.
Qed.

Lemma join_runs_app (a b : bytes) (units : list (bytes * bytes)) :
  join_runs (a ++ b) units = a ++ join_runs b units.
Proof.
  destruct units as [|[sp w] units]; cbn [join_runs]; auto.
  now rewrite <- app_assoc.
Qed.

Lemma join_runs_starts_text (w : bytes) (units : list (bytes * bytes)) :
  Forall (fun y => space y = false) w ->
  (w = [] -> units = []) ->
  starts_text (join_runs w units).
Proof.
  intros Hw Hlast. destruct w as [|y w].
  - rewrite (Hlast eq_refl). exact I.
  - destruct units as [|[sp w'] units]; cbn; now inversion Hw.
Qed.

(** A run is determined by where it stops. *)
Lemma run_unique (b : bool) (a a' x x' : bytes) :
  Forall (fun y => space y = b) a ->
  Forall (fun y => space y = b) a' ->
  (forall c t, x = c :: t -> space c = negb b) ->
  (forall c t, x' = c :: t -> space c = negb b) ->
  a ++ x = a' ++ x' ->
  a = a' /\ x = x'.
Proof.
  intros Ha. revert a'.
  induction Ha as [|y a Hy _ IH]; intros a' Ha' Hx Hx' E.
  - destruct Ha' as [|y' a' Hy' _]; [auto|]. exfalso.
    cbn [app] in E. rewrite (Hx y' (a' ++ x') E) in Hy'.
    now destruct b.
  - destruct Ha' as [|y' a' Hy' Ha'].
    + exfalso. cbn [app] in E. symmetry in E.
      rewrite (Hx' y (a ++ x) E) in Hy. now destruct b.
    + cbn [app] in E. injection E as <- E.
      destruct (IH a' Ha' Hx Hx' E) as [-> ->]. auto.
Qed.

Lemma starts_text_stop (x : bytes) :
  starts_text x -> forall c t, x = c :: t -> space c = negb true.
Proof. intros H c t ->. exact H. Qed.

Lemma starts_space_stop (x : bytes) :
  starts_space x -> forall c t, x = c :: t -> space c = negb false.
Proof. intros H c t ->. exact H. Qed.

(** A piece of text that a word begins with, when the word stops at white
    space. *)
Lemma text_prefix_of_word (ref rest w tail : bytes) :
  Forall (fun y => space y = false) ref ->
  starts_space tail ->
  ref ++ rest = w ++ tail ->
  exists r, w = ref ++ r.
Proof.
  intros Href Htail E.
  apply app_eq_app in E as (l & [[E1 E2]|[E1 E2]]).
  - destruct l as [|c l].
    + exists []. now rewrite app_nil_r in *.
    + exfalso. rewrite E2 in Htail. cbn in Htail.
      rewrite E1 in Href. apply Forall_app in Href as [_ Hl].
      inversion Hl; subst. congruence.
  - eauto.
Qed.

(** ** The three passes, word by word *)

Lemma strip_suffix_app (ref w l : bytes) :
  strip_prefix (rev ref) (rev w) = Some l <-> w = rev l ++ ref.
Proof.
  rewrite strip_prefix_app. split; intros H.
  - apply (f_equal (@rev ascii)) in H.
    now rewrite rev_involutive, rev_app_distr, rev_involutive in H.
  - now rewrite H, rev_app_distr, rev_involutive.
Qed.

Section Runs.
Variable ref : bytes.
Hypothesis Href : plain_token ref.

Let t1 := [V 1; T strong_open; V 2; T strong_close].
Let t2 := [T strong_open; V 1; T strong_close; V 2].
Let t3 := [V 1; T strong_open; V 2; T strong_close; V 3].

Lemma ref_text : Forall (fun y => space y = false) ref.
Proof.
  destruct Href as [_ Hg]. revert Hg. apply Forall_impl.
  apply graphic_not_space.
Qed.

Lemma ref_starts_text (rest : bytes) : starts_text (ref ++ rest).
Proof.
  destruct (ref_head ref Href) as (r & ref' & -> & Hr). exact Hr.
Qed.

Lemma wrap_first_text (w : bytes) :
  Forall (fun y => space y = false) w ->
  Forall (fun y => space y = false) (wrap_first ref w).
Proof.
  intros Hw. unfold wrap_first.
  destruct (strip_prefix ref w) as [r|] eqn:E; auto.
  apply strip_prefix_app in E. rewrite E in Hw.
  apply Forall_app in Hw as [_ Hr].
  destruct markers_not_space as [Ho Hc].
  repeat (apply Forall_app; split); auto using ref_text.
Qed.

Lemma wrap_first_nil (w : bytes) : wrap_first ref w = [] -> w = [].
Proof.
  unfold wrap_first. destruct (strip_prefix ref w); auto. discriminate.
Qed.

Lemma wrap_last_text (w : bytes) :
  Forall (fun y => space y = false) w ->
  Forall (fun y => space y = false) (wrap_last ref w).
Proof.
  intros Hw. unfold wrap_last.
  destruct (strip_prefix (rev ref) (rev w)) as [l|] eqn:E; auto.
  apply strip_suffix_app in E. rewrite E in Hw.
  apply Forall_app in Hw as [Hl _].
  destruct markers_not_space as [Ho Hc].
  repeat (apply Forall_app; split); auto using ref_text.
Qed.

Lemma wrap_last_nil (w : bytes) : wrap_last ref w = [] -> w = [].
Proof.
  unfold wrap_last. destruct (strip_prefix (rev ref) (rev w)); auto.
  intros H. apply app_eq_nil in H as [_ H]. discriminate H.
Qed.

Lemma wrap_last_not_ref (w : bytes) : wrap_last ref w <> ref.
Proof.
  unfold wrap_last.
  destruct (strip_prefix (rev ref) (rev w)) as [l|] eqn:E.
  - intros H. apply (f_equal (@length ascii)) in H.
    rewrite !length_app in H. cbn in H. lia.
  - intros ->.
    assert (H : strip_prefix (rev ref) (rev ref) = Some []).
    { apply strip_prefix_app. now rewrite app_nil_r. }
    congruence.
Qed.

Lemma mark_leading_ok (units : list (bytes * bytes)) :
  runs_ok units -> runs_ok (mark_leading ref units).
Proof.
  induction units as [|[sp w] units IH]; [auto|].
  cbn [runs_ok mark_leading map fst snd].
  intros (Hne & Hsp & Hw & Hlast & Hok).
  repeat split; auto using wrap_first_text.
  intros H. apply wrap_first_nil in H.
  now rewrite (Hlast H).
Qed.

Lemma exec_leading_needs_space (pos : nat) (s : bytes) :
  starts_text s -> exec (rx_leading ref) pos s = None.
Proof.
  intros Hs.
  destruct (exec (rx_leading ref) pos s) as [[caps rest]|] eqn:E; auto.
  apply exec_leading_inv in E as (run & -> & Hne & Hrun).
  destruct run as [|c run]; [congruence|].
  inversion Hrun; subst. cbn in Hs. congruence.
Qed.

Lemma exec_surrounded_needs_space (pos : nat) (s : bytes) :
  starts_text s -> exec (rx_surrounded ref) pos s = None.
Proof.
  intros Hs.
  destruct (exec (rx_surrounded ref) pos s) as [[caps rest]|] eqn:E; auto.
  apply exec_surrounded_inv in E as (run & run2 & -> & Hne & _ & Hrun & _).
  destruct run as [|c run]; [congruence|].
  inversion Hrun; subst. cbn in Hs. congruence.
Qed.

Lemma suffix_starts_text (w s1 s2 rest : bytes) :
  Forall (fun y => space y = false) w ->
  w = s1 ++ s2 -> s2 <> [] -> starts_text (s2 ++ rest).
Proof.
  intros Hw -> Hne. apply Forall_app in Hw as [_ Hs2].
  destruct s2 as [|y s2]; [congruence|]. now inversion Hs2.
Qed.

Lemma suffix_starts_space (sp s1 s2 rest : bytes) :
  Forall (fun y => space y = true) sp ->
  sp = s1 ++ s2 -> s2 <> [] -> starts_space (s2 ++ rest).
Proof.
  intros Hw -> Hne. apply Forall_app in Hw as [_ Hs2].
  destruct s2 as [|y s2]; [congruence|]. now inversion Hs2.
Qed.

(** The first pass wraps the identifier at the beginning of every word
    after white space. *)
Lemma leading_runs (units : list (bytes * bytes)) :
  forall w0 pos,
    Forall (fun y => space y = false) w0 ->
    runs_ok units ->
    replace_from (rx_leading ref) t1 0 pos (join_runs w0 units)
    = join_runs w0 (mark_leading ref units).
Proof.
  induction units as [|[sp w] units IH]; intros w0 pos Hw0 Hok.
  - cbn [join_runs mark_leading map]. apply replace_none.
    intros s1 s2 pos' E. destruct s2 as [|y s2].
    + now apply exec_leading_needs_space.
    + apply exec_leading_needs_space.
      rewrite <- (app_nil_r (y :: s2)).
      apply (suffix_starts_text w0 s1); auto. discriminate.
  - destruct Hok as (Hne & Hsp & Hw & Hlast & Hok).
    cbn [join_runs mark_leading map fst snd].
    rewrite replace_miss.
    2:{ intros s1 s2 pos' E Hs2. apply exec_leading_needs_space.
        now apply (suffix_starts_text w0 s1). }
    f_equal. unfold wrap_first.
    destruct (strip_prefix ref w) as [r|] eqn:Er.
    + apply strip_prefix_app in Er as ->.
      apply Forall_app in Hw as [_ Hr].
      rewrite join_runs_app, app_assoc.
      rewrite (replace_hit (rx_leading ref) t1 _ (sp ++ ref)
                 (join_runs r units) [sp; ref]).
      * rewrite IH by assumption.
        unfold t1, expand. cbn [map nth pred concat].
        rewrite app_nil_r, !join_runs_app, <- !app_assoc. reflexivity.
      * destruct sp; [congruence|discriminate].
      * now apply exec_leading_hit.
    + rewrite replace_miss.
      * rewrite IH by assumption. reflexivity.
      * intros s1 s2 pos' E Hs2.
        destruct (exec (rx_leading ref) pos' (s2 ++ join_runs w units))
          as [[caps rest]|] eqn:X; auto.
        exfalso.
        apply exec_leading_inv in X as (run & X & _ & Hrun).
        assert (Hs : Forall (fun y => space y = true) s2).
        { rewrite E in Hsp. now apply Forall_app in Hsp as [_ Hs]. }
        destruct (run_unique true s2 run (join_runs w units) (ref ++ rest)
                    Hs Hrun) as [_ Hj]; auto.
        { apply starts_text_stop. now apply join_runs_starts_text. }
        { apply starts_text_stop. apply ref_starts_text. }
        destruct units as [|[sp' w'] units]; cbn [join_runs] in Hj.
        -- rewrite <- (app_nil_r w) in Hj. symmetry in Hj.
           apply text_prefix_of_word in Hj as (r & ->);
             [|apply ref_text|exact I].
           rewrite (proj2 (strip_prefix_app ref (ref ++ r) r) eq_refl) in Er.
           discriminate Er.
        -- symmetry in Hj.
           apply text_prefix_of_word in Hj as (r & ->); [|apply ref_text|].
           ++ rewrite (proj2 (strip_prefix_app ref (ref ++ r) r) eq_refl)
                in Er.
              discriminate Er.
           ++ destruct Hok as (Hne' & Hsp' & _).
              destruct sp' as [|c sp']; [congruence|].
              now inversion Hsp'.
Qed.

Lemma exec_trailing_hit_rest (pos : nat) (run rest : bytes) :
  run <> [] -> Forall (fun y => space y = true) run ->
  starts_text rest ->
  exec (rx_trailing ref) pos ((ref ++ run) ++ rest) = Some ([ref; run], rest).
Proof.
  intros Hne Hrun Hrest. rewrite <- app_assoc.
  unfold rx_trailing. cbn [exec atom_of captures match_atom].
  rewrite (proj2 (strip_prefix_app ref (ref ++ run ++ rest) (run ++ rest))
             eq_refl).
  rewrite (greedy_longest (list bytes * bytes) space _ ([run], rest) rest run);
    auto.
  - intros y s' ->. exact Hrest.
  - cbn [app]. destruct run; [congruence|reflexivity].
Qed.

Lemma exec_trailing_needs_ref (pos : nat) (s : bytes) :
  starts_space s -> exec (rx_trailing ref) pos s = None.
Proof.
  intros Hs.
  destruct (exec (rx_trailing ref) pos s) as [[caps rest]|] eqn:E; auto.
  apply exec_trailing_inv in E as (run & -> & _).
  pose proof (ref_starts_text (run ++ rest)) as Ht.
  destruct (ref_head ref Href) as (r & ref' & Er & Hr).
  rewrite Er in Hs. cbn in Hs. congruence.
Qed.

Lemma app_same_length (a b : bytes) : a ++ b = b -> a = [].
Proof.
  intros H. apply (f_equal (@length ascii)) in H.
  rewrite length_app in H. destruct a; [reflexivity|cbn in H; lia].
Qed.

(** The second pass wraps the identifier at the end of every word that
    white space follows. *)
Lemma trailing_runs (units : list (bytes * bytes)) :
  forall w0 pos,
    Forall (fun y => space y = false) w0 ->
    runs_ok units ->
    replace_from (rx_trailing ref) t2 0 pos (join_runs w0 units)
    = mark_trailing ref w0 units.
Proof.
  induction units as [|[sp w] units IH]; intros w0 pos Hw0 Hok.
  - cbn [join_runs mark_trailing]. apply replace_none.
    intros s1 s2 pos' E.
    destruct (exec (rx_trailing ref) pos' s2) as [[caps rest]|] eqn:X; auto.
    exfalso. apply exec_trailing_inv in X as (run & -> & Hne & Hrun).
    destruct run as [|c run]; [congruence|]. inversion Hrun; subst.
    apply Forall_app in Hw0 as [_ Hw0]. apply Forall_app in Hw0 as [_ Hw0].
    inversion Hw0; subst. congruence.
  - destruct Hok as (Hne & Hsp & Hw & Hlast & Hok).
    cbn [join_runs mark_trailing].
    assert (HJ : starts_text (join_runs w units))
      by now apply join_runs_starts_text.
    assert (HsJ : starts_space (sp ++ join_runs w units)).
    { destruct sp as [|c sp]; [congruence|]. now inversion Hsp. }
    unfold wrap_last.
    destruct (strip_prefix (rev ref) (rev w0)) as [l|] eqn:El.
    + apply strip_suffix_app in El. subst w0.
      apply Forall_app in Hw0 as [Hl _].
      replace ((rev l ++ ref) ++ sp ++ join_runs w units)
        with (rev l ++ (ref ++ sp) ++ join_runs w units)
        by now rewrite <- !app_assoc.
      rewrite replace_miss.
      * rewrite (replace_hit (rx_trailing ref) t2 _ (ref ++ sp)
                   (join_runs w units) [ref; sp]).
        -- rewrite IH by assumption.
           unfold t2, expand. cbn [map nth pred concat].
           rewrite app_nil_r, <- !app_assoc. reflexivity.
        -- destruct Href as [Hr _]. destruct ref; [congruence|discriminate].
        -- now apply exec_trailing_hit_rest.
      * intros s1 s2 pos' E Hs2.
        destruct (exec (rx_trailing ref) pos'
                    (s2 ++ (ref ++ sp) ++ join_runs w units))
          as [[caps rest]|] eqn:X; auto.
        exfalso. apply exec_trailing_inv in X as (run & X & Hrne & Hrun).
        rewrite E in Hl. apply Forall_app in Hl as [_ Hs].
        destruct (run_unique false (s2 ++ ref) ref
                    (sp ++ join_runs w units) (run ++ rest)) as [Hcut _].
        -- apply Forall_app; split; [exact Hs|apply ref_text].
        -- apply ref_text.
        -- now apply starts_space_stop.
        -- apply starts_space_stop.
           destruct run as [|c run]; [congruence|]. now inversion Hrun.
        -- now rewrite <- !app_assoc in *.
        -- apply app_same_length in Hcut. congruence.
    + rewrite app_assoc, replace_miss.
      * rewrite IH by assumption. now rewrite <- app_assoc.
      * intros s1 s2 pos' E Hs2.
        destruct (exec (rx_trailing ref) pos' (s2 ++ join_runs w units))
          as [[caps rest]|] eqn:X; auto.
        exfalso.
        apply app_eq_app in E as (l & [[E1 E2]|[E1 E2]]).
        -- apply exec_trailing_inv in X as (run & X & Hrne & Hrun).
           rewrite E1 in Hw0. apply Forall_app in Hw0 as [_ Hl].
           destruct (run_unique false l ref
                       (sp ++ join_runs w units) (run ++ rest))
             as [Hcut _]; auto.
           ++ apply ref_text.
           ++ now apply starts_space_stop.
           ++ apply starts_space_stop.
              destruct run as [|c run]; [congruence|]. now inversion Hrun.
           ++ rewrite <- X, E2. now rewrite <- app_assoc.
           ++ subst l.
              assert (Hsome : strip_prefix (rev ref) (rev w0)
                              = Some (rev s1)).
              { apply strip_suffix_app. now rewrite rev_involutive. }
              congruence.
        -- rewrite exec_trailing_needs_ref in X; [discriminate X|].
           now apply (suffix_starts_space sp l).
Qed.

Lemma mark_trailing_starts_text (w : bytes) (units : list (bytes * bytes)) :
  Forall (fun y => space y = false) w ->
  (w = [] -> units = []) ->
  starts_text (mark_trailing ref w units).
Proof.
  intros Hw Hlast.
  destruct units as [|[sp w'] units]; cbn [mark_trailing].
  - destruct w; [exact I|now inversion Hw].
  - pose proof (wrap_last_text w Hw) as Ht.
    destruct (wrap_last ref w) as [|y t] eqn:E.
    + apply wrap_last_nil in E. now specialize (Hlast E).
    + now inversion Ht.
Qed.

(** The third pass finds nothing left to wrap. *)
Lemma surrounded_runs (units : list (bytes * bytes)) :
  forall w0 pos,
    Forall (fun y => space y = false) w0 ->
    runs_ok units ->
    replace_from (rx_surrounded ref) t3 0 pos (mark_trailing ref w0 units)
    = mark_trailing ref w0 units.
Proof.
  induction units as [|[sp w] units IH]; intros w0 pos Hw0 Hok.
  - cbn [mark_trailing]. apply replace_none.
    intros s1 s2 pos' E. destruct s2 as [|y s2].
    + now apply exec_surrounded_needs_space.
    + apply exec_surrounded_needs_space.
      rewrite <- (app_nil_r (y :: s2)).
      apply (suffix_starts_text w0 s1); auto. discriminate.
  - destruct Hok as (Hne & Hsp & Hw & Hlast & Hok).
    cbn [mark_trailing].
    rewrite replace_miss.
    2:{ intros s1 s2 pos' E Hs2. apply exec_surrounded_needs_space.
        apply (suffix_starts_text (wrap_last ref w0) s1); auto.
        now apply wrap_last_text. }
    rewrite replace_miss.
    + now rewrite IH.
    + intros s1 s2 pos' E Hs2.
      destruct (exec (rx_surrounded ref) pos'
                  (s2 ++ mark_trailing ref w units))
        as [[caps rest]|] eqn:X; auto.
      exfalso.
      apply exec_surrounded_inv in X
        as (run1 & run2 & X & _ & Hne2 & Hrun1 & Hrun2).
      assert (Hs : Forall (fun y => space y = true) s2).
      { rewrite E in Hsp. now apply Forall_app in Hsp as [_ Hs]. }
      destruct (run_unique true s2 run1 (mark_trailing ref w units)
                  (ref ++ run2 ++ rest) Hs Hrun1) as [_ HM]; auto.
      { apply starts_text_stop. now apply mark_trailing_starts_text. }
      { apply starts_text_stop. apply ref_starts_text. }
      destruct run2 as [|c run2]; [congruence|]. inversion Hrun2; subst.
      destruct units as [|[sp' w'] units]; cbn [mark_trailing] in HM.
      * rewrite HM in Hw. apply Forall_app in Hw as [_ Hw].
        inversion Hw; subst. congruence.
      * destruct Hok as (Hne' & Hsp' & _).
        destruct (run_unique false (wrap_last ref w) ref
                    (sp' ++ mark_trailing ref w' units)
                    ((c :: run2) ++ rest)) as [Hcut _]; auto.
        -- now apply wrap_last_text.
        -- apply ref_text.
        -- apply starts_space_stop.
           destruct sp' as [|c' sp']; [congruence|]. now inversion Hsp'.
        -- now apply starts_space_stop.
        -- now apply wrap_last_not_ref in Hcut.
Qed.

(** The three passes together are the emphasis word by word. *)
Lemma highlightRefs_emphasize (text : bytes) :
  highlightRefs text ref = Ok (emphasize ref text).
Proof.
  rewrite highlightRefs_plain by assumption. fold t1 t2 t3.
  unfold ReplaceAll, emphasize.
  pose proof (split_runs_join text) as Hj.
  pose proof (split_runs_ok text) as [Hw0 Hok].
  destruct (split_runs text) as [w0 units]. cbn [fst snd] in *.
  rewrite <- Hj at 1.
  rewrite leading_runs by assumption.
  rewrite trailing_runs by auto using mark_leading_ok.
  rewrite surrounded_runs by auto using mark_leading_ok.
  reflexivity.
Qed.

End Runs.

Lemma split_runs_word (w : bytes) :
  Forall (fun y => space y = false) w -> split_runs w = (w, []).
Proof.
  induction 1 as [|y w Hy _ IH]; [reflexivity|].
  cbn [split_runs]. now rewrite IH, Hy.
Qed.

Lemma split_runs_word_before (w s : bytes) :
  Forall (fun y => space y = false) w ->
  split_runs (w ++ s) = (w ++ fst (split_runs s), snd (split_runs s)).
Proof.
  induction 1 as [|y w Hy _ IH]; cbn [app].
  - now destruct (split_runs s).
  - cbn [split_runs]. now rewrite IH, Hy.
Qed.

Lemma split_runs_space_before (sp s w0 : bytes)
      (units : list (bytes * bytes)) :
  Forall (fun y => space y = true) sp -> sp <> [] ->
  split_runs s = (w0, units) ->
  (w0 = [] -> units = []) ->
  split_runs (sp ++ s) = ([], (sp, w0) :: units).
Proof.
  intros Hsp Hne Hs Hlast.
  induction Hsp as [|c sp Hc Hsp IH]; [congruence|].
  destruct sp as [|c' sp].
  - cbn [app split_runs]. rewrite Hs, Hc.
    destruct w0; [now rewrite (Hlast eq_refl)|reflexivity].
  - cbn [app split_runs] in *. rewrite IH by discriminate.
    now rewrite Hc.
Qed.

(** ** Occurrences at the edges of a word *)

Section Edges.
Variables ref w sp sp' : bytes.
Hypothesis Href : plain_token ref.
Hypothesis Hw : Forall (fun y => space y = false) w.
Hypothesis Hsp : Forall (fun y => space y = true) sp.
Hypothesis Hsp' : Forall (fun y => space y = true) sp'.
Hypothesis Hne : sp <> [].
Hypothesis Hne' : sp' <> [].

Lemma wrap_first_here (r : bytes) :
  wrap_first ref (ref ++ r) = strong_open ++ ref ++ strong_close ++ r.
Proof.
  unfold wrap_first.
  now rewrite (proj2 (strip_prefix_app ref (ref ++ r) r) eq_refl).
Qed.

Lemma wrap_last_here (l : bytes) :
  wrap_last ref (l ++ ref) = l ++ strong_open ++ ref ++ strong_close.
Proof.
  unfold wrap_last.
  rewrite (proj2 (strip_suffix_app ref (l ++ ref) (rev l))).
  - now rewrite rev_involutive.
  - now rewrite rev_involutive.
Qed.

Lemma wrap_first_whole :
  wrap_first ref ref = strong_open ++ ref ++ strong_close.
Proof.
  pose proof (wrap_first_here []) as H. now rewrite !app_nil_r in H.
Qed.

Lemma wrap_first_nothing : wrap_first ref [] = [].
Proof.
  unfold wrap_first. destruct Href as [Hr _].
  destruct ref; [congruence|reflexivity].
Qed.

Lemma wrap_last_nothing : wrap_last ref [] = [].
Proof.
  unfold wrap_last. destruct (strip_prefix (rev ref) (rev [])) eqn:E; auto.
  apply strip_suffix_app in E. destruct Href as [Hr _].
  symmetry in E. apply app_eq_nil in E as [_ E]. congruence.
Qed.

Lemma wrap_last_marker :
  last ref " "%char <> ">"%char ->
  wrap_last ref (strong_open ++ ref ++ strong_close)
  = strong_open ++ ref ++ strong_close.
Proof.
  intros Hlast. unfold wrap_last.
  destruct (strip_prefix (rev ref) (rev (strong_open ++ ref ++ strong_close)))
    as [l|] eqn:E; auto.
  exfalso. apply strip_suffix_app in E.
  destruct Href as [Hr _]. destruct (exists_last Hr) as (ref0 & r & Er).
  apply Hlast. rewrite Er at 1. rewrite last_last.
  change strong_close with (bs "</strong" ++ [">"%char]) in E.
  rewrite Er in E at 2. rewrite !app_assoc in E.
  now apply app_inj_tail in E as [_ <-].
Qed.

Lemma leading_shape :
  highlightRefs (sp ++ ref ++ w) ref
  = Ok (sp ++ strong_open ++ ref ++ strong_close ++ w).
Proof.
  rewrite highlightRefs_emphasize by assumption. unfold emphasize.
  rewrite (split_runs_space_before sp (ref ++ w) (ref ++ w) []); auto.
  - cbn [mark_leading map fst snd mark_trailing].
    now rewrite wrap_last_nothing, wrap_first_here.
  - apply split_runs_word. apply Forall_app. split; auto using ref_text.
Qed.

Lemma trailing_shape :
  highlightRefs (w ++ ref ++ sp) ref
  = Ok (w ++ strong_open ++ ref ++ strong_close ++ sp).
Proof.
  rewrite highlightRefs_emphasize by assumption. unfold emphasize.
  rewrite app_assoc, split_runs_word_before
    by (apply Forall_app; split; auto using ref_text).
  rewrite <- (app_nil_r sp) at 1 2.
  rewrite (split_runs_space_before sp [] [] []); auto.
  cbn [mark_leading map fst snd mark_trailing].
  rewrite wrap_first_nothing, !app_nil_r, wrap_last_here.
  now rewrite <- !app_assoc.
Qed.

Lemma surrounded_shape :
  last ref " "%char <> ">"%char ->
  highlightRefs (sp ++ ref ++ sp') ref
  = Ok (sp ++ strong_open ++ ref ++ strong_close ++ sp').
Proof.
  intros Hlast.
  rewrite highlightRefs_emphasize by assumption. unfold emphasize.
  rewrite (split_runs_space_before sp (ref ++ sp') ref [(sp', [])]); auto.
  - cbn [mark_leading map fst snd mark_trailing].
    rewrite wrap_last_nothing, wrap_first_nothing, wrap_first_whole.
    rewrite wrap_last_marker by assumption.
    now rewrite !app_nil_r, <- !app_assoc.
  - rewrite split_runs_word_before by apply (ref_text ref Href).
    rewrite <- (app_nil_r sp') at 1 2.
    rewrite (split_runs_space_before sp' [] [] []); auto.
    cbn [fst snd]. now rewrite app_nil_r.
  - destruct Href as [Hr _]. congruence.
Qed.

End Edges.

(** ** Claim about the emphasis *)

(** C8. [highlightRefs] does not keep to whole tokens: its first two
    patterns ask for white space on one side of the identifier only, so an
    occurrence that is the beginning or the end of a longer word is wrapped
    as well.  The third pattern, which asks for white space on both sides,
    comes last and finds nothing left to wrap. *)
Lemma self_emphasis_counterexample :
  highlightRefs (bs " Foobar") (bs "Foo")
  = Ok (bs " <strong>Foo</strong>bar")
  /\ highlightRefs (bs "xFoo ") (bs "Foo")
     = Ok (bs "x<strong>Foo</strong> ")
  /\ highlightRefs (bs "<p>see Foobar and xFoo now</p>" ++ [nl]) (bs "Foo")
     = Ok (bs "<p>see <strong>Foo</strong>bar and x<strong>Foo</strong> now</p>"
           ++ [nl]).
Proof. repeat split. Qed.

(** Why an identifier that ends in [>] is set apart below: the second pass
    then finds the end of the closing marker that the first pass has just
    written. *)
Example self_emphasis_marker_rewrapped :
  highlightRefs (bs " > ") (bs ">")
  = Ok (bs " <strong>></strong<strong>></strong> ").
Proof. reflexivity. Qed.

(** X22. What [highlightRefs] does for an identifier of printable ASCII
    characters.  With an empty identifier the prose is left as it is.  For
    an identifier of printable ASCII characters the three passes are, on
    every text, the emphasis word by word ([emphasize]): a word (a maximal
    run without white space) that follows white space and begins with the
    identifier has this occurrence wrapped in a strong marker, then a word
    that white space follows and that ends with the identifier has this
    occurrence wrapped, and nothing else is changed.  So an occurrence after
    a run of white space is wrapped whatever text follows it, an occurrence
    before a run of white space is wrapped whatever text precedes it, an
    occurrence between two runs of white space is wrapped exactly once when
    the identifier does not end in [>], and a text that is the identifier
    alone stays as it is. *)
Theorem self_emphasis_word_by_word (ref text w sp sp' : bytes) :
  plain_token ref ->
  Forall (fun y => space y = false) w ->
  Forall (fun y => space y = true) sp -> sp <> [] ->
  Forall (fun y => space y = true) sp' -> sp' <> [] ->
  highlightRefs text [] = Ok text
  /\ highlightRefs text ref = Ok (emphasize ref text)
  /\ highlightRefs (sp ++ ref ++ w) ref
     = Ok (sp ++ strong_open ++ ref ++ strong_close ++ w)
  /\ highlightRefs (w ++ ref ++ sp) ref
     = Ok (w ++ strong_open ++ ref ++ strong_close ++ sp)
  /\ (last ref " "%char <> ">"%char ->
      highlightRefs (sp ++ ref ++ sp') ref
      = Ok (sp ++ strong_open ++ ref ++ strong_close ++ sp'))
  /\ highlightRefs ref ref = Ok ref.
Proof.
  intros Href Hw Hsp Hne Hsp' Hne'.
  split; [reflexivity|].
  split; [now apply highlightRefs_emphasize|].
  split; [|split; [|split]].
  - now apply leading_shape.
  - now apply trailing_shape.
  - intros Hlast. now apply surrounded_shape.
  - rewrite highlightRefs_emphasize by assumption.
    unfold emphasize. rewrite split_runs_word; [reflexivity|].
    now apply ref_text.
Qed.

Lemma self_emphasis_word_by_word_witness :
  plain_token (bs "Foo")
  /\ highlightRefs (bs "<p>@@Foo</p>") [] = Ok (bs "<p>@@Foo</p>")
  /\ highlightRefs (bs "a Foo b FooxFoo c xFoo") (bs "Foo")
     = Ok (bs "a <strong>Foo</strong> b <strong>Foo</strong>x<strong>Foo</strong> c xFoo")
  /\ highlightRefs (bs " " ++ bs "Foo" ++ bs "bar") (bs "Foo")
     = Ok (bs " " ++ strong_open ++ bs "Foo" ++ strong_close ++ bs "bar")
  /\ highlightRefs (bs "bar" ++ bs "Foo" ++ bs " ") (bs "Foo")
     = Ok (bs "bar" ++ strong_open ++ bs "Foo" ++ strong_close ++ bs " ")
  /\ (last (bs "Foo") " "%char <> ">"%char ->
      highlightRefs (bs " " ++ bs "Foo" ++ [nl]) (bs "Foo")
      = Ok (bs " " ++ strong_open ++ bs "Foo" ++ strong_close ++ [nl]))
  /\ highlightRefs (bs "Foo") (bs "Foo") = Ok (bs "Foo").
Proof.
  assert (Hp : plain_token (bs "Foo")).
  { split; [discriminate|repeat constructor]. }
  split; [exact Hp|].
  split; [reflexivity|].
  apply (self_emphasis_word_by_word
           (bs "Foo") (bs "a Foo b FooxFoo c xFoo") (bs "bar") (bs " ") [nl]
           Hp).
  - repeat constructor.
  - repeat constructor.
  - discriminate.
  - repeat constructor.
  - discriminate.
Defined.

(** * Further properties of the code *)

(** ** Paths *)

Lemma bytes_eqb_eq (a b : bytes) : bytes_eqb a b = true -> a = b.
Proof.
  revert b. induction a as [|x a IH]; intros [|y b] H; simpl in H;
    try discriminate H; auto.
  apply andb_true_iff in H as [Hx Hab].
  apply Ascii.eqb_eq in Hx. subst. f_equal. auto.
Qed.

Lemma ext_rev_suffix (r : bytes) :
  forall acc, exists pre, rev r ++ acc = pre ++ ext_rev r acc.
Proof.
  induction r as [|c r IH]; intros acc; simpl.
  - exists acc. now rewrite app_nil_r.
  - destruct (Ascii.eqb c "/"%char).
    + eexists. now rewrite app_nil_r.
    + destruct (Ascii.eqb c "."%char).
      * exists (rev r). now rewrite <- app_assoc.
      * destruct (IH (c :: acc)) as [pre H].
        exists pre. now rewrite <- app_assoc.
Qed.

Lemma Ext_suffix (path : bytes) : exists stem, path = stem ++ Ext path.
Proof.
  destruct (ext_rev_suffix (rev path) []) as [pre H].
  rewrite rev_involutive, app_nil_r in H. now exists pre.
Qed.

Lemma ext_rev_dot (l r : bytes) :
  ~ In "."%char l -> ~ In "/"%char l ->
  forall acc, ext_rev (l ++ "."%char :: r) acc = "."%char :: rev l ++ acc.
Proof.
  induction l as [|c l IH]; intros Hd Hs acc; simpl.
  - reflexivity.
  - destruct (Ascii.eqb_spec c "/"%char) as [->|_]; [exfalso; simpl in Hs; auto|].
    destruct (Ascii.eqb_spec c "."%char) as [->|_]; [exfalso; simpl in Hd; auto|].
    rewrite IH by (simpl in *; auto). now rewrite <- app_assoc.
Qed.

Lemma Ext_dot (p e : bytes) :
  ~ In "."%char e -> ~ In "/"%char e ->
  Ext (p ++ "."%char :: e) = "."%char :: e.
Proof.
  intros Hd Hs. unfold Ext.
  rewrite rev_app_distr. simpl. rewrite <- app_assoc. simpl.
  rewrite ext_rev_dot.
  - now rewrite rev_involutive, app_nil_r.
  - now rewrite <- in_rev.
  - now rewrite <- in_rev.
Qed.

Lemma drop_slashes_name (r : bytes) (c : ascii) :
  c <> "/"%char -> drop_slashes (c :: r) = c :: r.
Proof.
  intros H. simpl. now destruct (Ascii.eqb_spec c "/"%char).
Qed.

Lemma take_element_name (l r : bytes) :
  ~ In "/"%char l ->
  (r = [] \/ exists r', r = "/"%char :: r') ->
  take_element (l ++ r) = l.
Proof.
  intros Hs Hr. induction l as [|c l IH]; simpl.
  - destruct Hr as [->|[r' ->]]; reflexivity.
  - destruct (Ascii.eqb_spec c "/"%char) as [->|_]; [exfalso; simpl in Hs; auto|].
    rewrite IH; [reflexivity|]. simpl in Hs. auto.
Qed.

Lemma Base_name (dir name : bytes) :
  directory dir -> name <> [] -> ~ In "/"%char name ->
  Base (dir ++ name) = name.
Proof.
  intros Hdir Hne Hs. unfold Base.
  destruct (dir ++ name) as [|x xs] eqn:E.
  - apply app_eq_nil in E as [_ ->]. congruence.
  - rewrite <- E. clear E x xs. rewrite rev_app_distr.
    assert (Hr : ~ In "/"%char (rev name)) by now rewrite <- in_rev.
    destruct (rev name) as [|c r] eqn:Er.
    + apply (f_equal (@rev ascii)) in Er. rewrite rev_involutive in Er.
      simpl in Er. congruence.
    + change ((c :: r) ++ rev dir) with (c :: (r ++ rev dir)).
      rewrite drop_slashes_name by (intros ->; apply Hr; now left).
      change (c :: (r ++ rev dir)) with ((c :: r) ++ rev dir).
      rewrite take_element_name.
      * rewrite <- Er, rev_involutive. destruct name; congruence.
      * exact Hr.
      * destruct Hdir as [->|[d ->]]; [now left|right].
        rewrite rev_app_distr. simpl. eauto.
Qed.

Lemma strip_prefix_length (p s r : bytes) :
  strip_prefix p s = Some r -> length s = length p + length r.
Proof.
  intros H. apply strip_prefix_app in H. subst. apply length_app.
Qed.

Lemma last_index_short (sub : bytes) (s : bytes) :
  forall pos best,
    length s < length sub -> last_index_from s sub pos best = best.
Proof.
  induction s as [|c s IH]; intros pos best Hlen.
  - simpl. unfold HasPrefix.
    destruct (strip_prefix sub []) eqn:E; [|reflexivity].
    apply strip_prefix_length in E. simpl in *. lia.
  - cbn [last_index_from]. unfold HasPrefix.
    destruct (strip_prefix sub (c :: s)) eqn:E.
    + apply strip_prefix_length in E. lia.
    + apply IH. simpl in Hlen. lia.
Qed.

Lemma last_index_suffix (sub pre : bytes) :
  forall pos best,
    last_index_from (pre ++ sub) sub pos best = Some (pos + length pre).
Proof.
  induction pre as [|c pre IH]; intros pos best.
  - simpl app.
    assert (Hp : HasPrefix sub sub = true).
    { unfold HasPrefix.
      rewrite (proj2 (strip_prefix_app sub sub [])); [reflexivity|].
      now rewrite app_nil_r. }
    destruct sub as [|x sub'].
    + simpl. f_equal. lia.
    + cbn [last_index_from]. rewrite Hp.
      rewrite last_index_short by (simpl; lia). simpl. f_equal. lia.
  - change ((c :: pre) ++ sub) with (c :: (pre ++ sub)).
    cbn [last_index_from]. rewrite IH. simpl. f_equal. lia.
Qed.

Lemma LastIndex_suffix (s sub pre : bytes) :
  s = pre ++ sub -> LastIndex s sub = Some (length pre).
Proof.
  intros ->. unfold LastIndex. now rewrite last_index_suffix.
Qed.

Lemma firstn_pre (pre suf : bytes) : firstn (length pre) (pre ++ suf) = pre.
Proof.
  rewrite firstn_app, Nat.sub_diag, firstn_all. simpl. apply app_nil_r.
Qed.

Lemma destination_stem (source stem : bytes) :
  Base source = stem ++ Ext (Base source) ->
  destination source = Ok (bs "docs/" ++ stem ++ bs ".html").
Proof.
  intros H. unfold destination.
  rewrite (LastIndex_suffix _ _ _ H).
  rewrite H at 1. now rewrite firstn_pre.
Qed.

Lemma TrimSuffix_app (stem suffix : bytes) :
  TrimSuffix (stem ++ suffix) suffix = stem.
Proof.
  unfold TrimSuffix, HasPrefix.
  rewrite rev_app_distr.
  rewrite (proj2 (strip_prefix_app (rev suffix) (rev suffix ++ rev stem)
                                   (rev stem))) by reflexivity.
  rewrite length_app.
  replace (length stem + length suffix - length suffix) with (length stem)
    by lia.
  apply firstn_pre.
Qed.

Lemma path_parts (dir stem e : bytes) :
  directory dir -> ~ In "/"%char stem ->
  ~ In "."%char e -> ~ In "/"%char e ->
  Base (dir ++ stem ++ "."%char :: e) = stem ++ "."%char :: e
  /\ Ext (dir ++ stem ++ "."%char :: e) = "."%char :: e
  /\ Ext (stem ++ "."%char :: e) = "."%char :: e.
Proof.
  intros Hdir Hstem Hd Hs. split; [|split].
  - apply Base_name; auto.
    + now destruct stem.
    + intros Hin. apply in_app_or in Hin as [Hin|[Hin|Hin]]; auto.
      discriminate Hin.
  - rewrite app_assoc. now apply Ext_dot.
  - now apply Ext_dot.
Qed.

(** X1. Only the extension [.sol] is registered, and it is looked up as it
    is written: [parse] returns for a source if and only if the path ends
    with [.sol], and for every other path it panics on the nil language,
    whatever the file holds. *)
Theorem parse_returns_iff_sol (source code : bytes) :
  ((exists sections, parse source code = Ok sections)
   <-> exists p, source = p ++ bs ".sol")
  /\ ((forall p, source <> p ++ bs ".sol") ->
      parse source code = Panic nil_deref).
Proof.
  assert (Hsol : forall p, getLanguage (p ++ bs ".sol") = Some solidity).
  { intros p. unfold getLanguage.
    change (bs ".sol") with ("."%char :: bs "sol").
    rewrite Ext_dot; [reflexivity| |]; simpl;
      intros [H|[H|[H|[]]]]; discriminate H. }
  assert (Hext : forall l, getLanguage source = Some l ->
                           exists p, source = p ++ bs ".sol").
  { intros l. unfold getLanguage, languages, lookup.
    destruct (bytes_eqb (bs ".sol") (Ext source)) eqn:E; [|discriminate].
    intros _. apply bytes_eqb_eq in E.
    destruct (Ext_suffix source) as [stem H]. exists stem. now rewrite E. }
  split; [split|].
  - intros [sections H]. unfold parse in H.
    destruct (getLanguage source) as [l|] eqn:E; [|discriminate H].
    now apply (Hext l).
  - intros [p ->]. unfold parse. rewrite Hsol. eauto.
  - intros Hno. unfold parse.
    destruct (getLanguage source) as [l|] eqn:E; [|reflexivity].
    destruct (Hext l eq_refl) as [p Hp]. now apply Hno in Hp.
Qed.

(** X2. [destination] never panics: the extension of the base name is a
    suffix of the base name, so [strings.LastIndex] finds it at the very end
    (and never answers -1), and the result is [docs/], the base name without
    that extension, and [.html]. *)
Theorem destination_total (source : bytes) :
  exists stem,
    Base source = stem ++ Ext (Base source)
    /\ destination source = Ok (bs "docs/" ++ stem ++ bs ".html").
Proof.
  destruct (Ext_suffix (Base source)) as [stem H].
  exists stem. split; [exact H|]. now apply destination_stem.
Qed.

(** X3. For a file [stem.e] in any directory, the output location is
    [docs/stem.html]: the directory of the source is dropped and only the
    last extension is replaced, so that two sources with the same file name
    in different directories, or with the same stem and different
    extensions, are written to the same output file. *)
Theorem destination_of_path (dir stem e : bytes) :
  directory dir -> ~ In "/"%char stem ->
  ~ In "."%char e -> ~ In "/"%char e ->
  destination (dir ++ stem ++ "."%char :: e)
  = Ok (bs "docs/" ++ stem ++ bs ".html")
  /\ (forall dir' e',
        directory dir' -> ~ In "."%char e' -> ~ In "/"%char e' ->
        destination (dir' ++ stem ++ "."%char :: e')
        = destination (dir ++ stem ++ "."%char :: e)).
Proof.
  assert (H : forall dir e, directory dir -> ~ In "/"%char stem ->
                ~ In "."%char e -> ~ In "/"%char e ->
                destination (dir ++ stem ++ "."%char :: e)
                = Ok (bs "docs/" ++ stem ++ bs ".html")).
  { clear. intros dir e Hdir Hstem Hd Hs.
    destruct (path_parts dir stem e Hdir Hstem Hd Hs) as (Hb & _ & He).
    apply destination_stem. now rewrite Hb, He. }
  intros Hdir Hstem Hd Hs. split.
  - now apply H.
  - intros dir' e' Hdir' Hd' Hs'. now rewrite !H.
Qed.

Lemma destination_of_path_witness :
  directory (bs "src/lib/") /\ ~ In "/"%char (bs "token.v2")
  /\ ~ In "."%char (bs "sol") /\ ~ In "/"%char (bs "sol")
  /\ destination (bs "src/lib/" ++ bs "token.v2" ++ "."%char :: bs "sol")
     = Ok (bs "docs/" ++ bs "token.v2" ++ bs ".html").
Proof.
  assert (Hdir : directory (bs "src/lib/")).
  { right. now exists (bs "src/lib"). }
  assert (Hstem : ~ In "/"%char (bs "token.v2")).
  { simpl. intuition discriminate. }
  assert (Hd : ~ In "."%char (bs "sol")).
  { simpl. intuition discriminate. }
  assert (Hs : ~ In "/"%char (bs "sol")).
  { simpl. intuition discriminate. }
  repeat (split; [assumption|]).
  exact (proj1 (destination_of_path (bs "src/lib/") (bs "token.v2") (bs "sol")
                  Hdir Hstem Hd Hs)).
Defined.

(** X4. The entry of a source in the table of contents.  For a file
    [stem.e] in any directory, [titleTOC] is the stem without a leading
    [docs_], which is also the title that [generateHTML] gives the page, and
    [destinationTOC] is that title with [.html].  When the stem does not
    start with [docs_], the link is the name of the file that [destination]
    writes in [docs/]; when it does, the link leaves the prefix out although
    the file written keeps it. *)
Theorem toc_entry (dir stem e : bytes) :
  directory dir -> ~ In "/"%char stem ->
  ~ In "."%char e -> ~ In "/"%char e ->
  let source := dir ++ stem ++ "."%char :: e in
  titleTOC source = TrimPrefix stem (bs "docs_")
  /\ destinationTOC source = titleTOC source ++ bs ".html"
  /\ (forall sources sections data,
        templateData sources source sections = Ok data ->
        Title data = titleTOC source)
  /\ (HasPrefix stem (bs "docs_") = false ->
      destination source = Ok (bs "docs/" ++ destinationTOC source))
  /\ (forall s, stem = bs "docs_" ++ s ->
        destinationTOC source = s ++ bs ".html"
        /\ destination source = Ok (bs "docs/docs_" ++ s ++ bs ".html")).
Proof.
  intros Hdir Hstem Hd Hs source.
  destruct (path_parts dir stem e Hdir Hstem Hd Hs) as (Hb & He & He').
  assert (Ht : titleTOC source = TrimPrefix stem (bs "docs_")).
  { unfold titleTOC, source. now rewrite Hb, He, TrimSuffix_app. }
  assert (Hdest : destination source = Ok (bs "docs/" ++ stem ++ bs ".html")).
  { apply destination_stem. unfold source. now rewrite Hb, He'. }
  split; [exact Ht|]. split; [reflexivity|].
  split; [|split].
  - intros sources sections data H. unfold templateData in H.
    destruct (templateSections 0 sections); [|discriminate H].
    simpl in H. injection H as <-. reflexivity.
  - intros Hp. rewrite Hdest.
    change (destinationTOC source) with (titleTOC source ++ bs ".html").
    rewrite Ht. unfold TrimPrefix. unfold HasPrefix in Hp.
    now destruct (strip_prefix (bs "docs_") stem).
  - intros s ->.
    change (destinationTOC source) with (titleTOC source ++ bs ".html").
    rewrite Ht, Hdest. split; [|reflexivity].
    unfold TrimPrefix.
    now rewrite (proj2 (strip_prefix_app (bs "docs_") (bs "docs_" ++ s) s)).
Qed.

Lemma toc_entry_witness :
  directory (bs "src/") /\ ~ In "/"%char (bs "docs_token")
  /\ ~ In "."%char (bs "sol") /\ ~ In "/"%char (bs "sol")
  /\ titleTOC (bs "src/docs_token.sol") = bs "token"
  /\ destinationTOC (bs "src/docs_token.sol") = bs "token.html"
  /\ destination (bs "src/docs_token.sol") = Ok (bs "docs/docs_token.html").
Proof.
  assert (Hdir : directory (bs "src/")).
  { right. now exists (bs "src"). }
  assert (Hstem : ~ In "/"%char (bs "docs_token")).
  { simpl. intuition discriminate. }
  assert (Hd : ~ In "."%char (bs "sol")).
  { simpl. intuition discriminate. }
  assert (Hs : ~ In "/"%char (bs "sol")).
  { simpl. intuition discriminate. }
  repeat (split; [assumption|]).
  destruct (toc_entry (bs "src/") (bs "docs_token") (bs "sol")
              Hdir Hstem Hd Hs) as (Ht & _ & _ & _ & Hpre).
  destruct (Hpre (bs "token") eq_refl) as [Hl Hf].
  split; [exact Ht|]. split; [exact Hl|exact Hf].
Defined.

(** ** The sections of a file *)

Lemma Split_pieces (s : bytes) (sep : ascii) :
  Forall (fun l => ~ In sep l) (Split s sep).
Proof.
  induction s as [|c s IH]; simpl.
  - constructor; auto.
  - destruct (Ascii.eqb_spec c sep) as [->|Hne].
    + constructor; auto.
    + destruct (Split s sep) as [|l ls].
      * constructor; auto. simpl. intros [H|[]]. congruence.
      * inversion IH; subst. constructor; auto.
        simpl. intros [H|H]; [congruence|auto].
Qed.

Section Sections.
Variable language : Language.

Lemma hasCode_step (st : parser) (line : bytes) :
  p_hasCode (parse_line language st line) = negb (is_comment language line).
Proof.
  unfold parse_line, is_comment.
  destruct (Match (commentMatcher language) line); simpl; auto.
  now destruct (p_hasCode st) eqn:E.
Qed.

Lemma sections_step (st : parser) (line : bytes) :
  length (p_sections (parse_line language st line))
  = length (p_sections st)
    + (if p_hasCode st && is_comment language line then 1 else 0).
Proof.
  unfold parse_line, is_comment.
  destruct (Match (commentMatcher language) line); simpl.
  - destruct (p_hasCode st); simpl; [|lia].
    unfold save. rewrite length_app. reflexivity.
  - rewrite andb_false_r. lia.
Qed.

Lemma sections_fold (lines : list bytes) :
  forall st,
    length (p_sections (fold_left (parse_line language) lines st))
    = length (p_sections st)
      + match lines with
        | [] => 0
        | l :: _ => if p_hasCode st && is_comment language l then 1 else 0
        end
      + boundaries language lines.
Proof.
  induction lines as [|l rest IH]; intros st.
  - simpl. lia.
  - cbn [fold_left]. rewrite IH, sections_step, hasCode_step.
    destruct rest as [|l' rest']; simpl; lia.
Qed.

Lemma first_lines_step (st : parser) (line : bytes) :
  ~ In nl line ->
  first_lines_kept st -> first_lines_kept (parse_line language st line).
Proof.
  intros Hnl [Hs Hc]. unfold parse_line, first_lines_kept.
  destruct (Match (commentMatcher language) line).
  - destruct (p_hasCode st) eqn:E; simpl.
    + split.
      * unfold save. apply Forall_app. split; auto.
      * unfold save. now rewrite rev_app_distr.
    + rewrite E. auto.
  - simpl. split; [exact Hs|].
    destruct (p_hasCode st).
    + destruct Hc as [Hf [rest Hr]]. split; [exact Hf|].
      exists (rest ++ line ++ [nl]). rewrite Hr.
      now rewrite <- app_assoc.
    + destruct Hc as [Hc _]. split; [exact Hnl|].
      exists []. now rewrite Hc.
Qed.

Lemma first_lines_fold (lines : list bytes) :
  Forall (fun l => ~ In nl l) lines ->
  forall st,
    first_lines_kept st ->
    first_lines_kept (fold_left (parse_line language) lines st).
Proof.
  induction 1 as [|l ls Hl _ IH]; intros st Hst; simpl; auto.
  apply IH. now apply first_lines_step.
Qed.

Lemma parse_lines_first_lines (code : bytes) :
  exists init last,
    parse_lines language (Split code nl) = init ++ [last]
    /\ Forall (fun s => first_line (codeText s) (firstCodeLine s)) init
    /\ (codeText last <> [] ->
        first_line (codeText last) (firstCodeLine last))
    /\ (codeText last = [] ->
        firstCodeLine last
        = match rev init with [] => [] | s :: _ => firstCodeLine s end).
Proof.
  unfold parse_lines, save.
  assert (H0 : first_lines_kept parser_init).
  { split; [constructor|]. simpl. auto. }
  pose proof (first_lines_fold _ (Split_pieces code nl) _ H0) as [Hs Hc].
  set (st := fold_left (parse_line language) (Split code nl) parser_init) in *.
  exists (p_sections st). eexists. split; [reflexivity|].
  split; [exact Hs|]. simpl.
  destruct (p_hasCode st).
  - split; [auto|]. intros E. destruct Hc as [_ [rest Hr]].
    simpl in E. rewrite E in Hr. now destruct (p_firstCodeLine st) in Hr.
  - destruct Hc as [Hc Hf]. split; [congruence|auto].
Qed.

End Sections.

(** X5. The number of sections: [parse] starts a new section exactly where
    a comment line follows a line of code, so it returns one section more
    than the file has such places, and one section for a file that has
    none. *)
Theorem parse_section_count (source code : bytes) (language : Language) :
  getLanguage source = Some language ->
  exists sections,
    parse source code = Ok sections
    /\ length sections = S (boundaries language (Split code nl)).
Proof.
  intros Hl. rewrite (parse_registered source code language Hl).
  eexists. split; [reflexivity|].
  unfold parse_lines, save. rewrite length_app, sections_fold. simpl.
  destruct (Split code nl); simpl; lia.
Qed.

Lemma parse_section_count_witness :
  getLanguage (bs "a.sol") = Some solidity
  /\ exists sections,
       parse (bs "a.sol")
             (bs "/// one" ++ [nl] ++ bs "a;" ++ [nl] ++ bs "b;" ++ [nl]
              ++ bs "/// two" ++ [nl] ++ bs "/// more" ++ [nl] ++ bs "c;")
       = Ok sections
       /\ length sections = 2.
Proof.
  split; [reflexivity|].
  exact (parse_section_count
           (bs "a.sol")
           (bs "/// one" ++ [nl] ++ bs "a;" ++ [nl] ++ bs "b;" ++ [nl]
            ++ bs "/// two" ++ [nl] ++ bs "/// more" ++ [nl] ++ bs "c;")
           solidity eq_refl).
Defined.

(** X6. Only the last section can be without code: every section that
    [parse] returns before the last one has a [codeText] that is not empty,
    and in every section with code, the last one included, [firstCodeLine]
    is the first line of [codeText], which goes on with the newline written
    after that line. *)
Theorem parse_first_code_line (source code : bytes) (language : Language) :
  getLanguage source = Some language ->
  exists init last,
    parse source code = Ok (init ++ [last])
    /\ Forall (fun s => codeText s <> []
                        /\ first_line (codeText s) (firstCodeLine s)) init
    /\ (codeText last <> [] ->
        first_line (codeText last) (firstCodeLine last)).
Proof.
  intros Hl. rewrite (parse_registered source code language Hl).
  destruct (parse_lines_first_lines language code)
    as (init & last & -> & Hi & Hlast & _).
  exists init, last. split; [reflexivity|]. split; [|exact Hlast].
  revert Hi. apply Forall_impl. intros s Hs. split; [|exact Hs].
  destruct Hs as [_ [rest ->]]. now destruct (firstCodeLine s).
Qed.

Lemma parse_first_code_line_witness :
  getLanguage (bs "a.sol") = Some solidity
  /\ exists init last,
       parse (bs "a.sol")
             (bs "a;" ++ [nl] ++ bs "b;" ++ [nl] ++ bs "/// two")
       = Ok (init ++ [last])
       /\ Forall (fun s => codeText s <> []
                           /\ first_line (codeText s) (firstCodeLine s)) init
       /\ (codeText last <> [] ->
           first_line (codeText last) (firstCodeLine last)).
Proof.
  split; [reflexivity|].
  exact (parse_first_code_line
           (bs "a.sol") (bs "a;" ++ [nl] ++ bs "b;" ++ [nl] ++ bs "/// two")
           solidity eq_refl).
Defined.

(** ** Tags and identifiers, continued *)

Lemma Split_has_sep (s : bytes) (sep : ascii) :
  In sep s -> exists p0 p1 rest, Split s sep = p0 :: p1 :: rest.
Proof.
  induction s as [|c s IH]; simpl; [intros []|].
  intros Hin. destruct (Ascii.eqb_spec c sep) as [->|Hne].
  - destruct (Split_nonempty s sep) as (l & ls & ->). eauto.
  - destruct Hin as [->|Hin]; [congruence|].
    destruct (IH Hin) as (p0 & p1 & rest & ->). eauto.
Qed.

Lemma Sprintf_d_inj (i j : Z) : Sprintf_d i = Sprintf_d j -> i = j.
Proof.
  unfold Sprintf_d, bs. intros H.
  apply (f_equal string_of_list_ascii) in H.
  rewrite !string_of_list_ascii_of_string in H.
  apply (f_equal DecimalString.NilZero.int_of_string) in H.
  assert (Hn : forall z, Z.to_int z <> Decimal.Pos Decimal.Nil
                         /\ Z.to_int z <> Decimal.Neg Decimal.Nil).
  { intros [|p|p]; simpl; split; try discriminate;
      intros E; injection E as E;
      now apply DecimalPos.Unsigned.to_uint_nonnil in E. }
  rewrite !DecimalString.NilZero.isi in H by apply Hn.
  injection H as H. now apply DecimalZ.to_int_inj.
Qed.

(** X8. The tag and the identifier of a first code line are defined in
    every case but one: [getSectionTag] and [getFieldOrType] panic if and
    only if the line starts with one of the four keywords and holds no
    space.  For a line with a keyword, the identifier is the tag; for a line
    without one, the tags of two different indices differ. *)
Theorem tag_and_identifier_defined (index : Z) (line : bytes) :
  ((exists msg, getSectionTag index line = Panic msg)
   <-> is_declaration line = true /\ ~ In " "%char line)
  /\ ((exists msg, getFieldOrType line = Panic msg)
      <-> is_declaration line = true /\ ~ In " "%char line)
  /\ (is_declaration line = true ->
      getFieldOrType line = getSectionTag index line)
  /\ (is_declaration line = false ->
      forall index', getSectionTag index' line = getSectionTag index line ->
                     index' = index).
Proof.
  assert (Hdec : {In " "%char line} + {~ In " "%char line}).
  { apply in_dec. apply Ascii.ascii_dec. }
  unfold getSectionTag, getFieldOrType.
  destruct (is_declaration line) eqn:Ed; simpl.
  - destruct Hdec as [Hin|Hno].
    + destruct (Split_has_sep _ _ Hin) as (p0 & p1 & rest & ->). simpl.
      split; [|split; [|split]].
      * split; [intros [msg H]; discriminate H|tauto].
      * split; [intros [msg H]; discriminate H|tauto].
      * reflexivity.
      * discriminate.
    + rewrite (Split_no_sep _ _ Hno). simpl.
      split; [|split; [|split]].
      * split; eauto.
      * split; eauto.
      * reflexivity.
      * discriminate.
  - destruct (Split_nonempty line " "%char) as (l & ls & ->). simpl.
    split; [|split; [|split]].
    + split; [intros [msg H]; discriminate H|intros [H _]; discriminate H].
    + split; [intros [msg H]; discriminate H|intros [H _]; discriminate H].
    + discriminate.
    + intros _ index' H. injection H as H. now apply Sprintf_d_inj.
Qed.

(** X9. The tags that [generateHTML] gives to two different sections whose
    first code lines start with none of the keywords are different: they
    are the decimal forms of the two positions. *)
Theorem ordinal_tags_distinct
        (sources : list bytes) (source : bytes) (sections : list section)
        (data : TemplateData) (k k' : nat) (sec sec' : section) :
  templateData sources source sections = Ok data ->
  nth_error sections k = Some sec ->
  nth_error sections k' = Some sec' ->
  is_declaration (firstCodeLine sec) = false ->
  is_declaration (firstCodeLine sec') = false ->
  k <> k' ->
  exists t t',
    nth_error (Sections data) k = Some t
    /\ nth_error (Sections data) k' = Some t'
    /\ SectionTag t = Sprintf_d (Z.of_nat k + 1)
    /\ SectionTag t' = Sprintf_d (Z.of_nat k' + 1)
    /\ SectionTag t <> SectionTag t'.
Proof.
  intros Hdata Hk Hk' Hd Hd' Hne.
  destruct (templateData_nth _ _ _ _ Hdata k sec Hk) as (t & Ht & Hs).
  destruct (templateData_nth _ _ _ _ Hdata k' sec' Hk') as (t' & Ht' & Hs').
  apply templateSection_inv in Hs as (ref & Htag & _).
  apply templateSection_inv in Hs' as (ref' & Htag' & _).
  unfold getSectionTag in Htag, Htag'. rewrite Hd in Htag. rewrite Hd' in Htag'.
  simpl in Htag, Htag'. injection Htag as Htag. injection Htag' as Htag'.
  exists t, t'. repeat split; auto.
  rewrite <- Htag, <- Htag'. intros E. apply Sprintf_d_inj in E. lia.
Qed.

Lemma ordinal_tags_distinct_witness :
  let s1 := mkSection (bs "one") (bs "a;") (bs "a;") (bs "<p>one</p>") [] in
  let s2 := mkSection (bs "two") (bs "b;") (bs "b;") (bs "<p>two</p>") [] in
  exists t t',
    nth_error [mkTemplateSection (bs "<p>one</p>") [] (bs "1");
               mkTemplateSection (bs "<p>two</p>") [] (bs "2")] 0 = Some t
    /\ nth_error [mkTemplateSection (bs "<p>one</p>") [] (bs "1");
                  mkTemplateSection (bs "<p>two</p>") [] (bs "2")] 1 = Some t'
    /\ SectionTag t = Sprintf_d 1
    /\ SectionTag t' = Sprintf_d 2
    /\ SectionTag t <> SectionTag t'.
Proof.
  intros s1 s2.
  apply (ordinal_tags_distinct
           [bs "a.sol"] (bs "a.sol") [s1; s2]
           (mkTemplateData (bs "a")
              [mkTemplateSection (bs "<p>one</p>") [] (bs "1");
               mkTemplateSection (bs "<p>two</p>") [] (bs "2")]
              [bs "a.sol"] false)
           0 1 s1 s2);
    try reflexivity.
  lia.
Defined.

(** ** The last section of a file that ends with a comment *)

Lemma nth_error_same_field (A : Type) (f : section -> A)
      (out sections : list section) (k : nat) (sec : section) :
  map f out = map f sections ->
  nth_error sections k = Some sec ->
  exists o, nth_error out k = Some o /\ f o = f sec.
Proof.
  intros Hmap Hk.
  pose proof (f_equal (fun l => nth_error l k) Hmap) as H. cbv beta in H.
  rewrite !nth_error_map, Hk in H. simpl in H.
  destruct (nth_error out k) as [o|]; [|discriminate H].
  injection H as H. eauto.
Qed.

(** X7. [firstCodeLine] is not reset when a section is saved: a last
    section without code, which is what a file that ends with a comment line
    gives, carries the [firstCodeLine] of the section before it (and the
    empty string when it is the only section).  [generateHTML] therefore
    derives for it the identifier of that earlier section; and since the tag
    is taken from the line and the position, the two sections get the same
    tag when the line starts with one of the keywords, and the decimal forms
    of their two positions, which differ, when it does not. *)
Theorem parse_last_section_inherits
        (source code : bytes) (language : Language) :
  getLanguage source = Some language ->
  exists init last,
    parse source code = Ok (init ++ [last])
    /\ (codeText last = [] ->
        firstCodeLine last
        = match rev init with [] => [] | s :: _ => firstCodeLine s end
        /\ forall prev,
             nth_error init (length init - 1) = Some prev ->
             firstCodeLine last = firstCodeLine prev
             /\ getFieldOrType (firstCodeLine last)
                = getFieldOrType (firstCodeLine prev)
             /\ forall sources out data,
                  map (@firstCodeLine) out
                  = map (@firstCodeLine) (init ++ [last]) ->
                  templateData sources source out = Ok data ->
                  exists tp tl,
                    nth_error (Sections data) (length init - 1) = Some tp
                    /\ nth_error (Sections data) (length init) = Some tl
                    /\ (is_declaration (firstCodeLine prev) = true ->
                        SectionTag tl = SectionTag tp)
                    /\ (is_declaration (firstCodeLine prev) = false ->
                        SectionTag tp
                        = Sprintf_d (Z.of_nat (length init))
                        /\ SectionTag tl
                           = Sprintf_d (Z.of_nat (length init) + 1)
                        /\ SectionTag tl <> SectionTag tp)).
Proof.
  intros Hl. rewrite (parse_registered source code language Hl).
  destruct (parse_lines_first_lines language code)
    as (init & last & -> & _ & _ & Hstale).
  exists init, last. split; [reflexivity|].
  intros E. specialize (Hstale E). split; [exact Hstale|].
  intros prev Hp.
  assert (Hpos : length init - 1 < length init).
  { apply nth_error_Some. congruence. }
  assert (Hprev : firstCodeLine last = firstCodeLine prev).
  { rewrite Hstale. clear - Hp.
    destruct init as [|s init] using rev_ind; [discriminate Hp|].
    rewrite length_app in Hp. simpl in Hp.
    replace (length init + 1 - 1) with (length init) in Hp by lia.
    rewrite nth_error_app2, Nat.sub_diag in Hp by lia.
    injection Hp as ->. now rewrite rev_app_distr. }
  split; [exact Hprev|]. split; [now rewrite Hprev|].
  intros sources out data Hmap Hdata.
  assert (Hkp : nth_error (init ++ [last]) (length init - 1) = Some prev).
  { rewrite nth_error_app1 by lia. exact Hp. }
  assert (Hkl : nth_error (init ++ [last]) (length init) = Some last).
  { rewrite nth_error_app2, Nat.sub_diag by lia. reflexivity. }
  destruct (nth_error_same_field _ _ _ _ _ _ Hmap Hkp) as (op & Hop & Fp).
  destruct (nth_error_same_field _ _ _ _ _ _ Hmap Hkl) as (ol & Hol & Fl).
  destruct (templateData_nth _ _ _ _ Hdata _ _ Hop) as (tp & Htp & Hsp).
  destruct (templateData_nth _ _ _ _ Hdata _ _ Hol) as (tl & Htl & Hsl).
  apply templateSection_inv in Hsp as (refp & Htagp & _).
  apply templateSection_inv in Hsl as (refl & Htagl & _).
  rewrite Fp in Htagp. rewrite Fl, Hprev in Htagl.
  replace (Z.of_nat (length init - 1) + 1)%Z with (Z.of_nat (length init))
    in Htagp by lia.
  exists tp, tl. split; [exact Htp|]. split; [exact Htl|].
  unfold getSectionTag in Htagp, Htagl. split.
  - intros Hd. rewrite Hd in Htagp, Htagl. cbn [negb] in Htagp, Htagl.
    destruct (nth_error (Split (firstCodeLine prev) " "%char) 1);
      [|discriminate Htagp].
    congruence.
  - intros Hd. rewrite Hd in Htagp, Htagl. cbn [negb] in Htagp, Htagl.
    injection Htagp as Htagp. injection Htagl as Htagl.
    split; [now rewrite Htagp|]. split; [now rewrite Htagl|].
    rewrite <- Htagp, <- Htagl. intros H. apply Sprintf_d_inj in H. lia.
Qed.

Lemma parse_last_section_inherits_witness :
  let s1 := mkSection [] (bs "dev Foo x" ++ [nl]) (bs "dev Foo x") [] [] in
  let s2 := mkSection (bs "about Foo" ++ [nl]) [] (bs "dev Foo x") [] [] in
  getLanguage (bs "a.sol") = Some solidity
  /\ parse (bs "a.sol") (bs "dev Foo x" ++ [nl] ++ bs "/// about Foo")
     = Ok ([s1] ++ [s2])
  /\ codeText s2 = []
  /\ firstCodeLine s2 = firstCodeLine s1
  /\ exists tp tl,
       nth_error [mkTemplateSection [] [] (bs "Foo");
                  mkTemplateSection [] [] (bs "Foo")] 0 = Some tp
       /\ nth_error [mkTemplateSection [] [] (bs "Foo");
                     mkTemplateSection [] [] (bs "Foo")] 1 = Some tl
       /\ (is_declaration (firstCodeLine s1) = true ->
           SectionTag tl = SectionTag tp)
       /\ (is_declaration (firstCodeLine s1) = false ->
           SectionTag tp = Sprintf_d 1
           /\ SectionTag tl = Sprintf_d (1 + 1)
           /\ SectionTag tl <> SectionTag tp).
Proof.
  intros s1 s2.
  split; [reflexivity|]. split; [reflexivity|]. split; [reflexivity|].
  destruct (parse_last_section_inherits
              (bs "a.sol") (bs "dev Foo x" ++ [nl] ++ bs "/// about Foo")
              solidity eq_refl) as (init & last & Hparse & Hlast).
  assert (E : init ++ [last] = [s1] ++ [s2]).
  { assert (P : parse (bs "a.sol")
                  (bs "dev Foo x" ++ [nl] ++ bs "/// about Foo")
                = Ok ([s1] ++ [s2])) by reflexivity.
    rewrite P in Hparse. now injection Hparse. }
  apply app_inj_tail in E as [-> ->].
  destruct (Hlast eq_refl) as [_ Hprev].
  destruct (Hprev s1 eq_refl) as (Hline & _ & Hdata).
  split; [exact Hline|].
  exact (Hdata [bs "a.sol"] [s1; s2]
           (mkTemplateData (bs "a")
              [mkTemplateSection [] [] (bs "Foo");
               mkTemplateSection [] [] (bs "Foo")]
              [bs "a.sol"] false)
           eq_refl eq_refl).
Defined.

(** ** Cross-references *)

Lemma replace_from_pos (p : regex) (tmpl : list titem) :
  (forall pos s, exec p pos s = exec p 0 s) ->
  forall s skip pos,
    replace_from p tmpl skip pos s = replace_from p tmpl skip 0 s.
Proof.
  intros H. induction s as [|x s IH]; intros skip pos.
  - destruct skip; simpl; [now rewrite (H pos)|reflexivity].
  - assert (E : forall k q,
               replace_from p tmpl k (S q) s = replace_from p tmpl k 0 s).
    { intros k q. apply IH. }
    destruct skip as [|k]; cbn [replace_from].
    + rewrite (H pos). destruct (exec p 0 (x :: s)) as [[caps rest]|].
      * destruct (length (x :: s) - length rest); now rewrite !E.
      * now rewrite !E.
    + now rewrite !E.
Qed.

Lemma exec_reference_pos (pos : nat) (s : bytes) :
  exec referenceRx pos s = exec referenceRx 0 s.
Proof. reflexivity. Qed.

Lemma exec_reference_miss (pos : nat) (c : ascii) (s : bytes) :
  c <> "@"%char -> exec referenceRx pos (c :: s) = None.
Proof.
  intros Hc. unfold referenceRx.
  cbn [exec match_atom atom_of bs list_ascii_of_string strip_prefix].
  destruct (Ascii.eqb_spec "@"%char c) as [<-|_]; [congruence|reflexivity].
Qed.

Lemma exec_reference_hit (pos : nat) (name rest : bytes) :
  name <> [] -> Forall (fun c => word c = true) name -> ends_name rest ->
  exec referenceRx pos (bs "@@" ++ name ++ rest) = Some ([name], rest).
Proof.
  intros Hne Hw Hrest. unfold referenceRx.
  cbn [exec match_atom atom_of captures].
  rewrite (proj2 (strip_prefix_app (bs "@@") (bs "@@" ++ name ++ rest)
                                   (name ++ rest))) by reflexivity.
  rewrite (greedy_longest _ word _ ([name], rest) rest name); auto.
  - intros y s' ->. exact Hrest.
  - simpl. destruct name; congruence.
Qed.

(** X10. The rewriting of cross-references in the rendered prose ([@@]
    followed by letters, digits and underscores): a text without [@] is left
    as it is, and in a text that has its first [@] at a reference to [name]
    the reference is replaced by the anchor that links to [#section-name],
    the text before it is kept, and the text after it is rewritten in the
    same way. *)
Theorem reference_rewrite (pre name rest : bytes) :
  ~ In "@"%char pre ->
  name <> [] -> Forall (fun c => word c = true) name -> ends_name rest ->
  ReplaceAll referenceRx pre referenceTpl = pre
  /\ ReplaceAll referenceRx (pre ++ bs "@@" ++ name ++ rest) referenceTpl
     = pre ++ anchor name ++ ReplaceAll referenceRx rest referenceTpl.
Proof.
  intros Hpre Hne Hw Hrest. unfold ReplaceAll.
  assert (Hmiss : forall tail s1 s2 pos',
             pre = s1 ++ s2 -> s2 <> [] ->
             exec referenceRx pos' (s2 ++ tail) = None).
  { intros tail s1 s2 pos' E Hs2. destruct s2 as [|c s2]; [congruence|].
    apply exec_reference_miss. intros ->. apply Hpre.
    rewrite E. apply in_or_app. right. now left. }
  split.
  - apply replace_none. intros s1 s2 pos' E.
    destruct s2 as [|c s2]; [reflexivity|].
    rewrite <- (app_nil_r (c :: s2)). apply (Hmiss [] s1); [exact E|discriminate].
  - rewrite replace_miss by apply Hmiss.
    f_equal. rewrite app_assoc.
    rewrite (replace_hit referenceRx referenceTpl _ (bs "@@" ++ name) rest
               [name]).
    + f_equal. apply replace_from_pos. apply exec_reference_pos.
    + discriminate.
    + rewrite <- app_assoc. now apply exec_reference_hit.
Qed.

Lemma reference_rewrite_witness :
  ~ In "@"%char (bs "<p>see ")
  /\ bs "Foo_1" <> []
  /\ Forall (fun c => word c = true) (bs "Foo_1")
  /\ ends_name (bs ", a@b</p>")
  /\ ReplaceAll referenceRx (bs "<p>see ") referenceTpl = bs "<p>see "
  /\ ReplaceAll referenceRx
       (bs "<p>see " ++ bs "@@" ++ bs "Foo_1" ++ bs ", a@b</p>") referenceTpl
     = bs "<p>see " ++ anchor (bs "Foo_1")
       ++ ReplaceAll referenceRx (bs ", a@b</p>") referenceTpl.
Proof.
  assert (Hpre : ~ In "@"%char (bs "<p>see ")).
  { simpl. intuition discriminate. }
  assert (Hne : bs "Foo_1" <> []) by discriminate.
  assert (Hw : Forall (fun c => word c = true) (bs "Foo_1")).
  { repeat constructor. }
  assert (Hrest : ends_name (bs ", a@b</p>")) by reflexivity.
  repeat (split; [assumption|]).
  exact (reference_rewrite (bs "<p>see ") (bs "Foo_1") (bs ", a@b</p>")
           Hpre Hne Hw Hrest).
Defined.

(** ** Emphasis, continued *)

Lemma occurs_app (sub a b : bytes) : occurs sub (a ++ sub ++ b) = true.
Proof.
  induction a as [|c a IH].
  - simpl app. destruct (sub ++ b) eqn:E; simpl; unfold HasPrefix;
      rewrite <- ?E;
      now rewrite (proj2 (strip_prefix_app sub (sub ++ b) b)).
  - cbn [app occurs]. rewrite IH. apply orb_true_r.
Qed.

(** X11. Where the identifier does not occur in the prose, [highlightRefs]
    returns the prose as it is. *)
Theorem highlightRefs_absent (text ref : bytes) :
  plain_token ref ->
  occurs ref text = false ->
  highlightRefs text ref = Ok text.
Proof.
  intros Href Hocc.
  assert (Hno : forall a b, text <> a ++ ref ++ b).
  { intros a b E. rewrite E, occurs_app in Hocc. discriminate Hocc. }
  rewrite (highlightRefs_plain text ref Href). unfold ReplaceAll.
  assert (H1 : replace_from (rx_leading ref)
                 [V 1; T strong_open; V 2; T strong_close] 0 0 text = text).
  { apply replace_none. intros s1 s2 pos' E.
    destruct (exec (rx_leading ref) pos' s2) as [[caps rest]|] eqn:X;
      [exfalso|reflexivity].
    apply exec_leading_inv in X as (run & -> & _).
    apply (Hno (s1 ++ run) rest). now rewrite <- app_assoc. }
  rewrite H1.
  assert (H2 : replace_from (rx_trailing ref)
                 [T strong_open; V 1; T strong_close; V 2] 0 0 text = text).
  { apply replace_none. intros s1 s2 pos' E.
    destruct (exec (rx_trailing ref) pos' s2) as [[caps rest]|] eqn:X;
      [exfalso|reflexivity].
    apply exec_trailing_inv in X as (run & -> & _).
    now apply (Hno s1 (run ++ rest)). }
  rewrite H2. f_equal.
  apply replace_none. intros s1 s2 pos' E.
  destruct (exec (rx_surrounded ref) pos' s2) as [[caps rest]|] eqn:X;
    [exfalso|reflexivity].
  apply exec_surrounded_inv in X as (run1 & run2 & -> & _).
  apply (Hno (s1 ++ run1) (run2 ++ rest)). now rewrite <- app_assoc.
Qed.

Lemma highlightRefs_absent_witness :
  plain_token (bs "Foo")
  /\ occurs (bs "Foo") (bs "<p>A foo and a FOO.</p>") = false
  /\ highlightRefs (bs "<p>A foo and a FOO.</p>") (bs "Foo")
     = Ok (bs "<p>A foo and a FOO.</p>").
Proof.
  assert (Href : plain_token (bs "Foo")).
  { split; [discriminate|repeat constructor]. }
  split; [exact Href|]. split; [reflexivity|].
  exact (highlightRefs_absent (bs "<p>A foo and a FOO.</p>") (bs "Foo")
           Href eq_refl).
Defined.

(** ** The files that a run writes *)

Lemma keeps_ret (A : Type) (a : A) : keeps (ret a).
Proof. intros w r w' H. injection H as <- <-. auto. Qed.

Lemma keeps_lift (A : Type) (r : result A) : keeps (lift r).
Proof. intros w r' w' H. injection H as <- <-. auto. Qed.

Lemma keeps_bind (A B : Type) (m : IO A) (f : A -> IO B) :
  keeps m -> (forall a, keeps (f a)) -> keeps (iobind m f).
Proof.
  intros Hm Hf w r w' H. unfold iobind in H.
  destruct (m w) as [[a|msg] w1] eqn:E.
  - destruct (Hm _ _ _ E) as (H1 & H2 & H3).
    destruct (Hf a _ _ _ H) as (H4 & H5 & H6). repeat split; congruence.
  - injection H as <- <-. now apply (Hm _ _ _ E).
Qed.

Lemma keeps_pipe_call (pygments : Pygmentize) (c : call) :
  keeps (pipe_call pygments c).
Proof.
  intros w r w' H. unfold pipe_call in H.
  destruct (stdin_pipe pygments); injection H as <- <-; auto.
Qed.

Lemma keeps_copy_output (pygments : Pygmentize) :
  keeps (copy_output pygments).
Proof.
  intros w r w' H. unfold copy_output in H.
  destruct (stdout_pipe pygments); injection H as <- <-; auto.
Qed.

Lemma keeps_open_pipes : keeps open_pipes.
Proof. intros w r w' H. injection H as <- <-. auto. Qed.

Lemma keeps_feed (pygments : Pygmentize) (language : Language)
      (sections : list section) :
  keeps (feed pygments language sections).
Proof.
  induction sections as [|e next IH]; cbn [feed].
  - apply keeps_ret.
  - apply keeps_bind; [apply keeps_pipe_call|intros _].
    apply keeps_bind; [|intros _; exact IH].
    destruct next; [apply keeps_ret|apply keeps_pipe_call].
Qed.

Lemma keeps_highlight (MarkdownCommon : bytes -> bytes)
      (pygmentize : bytes -> Pygmentize) (source : bytes)
      (sections : list section) :
  keeps (highlight MarkdownCommon pygmentize source sections).
Proof.
  unfold highlight.
  apply keeps_bind; [apply keeps_lift|intros language].
  apply keeps_bind; [apply keeps_open_pipes|intros _].
  apply keeps_bind; [apply keeps_feed|intros _].
  apply keeps_bind; [apply keeps_pipe_call|intros _].
  apply keeps_bind; [apply keeps_copy_output|intros output].
  apply keeps_ret.
Qed.

(** What [generateHTML] does once the destination, the data and the page
    are there: one line logged, one write asked for. *)
Lemma generateHTML_run
      (dappspecTemplate : TemplateData -> result bytes)
      (sources : list bytes) (source : bytes) (sections : list section)
      (w : World) (dest : bytes) (data : TemplateData) (html : bytes) :
  destination source = Ok dest ->
  templateData sources source sections = Ok data ->
  dappspecTemplate data = Ok html ->
  exists w',
    generateHTML dappspecTemplate sources source sections w = (Ok tt, w')
    /\ w_log w'
       = w_log w ++ [bs "dappspec:  " ++ source ++ bs "  ->  " ++ dest]
    /\ w_files w'
       = match w_write w dest html with
         | Some content => w_files w ++ [(dest, content)]
         | None => w_files w
         end.
Proof.
  intros Hd Ht Hh. unfold generateHTML, iobind, lift, Println, WriteFile.
  rewrite Hd, Ht, Hh. cbn [w_write w_files w_log w_stdin].
  destruct (w_write w dest html); eexists; repeat split.
Qed.

(** X12. What a run for one source leaves behind, for a highlighter run
    that ends.  If the run returns, it has read the file, parsed and
    highlighted it, logged one line that names the source and its
    destination, and asked once for a file to be written: the page that the
    template gave for the highlighted sections, at the destination.  The
    error of that write is not looked at, so the run returns whatever
    becomes of it: the file holds the page if the write succeeded, what got
    into it before the failure if the write failed midway, and there is no
    file if it could not be opened.  If the run panics, it has written no
    file at all. *)
Theorem generateDocumentation_writes_once
        (MarkdownCommon : bytes -> bytes)
        (dappspecTemplate : TemplateData -> result bytes)
        (sources : list bytes) (pygmentize : bytes -> Pygmentize)
        (ReadFile : bytes -> option bytes) (source : bytes) (w : World)
        (r : result unit) (w' : World) :
  generateDocumentation MarkdownCommon dappspecTemplate sources
    pygmentize ReadFile source w = (r, w') ->
  match r with
  | Ok _ =>
      exists code sections out w1 dest data html,
        ReadFile source = Some code
        /\ parse source code = Ok sections
        /\ highlight MarkdownCommon pygmentize source sections w = (Ok out, w1)
        /\ destination source = Ok dest
        /\ templateData sources source out = Ok data
        /\ dappspecTemplate data = Ok html
        /\ w_log w'
           = w_log w ++ [bs "dappspec:  " ++ source ++ bs "  ->  " ++ dest]
        /\ w_files w'
           = match w_write w dest html with
             | Some content => w_files w ++ [(dest, content)]
             | None => w_files w
             end
  | Panic _ => w_files w' = w_files w
  end.
Proof.
  unfold generateDocumentation. intros H. unfold iobind at 1 in H.
  destruct (ReadFile source) as [code|].
  2:{ unfold iobind, Println, lift in H. injection H as <- <-. reflexivity. }
  unfold ret in H. unfold iobind at 1, lift at 1 in H.
  destruct (parse source code) as [sections|] eqn:Ep;
    [|injection H as <- <-; reflexivity].
  unfold iobind at 1 in H.
  destruct (highlight MarkdownCommon pygmentize source sections w)
    as [[out|msg] w1] eqn:Eh;
    destruct (keeps_highlight _ _ _ _ _ _ _ Eh) as (Hf & Hl & Hw);
    [|injection H as <- <-; exact Hf].
  destruct (destination source) as [dest|] eqn:Ed.
  2:{ unfold generateHTML, iobind, lift in H. rewrite Ed in H.
      injection H as <- <-. exact Hf. }
  destruct (templateData sources source out) as [data|] eqn:Et.
  2:{ unfold generateHTML, iobind, lift in H. rewrite Ed, Et in H.
      injection H as <- <-. exact Hf. }
  destruct (dappspecTemplate data) as [html|] eqn:Eh'.
  2:{ unfold generateHTML, iobind, lift in H. rewrite Ed, Et, Eh' in H.
      injection H as <- <-. exact Hf. }
  destruct (generateHTML_run dappspecTemplate sources source out w1
              dest data html Ed Et Eh') as (w2 & Hrun & Hlog & Hfiles).
  rewrite Hrun in H. injection H as <- <-.
  exists code, sections, out, w1, dest, data, html.
  rewrite Hlog, Hfiles, Hf, Hl, Hw. repeat split; auto.
Qed.

Lemma generateDocumentation_writes_once_witness :
  let run := generateDocumentation (fun b => b) plain_template [bs "a.sol"]
               (fun _ => echo_pygments) (fun _ => Some (bs "x = 1;"))
               (bs "a.sol") in
  (exists w', run world0 = (Ok tt, w')
              /\ w_files w' = [(bs "docs/a.html",
                                bs "1" ++ highlightStart ++ bs "x = 1;"
                                ++ [nl] ++ highlightEnd)])
  /\ exists w', run read_only = (Ok tt, w')
                /\ w_log w' = [bs "dappspec:  a.sol  ->  docs/a.html"]
                /\ w_files w' = []
                /\ exists code sections out w1 dest data html,
                     (fun _ : bytes => Some (bs "x = 1;")) (bs "a.sol")
                     = Some code
                     /\ parse (bs "a.sol") code = Ok sections
                     /\ highlight (fun b => b) (fun _ => echo_pygments)
                                  (bs "a.sol") sections read_only
                        = (Ok out, w1)
                     /\ destination (bs "a.sol") = Ok dest
                     /\ templateData [bs "a.sol"] (bs "a.sol") out = Ok data
                     /\ plain_template data = Ok html
                     /\ w_log w'
                        = w_log read_only
                          ++ [bs "dappspec:  " ++ bs "a.sol" ++ bs "  ->  "
                              ++ dest]
                     /\ w_files w'
                        = match w_write read_only dest html with
                          | Some content =>
                              w_files read_only ++ [(dest, content)]
                          | None => w_files read_only
                          end.
Proof.
  intros run. split.
  - eexists. split; vm_compute; reflexivity.
  - exists (snd (run read_only)).
    split; [vm_compute; reflexivity|].
    split; [vm_compute; reflexivity|].
    split; [vm_compute; reflexivity|].
    exact (generateDocumentation_writes_once
             (fun b => b) plain_template [bs "a.sol"]
             (fun _ => echo_pygments) (fun _ => Some (bs "x = 1;"))
             (bs "a.sol") read_only (Ok tt) (snd (run read_only)) eq_refl).
Defined.

(** ** The fragments between the dividers *)

Lemma occurs_inv (sub s : bytes) :
  occurs sub s = true -> exists a b, s = a ++ sub ++ b.
Proof.
  induction s as [|c s IH]; cbn [occurs]; intros H.
  - rewrite orb_false_r in H. unfold HasPrefix in H.
    destruct (strip_prefix sub []) as [r|] eqn:E; [|discriminate H].
    apply strip_prefix_app in E. now exists [], r.
  - apply orb_true_iff in H as [H|H].
    + unfold HasPrefix in H.
      destruct (strip_prefix sub (c :: s)) as [r|] eqn:E; [|discriminate H].
      apply strip_prefix_app in E. now exists [], r.
    + destruct (IH H) as (a & b & ->). now exists (c :: a), b.
Qed.

Lemma occurs_within (sub s a b : bytes) :
  occurs sub s = true -> occurs sub (a ++ s ++ b) = true.
Proof.
  intros H. apply occurs_inv in H as (a' & b' & ->).
  replace (a ++ (a' ++ sub ++ b') ++ b) with ((a ++ a') ++ sub ++ (b' ++ b))
    by now rewrite <- !app_assoc.
  apply occurs_app.
Qed.

Lemma match_atom_piece (R : Type) (a : atom) (pos : nat) (s : bytes)
      (k : bytes -> bytes -> option R) (x : R) :
  match_atom a pos s k = Some x ->
  exists m r, s = m ++ r /\ piece a m /\ k m r = Some x.
Proof.
  destruct a as [|l|c|c|c]; simpl; intros H.
  - destruct (pos =? 0); [|discriminate H]. exists [], s. auto.
  - destruct (strip_prefix l s) as [r|] eqn:E; [|discriminate H].
    apply strip_prefix_app in E. eauto.
  - apply greedy_inv in H as (m & r & -> & Hm & Hk). eauto.
  - apply greedy_inv in H as (m & r & -> & Hm & Hk). simpl in Hk.
    destruct m as [|y m]; [discriminate Hk|].
    exists (y :: m), r. repeat split; auto. discriminate.
  - destruct s as [|y s]; [exists [], []; auto|].
    destruct (c y) eqn:Ey; [|exists [], (y :: s); auto].
    destruct (k [y] s) as [x'|] eqn:E.
    + injection H as ->. exists [y], s. repeat split; eauto.
    + exists [], (y :: s). auto.
Qed.

(** A match is made of one piece for each atom of the pattern. *)
Lemma exec_pieces (p : regex) :
  forall pos s caps rest,
    exec p pos s = Some (caps, rest) ->
    exists ms, s = concat ms ++ rest /\ Forall2 piece (map atom_of p) ms.
Proof.
  induction p as [|n p IH]; intros pos s caps rest H; simpl in H.
  - injection H as _ <-. exists []. split; [reflexivity|constructor].
  - apply match_atom_piece in H as (m & r & -> & Hm & Hk).
    destruct (exec p (pos + length m) r) as [[caps' rest']|] eqn:E;
      [|discriminate Hk].
    injection Hk as _ <-.
    destruct (IH _ _ _ _ E) as (ms & -> & Hms).
    exists (m :: ms). split.
    + simpl. now rewrite app_assoc.
    + simpl. constructor; auto.
Qed.

Lemma search_skip (p : regex) (rest pre : bytes) :
  forall pos,
    (forall s1 s2 pos',
        pre = s1 ++ s2 -> s2 <> [] -> exec p pos' (s2 ++ rest) = None) ->
    search p pos (pre ++ rest) = search p (pos + length pre) rest.
Proof.
  induction pre as [|x pre IH]; intros pos H.
  - simpl. now rewrite Nat.add_0_r.
  - assert (H0 : exec p pos (x :: pre ++ rest) = None).
    { apply (H [] (x :: pre) pos eq_refl). discriminate. }
    cbn [app search]. rewrite H0, IH.
    + cbn [length]. now rewrite Nat.add_succ_r.
    + intros s1 s2 pos' -> Hs2. apply (H (x :: s1) s2 pos'); auto.
Qed.

Lemma splits_in (u v : bytes) : In (u, v) (splits (u ++ v)).
Proof.
  induction u as [|c u IH]; simpl.
  - destruct v; simpl; auto.
  - right. apply in_map_iff. exists (u, v). auto.
Qed.

Lemma divider_has_word (one : bool) :
  occurs (bs "DIVIDER") (encoded_divider one) = true.
Proof. now destruct one. Qed.

Lemma divider_cut (one : bool) (u v : bytes) (c : ascii) :
  encoded_divider one = u ++ c :: v ->
  u <> [] -> c = nl \/ c = "<"%char ->
  occurs (bs "DIVIDER") u = true.
Proof.
  intros E Hu Hc.
  assert (Hall : forallb cut_has_word (splits (encoded_divider one)) = true)
    by now destruct one.
  pose proof (proj1 (forallb_forall _ _) Hall (u, c :: v)) as H.
  rewrite E in H. specialize (H (splits_in u (c :: v))).
  unfold cut_has_word in H. cbn [fst snd] in H.
  destruct u as [|x u]; [congruence|].
  destruct Hc as [->| ->]; exact H.
Qed.

Lemma exec_divider_inv (pos : nat) (s rest : bytes) (caps : list bytes) :
  exec (dividerHTML solidity) pos s = Some (caps, rest) ->
  exists n1 one n2,
    s = n1 ++ encoded_divider one ++ n2 ++ rest
    /\ Forall (fun y => only nl y = true) n1.
Proof.
  intros H. apply exec_pieces in H as (ms & -> & Hms).
  simpl in Hms.
  inversion Hms as [|? n1 ? ms1 Hn1 H1]; subst; clear Hms.
  inversion H1 as [|? l1 ? ms2 Hl1 H2]; subst; clear H1.
  inversion H2 as [|? o ? ms3 Ho H3]; subst; clear H2.
  inversion H3 as [|? l2 ? ms4 Hl2 H4]; subst; clear H3.
  inversion H4 as [|? n2 ? ms5 Hn2 H5]; subst; clear H4.
  inversion H5; subst; clear H5.
  simpl in Hn1, Hl1, Ho, Hl2, Hn2. subst l1 l2.
  exists n1, (match o with [] => false | _ => true end), n2.
  split; [|exact Hn1].
  destruct Ho as [->|[y [-> Hy]]].
  - cbn [concat]. unfold encoded_divider.
    rewrite app_nil_r. now rewrite <- !app_assoc.
  - apply Ascii.eqb_eq in Hy. subst y.
    cbn [concat]. unfold encoded_divider.
    rewrite app_nil_r. now rewrite <- !app_assoc.
Qed.

Lemma repeat_newlines (n : nat) :
  Forall (fun y => only nl y = true) (repeat nl n).
Proof. induction n; simpl; constructor; auto. Qed.

Lemma exec_divider_hit (pos : nat) (d : divider) (rest : bytes) :
  starts_with_newline rest = false ->
  exec (dividerHTML solidity) pos (divider_html d ++ rest) = Some ([], rest).
Proof.
  intros Hrest. unfold divider_html. rewrite <- !app_assoc.
  unfold solidity, setup_language, dividerHTML.
  cbn [exec match_atom atom_of captures].
  apply greedy_longest.
  - apply repeat_newlines.
  - intros y s' E. destruct (with_one d); injection E as <- _; reflexivity.
  - cbn [app length].
    set (l1 := bs "<span class=" ++ dquote :: bs "c").
    set (l2 := dquote :: bs ">" ++ bs "///" ++ bs "DIVIDER</span>").
    set (tail := repeat nl (lines_after d) ++ rest).
    assert (G : greedy (only nl) tail [] (fun _ r1 => Some ([] : list bytes, r1))
                = Some ([], rest)).
    { apply greedy_longest; [apply repeat_newlines| |reflexivity].
      intros y s' ->. exact Hrest. }
    assert (H2 : strip_prefix l2 (l2 ++ tail) = Some tail)
      by now apply strip_prefix_app.
    destruct (with_one d).
    + rewrite (proj2 (strip_prefix_app l1 (encoded_divider true ++ tail)
                        ("1"%char :: l2 ++ tail))) by reflexivity.
      change (only "1"%char "1"%char) with true. cbv beta iota.
      now rewrite H2, G.
    + rewrite (proj2 (strip_prefix_app l1 (encoded_divider false ++ tail)
                        (l2 ++ tail))) by reflexivity.
      change (l2 ++ tail) with (dquote :: (bs ">" ++ bs "///" ++ bs "DIVIDER</span>") ++ tail) at 1.
      change (only "1"%char dquote) with false. cbv beta iota.
      change (dquote :: (bs ">" ++ bs "///" ++ bs "DIVIDER</span>") ++ tail) with (l2 ++ tail).
      now rewrite H2, G.
Qed.

Lemma ends_newline_run (s1 s2 : bytes) :
  Forall (fun y => only nl y = true) s2 -> s2 <> [] ->
  ends_with_newline (s1 ++ s2) = true.
Proof.
  intros Hs2 Hne. destruct s2 as [|y s2] using rev_ind; [congruence|].
  apply Forall_app in Hs2 as [_ Hy]. inversion Hy as [|? ? Hy' _]; subst.
  unfold ends_with_newline. rewrite app_assoc, rev_app_distr. exact Hy'.
Qed.

Lemma divider_head (d : divider) (tail : bytes) :
  exists c rest,
    divider_html d ++ tail = c :: rest /\ (c = nl \/ c = "<"%char).
Proof.
  unfold divider_html. destruct (lines_before d) as [|n].
  - destruct (with_one d); simpl; eauto.
  - simpl. eauto.
Qed.

Lemma exec_divider_miss (f s1 s2 : bytes) (d : divider) (tail : bytes)
      (pos : nat) :
  occurs (bs "DIVIDER") f = false -> ends_with_newline f = false ->
  f = s1 ++ s2 -> s2 <> [] ->
  exec (dividerHTML solidity) pos (s2 ++ divider_html d ++ tail) = None.
Proof.
  intros Hocc Hend Hf Hs2.
  destruct (exec _ pos _) as [[caps rest]|] eqn:X; [exfalso|reflexivity].
  apply exec_divider_inv in X as (n1 & one & n2 & E & Hn1).
  assert (Hword : forall a l b, f = a ++ l ++ b ->
                                occurs (bs "DIVIDER") l = true -> False).
  { intros a l b -> Hl. rewrite (occurs_within _ _ a b Hl) in Hocc.
    discriminate Hocc. }
  apply app_eq_app in E as [l [[E1 E2]|[E1 E2]]].
  - destruct l as [|c0 l].
    + rewrite app_nil_r in E1. subst s2 f.
      rewrite ends_newline_run in Hend by assumption. discriminate Hend.
    + apply app_eq_app in E2 as [v [[E3 E4]|[E3 E4]]].
      * destruct v as [|c v].
        -- rewrite app_nil_r in E3.
           apply (Hword (s1 ++ n1) (c0 :: l) []).
           ++ rewrite Hf, E1. now rewrite app_nil_r, <- app_assoc.
           ++ rewrite <- E3. apply divider_has_word.
        -- destruct (divider_head d tail) as (c' & rest' & Hd & Hc).
           rewrite Hd in E4. injection E4 as <- _.
           apply (Hword (s1 ++ n1) (c0 :: l) []).
           ++ rewrite Hf, E1. now rewrite app_nil_r, <- app_assoc.
           ++ apply (divider_cut one (c0 :: l) v c'); auto. discriminate.
      * apply (Hword (s1 ++ n1) (encoded_divider one) v).
        -- rewrite Hf, E1, E3. now rewrite <- app_assoc.
        -- apply divider_has_word.
  - subst n1. apply Forall_app in Hn1 as [Hn1 _]. subst f.
    rewrite ends_newline_run in Hend by assumption. discriminate Hend.
Qed.

Lemma search_hit (p : regex) (pos : nat) (s rest : bytes)
      (caps : list bytes) :
  exec p pos s = Some (caps, rest) -> search p pos s = Some (pos, caps, rest).
Proof. intros H. destruct s; simpl; now rewrite H. Qed.

Lemma FindIndex_divider (f : bytes) (d : divider) (tail : bytes) :
  occurs (bs "DIVIDER") f = false -> ends_with_newline f = false ->
  starts_with_newline tail = false ->
  FindIndex (dividerHTML solidity) (f ++ divider_html d ++ tail)
  = Some (length f, length f + length (divider_html d)).
Proof.
  intros Hocc Hend Htail. unfold FindIndex.
  rewrite search_skip.
  - rewrite (search_hit _ _ _ tail []) by now apply exec_divider_hit.
    simpl. do 2 f_equal. rewrite !length_app. lia.
  - intros s1 s2 pos' E Hs2. now apply (exec_divider_miss f s1 s2).
Qed.

Lemma FindIndex_clean (f : bytes) :
  occurs (bs "DIVIDER") f = false ->
  FindIndex (dividerHTML solidity) f = None.
Proof.
  intros Hocc. unfold FindIndex.
  destruct (search _ 0 f) as [[[a caps] rest]|] eqn:E; [exfalso|reflexivity].
  apply search_inv in E as (pre & m & -> & _ & X).
  apply exec_divider_inv in X as (n1 & one & n2 & E & _).
  rewrite E, app_assoc in Hocc.
  rewrite (occurs_within _ (encoded_divider one) (pre ++ n1) (n2 ++ rest))
    in Hocc.
  - discriminate Hocc.
  - apply divider_has_word.
Qed.

Lemma skipn_pre (a b : bytes) : skipn (length a) (a ++ b) = b.
Proof. induction a; simpl; auto. Qed.

Lemma fragments_step (MarkdownCommon : bytes -> bytes) (f : bytes)
      (d : divider) (tail : bytes) (e : section) (next : list section) :
  occurs (bs "DIVIDER") f = false -> ends_with_newline f = false ->
  starts_with_newline tail = false ->
  fragments MarkdownCommon solidity (f ++ divider_html d ++ tail) (e :: next)
  = with_fragment MarkdownCommon e f
    :: fragments MarkdownCommon solidity tail next.
Proof.
  intros Hocc Hend Htail. cbn [fragments].
  rewrite FindIndex_divider by assumption. cbn [fst snd].
  rewrite firstn_pre. f_equal. f_equal.
  rewrite app_assoc, <- length_app. apply skipn_pre.
Qed.

Lemma clean_fragment_inv (f : bytes) :
  clean_fragment f = true ->
  occurs (bs "DIVIDER") f = false
  /\ starts_with_newline f = false /\ ends_with_newline f = false.
Proof.
  unfold clean_fragment. intros H.
  apply andb_true_iff in H as [H H3]. apply andb_true_iff in H as [H1 H2].
  apply negb_true_iff in H1, H2, H3. auto.
Qed.

(** Newlines before a divider that follows an empty fragment count as
    newlines after the divider before it. *)
Lemma divider_html_merge (d d' : divider) (tail : bytes) :
  divider_html d ++ divider_html d' ++ tail
  = divider_html (mkDivider (lines_before d) (with_one d)
                            (lines_after d + lines_before d'))
    ++ divider_html (mkDivider 0 (with_one d') (lines_after d')) ++ tail.
Proof.
  unfold divider_html. cbn [lines_before with_one lines_after repeat app].
  now rewrite repeat_app, <- !app_assoc.
Qed.

Lemma fragments_of_highlighted
      (MarkdownCommon : bytes -> bytes) (sections : list section) :
  forall (f : bytes) (rest : list (divider * bytes)),
    clean_fragment f = true ->
    Forall (fun df => clean_fragment (snd df) = true) rest ->
    length sections <= S (length rest) ->
    fragments MarkdownCommon solidity (highlighted f rest) sections
    = map (fun ef => with_fragment MarkdownCommon (fst ef) (snd ef))
          (combine sections (f :: map snd rest)).
Proof.
  induction sections as [|e next IH]; intros f rest Hf Hrest Hlen;
    [reflexivity|].
  destruct (clean_fragment_inv f Hf) as (Hocc & _ & Hend).
  destruct rest as [|[d f'] rest'].
  - destruct next; [|simpl in Hlen; lia].
    cbn [highlighted fragments]. rewrite (FindIndex_clean f Hocc).
    cbn [fst snd]. now rewrite firstn_all.
  - inversion Hrest as [|? ? Hf' Hrest']; subst. cbn [snd] in Hf'.
    cbn [highlighted map snd combine].
    assert (Hnext : length next <= S (length rest'))
      by (simpl in Hlen; lia).
    destruct (starts_with_newline (highlighted f' rest')) eqn:Es.
    + destruct (clean_fragment_inv f' Hf') as (_ & Hstart & _).
      destruct f' as [|c f'].
      2:{ destruct rest' as [|[d' f''] rest'']; cbn in Es;
            cbn in Hstart; congruence. }
      destruct rest' as [|[d' f''] rest'']; [discriminate Es|].
      cbn [highlighted app]. rewrite divider_html_merge.
      rewrite fragments_step; auto.
      f_equal.
      apply (IH [] ((mkDivider 0 (with_one d') (lines_after d'), f'')
                    :: rest'')); auto.
      inversion Hrest'; subst. constructor; auto.
    + rewrite fragments_step; auto. f_equal.
      apply IH; auto.
Qed.

(** The fields of the sections that the second loop of [highlight] gives
    back for the fragments it has cut. *)
Lemma assigned_combine (MarkdownCommon : bytes -> bytes)
      (sections : list section) :
  forall fs,
    length sections <= length fs ->
    assigned MarkdownCommon sections (firstn (length sections) fs)
      (map (fun ef => with_fragment MarkdownCommon (fst ef) (snd ef))
           (combine sections fs)).
Proof.
  unfold assigned.
  induction sections as [|e next IH]; intros fs Hlen.
  - repeat split.
  - destruct fs as [|f fs]; [simpl in Hlen; lia|].
    destruct (IH fs) as (H1 & H2 & H3 & H4 & H5); [simpl in Hlen; lia|].
    cbn [combine map length firstn fst snd with_fragment docsText codeText
         firstCodeLine DocsHTML CodeHTML].
    rewrite H1, H2, H3, H4, H5. repeat split.
Qed.

(** X13. The way back from the highlighter, in the second loop of
    [highlight].  A fragment that does not hold the word [DIVIDER] and does
    not end with a newline is cut off exactly at the encoded divider that
    follows it (of class [c1] or [c], with the newlines around it), and what
    follows the divider is left for the next section.  So when the buffer
    holds fragments of this kind, none starting with a newline, with a
    divider between every two, and at least as many of them as there are
    sections, the [CodeHTML] of the k-th section is the k-th fragment between
    the two pieces of the wrapper markup, its [DocsHTML] is its rendered
    prose, its other fields are as they were, and the fragments beyond the
    last section are dropped. *)
Theorem fragments_round_trip
        (MarkdownCommon : bytes -> bytes) (sections : list section)
        (f : bytes) (rest : list (divider * bytes)) :
  clean_fragment f = true ->
  Forall (fun df => clean_fragment (snd df) = true) rest ->
  length sections <= S (length rest) ->
  (forall d tail,
      starts_with_newline tail = false ->
      FindIndex (dividerHTML solidity) (f ++ divider_html d ++ tail)
      = Some (length f, length f + length (divider_html d)))
  /\ assigned MarkdownCommon sections
       (firstn (length sections) (f :: map snd rest))
       (fragments MarkdownCommon solidity (highlighted f rest) sections).
Proof.
  intros Hf Hrest Hlen. split.
  - intros d tail Htail.
    destruct (clean_fragment_inv f Hf) as (Hocc & _ & Hend).
    now apply FindIndex_divider.
  - rewrite (fragments_of_highlighted MarkdownCommon sections f rest
               Hf Hrest Hlen).
    apply assigned_combine. simpl. rewrite length_map. exact Hlen.
Qed.

Lemma fragments_round_trip_witness :
  let e1 := mkSection (bs "one") (bs "a;") (bs "a;") [] [] in
  let e2 := mkSection (bs "two") [nl] [] [] [] in
  let e3 := mkSection (bs "three") (bs "c;") (bs "c;") [] [] in
  let d := mkDivider 1 true 1 in
  clean_fragment (bs "<span>a</span>;") = true
  /\ Forall (fun df => clean_fragment (snd df) = true)
            [(d, []); (d, bs "c;")]
  /\ length [e1; e2; e3] <= S (length [(d, []); (d, bs "c;")])
  /\ fragments (fun b => b) solidity
       (highlighted (bs "<span>a</span>;") [(d, []); (d, bs "c;")])
       [e1; e2; e3]
     = [mkSection (bs "one") (bs "a;") (bs "a;") (bs "one")
                  (highlightStart ++ bs "<span>a</span>;" ++ highlightEnd);
        mkSection (bs "two") [nl] [] (bs "two")
                  (highlightStart ++ highlightEnd);
        mkSection (bs "three") (bs "c;") (bs "c;") (bs "three")
                  (highlightStart ++ bs "c;" ++ highlightEnd)]
  /\ assigned (fun b => b) [e1; e2; e3]
       [bs "<span>a</span>;"; []; bs "c;"]
       (fragments (fun b => b) solidity
          (highlighted (bs "<span>a</span>;") [(d, []); (d, bs "c;")])
          [e1; e2; e3]).
Proof.
  intros e1 e2 e3 d.
  assert (Hf : clean_fragment (bs "<span>a</span>;") = true) by reflexivity.
  assert (Hrest : Forall (fun df => clean_fragment (snd df) = true)
                         [(d, []); (d, bs "c;")])
    by (repeat constructor).
  assert (Hlen : length [e1; e2; e3] <= S (length [(d, []); (d, bs "c;")]))
    by (simpl; lia).
  split; [exact Hf|]. split; [exact Hrest|]. split; [exact Hlen|].
  split; [reflexivity|].
  exact (proj2 (fragments_round_trip (fun b => b) [e1; e2; e3]
                  (bs "<span>a</span>;") [(d, []); (d, bs "c;")]
                  Hf Hrest Hlen)).
Defined.

(** ** Comment lines *)

Lemma exec_comment_later (pos : nat) (s : bytes) :
  pos <> 0 -> exec (commentMatcher solidity) pos s = None.
Proof.
  intros Hpos. unfold solidity, setup_language, commentMatcher.
  cbn [exec match_atom atom_of].
  destruct pos; [congruence|reflexivity].
Qed.

Lemma exec_comment_hit (ws rest : bytes) :
  Forall (fun y => space y = true) ws ->
  exec (commentMatcher solidity) 0 (ws ++ bs "///" ++ rest)
  = Some ([], comment_text rest).
Proof.
  intros Hws. unfold solidity, setup_language, commentMatcher.
  cbn [exec match_atom atom_of captures Nat.eqb].
  rewrite (greedy_longest _ space _ ([], comment_text rest)
             (bs "///" ++ rest) ws); auto.
  - intros y s' E. injection E as <- _. reflexivity.
  - rewrite (proj2 (strip_prefix_app (bs "///") (bs "///" ++ rest) rest))
      by reflexivity.
    destruct rest as [|c r]; [reflexivity|].
    unfold comment_text. now destruct (space c).
Qed.

Lemma replace_later (p : regex) (tmpl : list titem) :
  (forall pos s, pos <> 0 -> exec p pos s = None) ->
  forall s pos, pos <> 0 -> replace_from p tmpl 0 pos s = s.
Proof.
  intros H. induction s as [|x s IH]; intros pos Hpos; cbn [replace_from];
    rewrite (H pos _ Hpos); [reflexivity|].
  now rewrite IH.
Qed.

(** X14. A line is a comment line for [parse] if and only if it starts,
    after any white space, with the comment symbol [///]: the symbol further
    into a line of code does not make it a comment. *)
Theorem comment_line_iff (line : bytes) :
  is_comment solidity line = true
  <-> exists ws rest,
        Forall (fun y => space y = true) ws /\ line = ws ++ bs "///" ++ rest.
Proof.
  unfold is_comment, Match. split.
  - destruct (search (commentMatcher solidity) 0 line)
      as [[[a caps] rest]|] eqn:E; [intros _|discriminate].
    apply search_inv in E as (pre & m & -> & -> & X).
    destruct pre as [|c pre];
      [|now rewrite exec_comment_later in X by discriminate].
    apply exec_pieces in X as (ms & E & Hms). simpl in Hms.
    inversion Hms as [|? b ? ms1 Hb H1]; subst; clear Hms.
    inversion H1 as [|? ws ? ms2 Hws H2]; subst; clear H1.
    inversion H2 as [|? l ? ms3 Hl H3]; subst; clear H2.
    simpl in Hb, Hws, Hl. subst b l.
    exists ws, (concat ms3 ++ rest). split; [exact Hws|].
    simpl app at 1. rewrite E. cbn [concat app].
    now rewrite <- !app_assoc.
  - intros (ws & rest & Hws & ->).
    now rewrite (search_hit _ _ _ _ _ (exec_comment_hit ws rest Hws)).
Qed.

(** X15. What [parse] keeps of a comment line: the white space before the
    symbol, the symbol and one white-space character after it are dropped,
    and the rest of the line is kept as it is, later occurrences of the
    symbol included. *)
Theorem comment_stripping (ws rest : bytes) :
  Forall (fun y => space y = true) ws ->
  ReplaceAll (commentMatcher solidity) (ws ++ bs "///" ++ rest) []
  = comment_text rest.
Proof.
  intros Hws. unfold ReplaceAll.
  pose proof (exec_comment_hit ws rest Hws) as X.
  destruct (exec_suffix _ _ _ _ _ X) as (m & Hm).
  rewrite Hm in X |- *.
  assert (Hne : m <> []).
  { intros ->. simpl in Hm.
    apply (f_equal (@length ascii)) in Hm.
    rewrite !length_app in Hm. simpl in Hm.
    assert (length (comment_text rest) <= length rest).
    { destruct rest as [|c r]; simpl; [lia|]. destruct (space c); simpl; lia. }
    lia. }
  rewrite (replace_hit _ _ _ _ _ _ Hne X). cbn [expand map concat app].
  apply replace_later; [apply exec_comment_later|].
  destruct m; [congruence|discriminate].
Qed.

Lemma comment_stripping_witness :
  Forall (fun y => space y = true) (bs "  ")
  /\ ReplaceAll (commentMatcher solidity)
       (bs "  " ++ bs "///" ++ bs "  see /// here") []
     = bs " see /// here".
Proof.
  assert (Hws : Forall (fun y => space y = true) (bs "  "))
    by (repeat constructor).
  split; [exact Hws|].
  exact (comment_stripping (bs "  ") (bs "  see /// here") Hws).
Defined.

(** ** The text sent to the highlighter *)

Lemma Split_terminated (lines : list bytes) :
  Forall (fun l => ~ In nl l) lines ->
  Split (terminated lines) nl = lines ++ [[]].
Proof.
  induction 1 as [|l ls Hl _ IH]; [reflexivity|].
  change (terminated (l :: ls)) with ((l ++ [nl]) ++ terminated ls).
  rewrite <- app_assoc. cbn [app].
  rewrite Split_app_sep by assumption. now rewrite IH.
Qed.

Lemma stream_of_sections (sections : list section) (raws : list raw) :
  Forall2 (fun s r => codeText s = terminated (raw_code r)) sections raws ->
  stream (interleave (PipeWriteString (dividerText solidity))
                     (map (fun e => PipeWrite (codeText e)) sections))
  = terminated (stream_lines raws).
Proof.
  unfold stream.
  induction 1 as [|s r ss rs Hs Hrest IH]; [reflexivity|].
  destruct Hrest as [|s' r' ss' rs' Hs' Hrest'].
  - simpl. now rewrite app_nil_r.
  - change (stream_lines (r :: r' :: rs'))
      with (raw_code r ++ [[]; bs "///DIVIDER"] ++ stream_lines (r' :: rs')).
    rewrite !terminated_app, <- IH, <- Hs. reflexivity.
Qed.

Lemma stream_lines_comments (raws : list raw) :
  Forall (fun r => Forall (fun l => is_comment solidity l = false)
                          (raw_code r)) raws ->
  filter (is_comment solidity) (stream_lines raws)
  = repeat (bs "///DIVIDER") (length raws - 1).
Proof.
  assert (Hcode : forall ls,
             Forall (fun l => is_comment solidity l = false) ls ->
             filter (is_comment solidity) ls = []).
  { induction 1 as [|l ls Hl _ IH]; simpl; [reflexivity|]. now rewrite Hl. }
  induction 1 as [|r rs Hr Hrs IH]; [reflexivity|].
  destruct rs as [|r' rs'].
  - simpl. now apply Hcode.
  - change (stream_lines (r :: r' :: rs'))
      with (raw_code r ++ [[]; bs "///DIVIDER"] ++ stream_lines (r' :: rs')).
    rewrite filter_app, (Hcode _ Hr).
    rewrite (filter_app _ [[]; bs "///DIVIDER"]).
    change (@filter (list ascii)) with (@filter bytes). rewrite IH.
    simpl. now rewrite Nat.sub_0_r.
Qed.

Lemma stream_lines_pieces (raws : list raw) :
  Forall (fun r => Forall (fun l => ~ In nl l) (raw_code r)) raws ->
  Forall (fun l => ~ In nl l) (stream_lines raws).
Proof.
  induction 1 as [|r rs Hr Hrs IH]; [constructor|].
  destruct rs as [|r' rs']; [exact Hr|].
  change (stream_lines (r :: r' :: rs'))
    with (raw_code r ++ [[]; bs "///DIVIDER"] ++ stream_lines (r' :: rs')).
  apply Forall_app. split; [exact Hr|].
  constructor; [simpl; tauto|].
  constructor; [|exact IH].
  simpl. intuition discriminate.
Qed.

Lemma map_eq_Forall2 (A B C : Type) (f : A -> C) (g : B -> C)
      (la : list A) :
  forall lb, map f la = map g lb -> Forall2 (fun a b => f a = g b) la lb.
Proof.
  induction la as [|a la IH]; intros [|b lb] H; simpl in H;
    try discriminate H; constructor.
  - now injection H.
  - apply IH. now injection H.
Qed.

(** X16. What the highlighter is sent for a parsed file: the lines of the
    text written to its input that are comment lines are exactly the
    dividers, one less than there are sections, because no line of the code
    of a section is a comment line.  A divider in the answer can therefore
    only stand for a divider that was sent. *)
Theorem stream_comment_lines
        (MarkdownCommon : bytes -> bytes) (pygmentize : bytes -> Pygmentize)
        (source code : bytes) (language : Language) (w : World) :
  getLanguage source = Some language ->
  stdin_pipe (pygmentize (name language)) = true ->
  stdout_pipe (pygmentize (name language)) = true ->
  exists sections out w',
    parse source code = Ok sections
    /\ highlight MarkdownCommon pygmentize source sections w = (Ok out, w')
    /\ filter (is_comment language) (Split (stream (w_stdin w')) nl)
       = repeat (bs "///DIVIDER") (length sections - 1).
Proof.
  intros Hl Hin Hout.
  pose proof (getLanguage_solidity source language Hl) as ->.
  rewrite (parse_registered source code solidity Hl).
  exists (parse_lines solidity (Split code nl)).
  rewrite (highlight_run MarkdownCommon pygmentize source solidity
             (parse_lines solidity (Split code nl)) w Hl Hin Hout).
  do 2 eexists. split; [reflexivity|]. split; [reflexivity|].
  cbn [w_stdin].
  set (sections := parse_lines solidity (Split code nl)).
  set (raws := raw_sections solidity (Split code nl)).
  assert (Ht : map texts sections = map (stripped solidity) raws)
    by apply parse_lines_texts.
  assert (Hlen : length sections = length raws).
  { rewrite <- (length_map texts), Ht. apply length_map. }
  assert (H2 : Forall2 (fun s r => codeText s = terminated (raw_code r))
                       sections raws).
  { apply map_eq_Forall2 in Ht. revert Ht. apply Forall2_impl.
    intros s r E. unfold texts, stripped in E. now injection E. }
  assert (Hg : Forall (fun r => Forall (fun l => is_comment solidity l = false)
                                       (raw_code r)) raws).
  { pose proof (raw_sections_grouped solidity (Split code nl)) as G.
    revert G. apply Forall_impl. now intros r [_ G]. }
  assert (Hp : Forall (fun r => Forall (fun l => ~ In nl l) (raw_code r)) raws).
  { pose proof (Split_pieces code nl) as P.
    rewrite <- (raw_sections_lines solidity (Split code nl)) in P.
    fold raws in P. clearbody raws. clear - P.
    induction raws as [|r rs IH]; [constructor|].
    simpl in P. apply Forall_app in P as [Pr Prs].
    constructor; [|now apply IH].
    unfold raw_lines in Pr. now apply Forall_app in Pr as [_ Pr]. }
  unfold stream. rewrite map_app, concat_app. cbn [map payload concat].
  rewrite !app_nil_r.
  fold (stream (interleave (PipeWriteString (dividerText solidity))
                  (map (fun e => PipeWrite (codeText e)) sections))).
  rewrite (stream_of_sections sections raws H2).
  rewrite Split_terminated by now apply stream_lines_pieces.
  rewrite filter_app, stream_lines_comments by assumption.
  rewrite Hlen. simpl. apply app_nil_r.
Qed.

Lemma stream_comment_lines_witness :
  getLanguage (bs "a.sol") = Some solidity
  /\ stdin_pipe echo_pygments = true
  /\ stdout_pipe echo_pygments = true
  /\ exists sections out w',
       parse (bs "a.sol")
             (bs "a; /// not a comment" ++ [nl] ++ bs "/// two" ++ [nl]
              ++ bs "b;")
       = Ok sections
       /\ highlight (fun b => b) (fun _ => echo_pygments) (bs "a.sol")
                    sections world0 = (Ok out, w')
       /\ filter (is_comment solidity) (Split (stream (w_stdin w')) nl)
          = repeat (bs "///DIVIDER") (length sections - 1).
Proof.
  split; [reflexivity|]. split; [reflexivity|]. split; [reflexivity|].
  exact (stream_comment_lines
           (fun b => b) (fun _ => echo_pygments) (bs "a.sol")
           (bs "a; /// not a comment" ++ [nl] ++ bs "/// two" ++ [nl]
            ++ bs "b;")
           solidity world0 eq_refl eq_refl eq_refl).
Defined.

(** ** Removal of the wrapper markup *)

Lemma remove_skip (old m : bytes) :
  forall s, remove_from old (length m) (m ++ s) = remove_from old 0 s.
Proof. induction m as [|x m IH]; intros s; simpl; auto. Qed.

Lemma remove_head (old s : bytes) :
  old <> [] -> remove_from old 0 (old ++ s) = remove_from old 0 s.
Proof.
  intros Hne. destruct old as [|c old']; [congruence|].
  cbn [app remove_from].
  assert (Hp : HasPrefix (c :: old' ++ s) (c :: old') = true).
  { unfold HasPrefix.
    now rewrite (proj2 (strip_prefix_app (c :: old') (c :: old' ++ s) s)). }
  rewrite Hp. cbn [length pred]. apply remove_skip.
Qed.

Lemma remove_none (old s : bytes) :
  occurs old s = false -> remove_from old 0 s = s.
Proof.
  induction s as [|x s IH]; [reflexivity|].
  cbn [occurs remove_from]. intros H.
  apply orb_false_iff in H as [Hp Ho]. rewrite Hp. f_equal. auto.
Qed.

Lemma prefix_within (a t p r : bytes) :
  a ++ t = p ++ r -> length p <= length a -> exists r', a = p ++ r'.
Proof.
  intros E Hlen. apply app_eq_app in E as [l [[E1 E2]|[E1 E2]]].
  - eauto.
  - subst p. rewrite length_app in Hlen.
    destruct l; [|simpl in Hlen; lia].
    exists []. now rewrite !app_nil_r.
Qed.

Lemma remove_end (old body : bytes) :
  old <> [] ->
  occurs old (body ++ removelast old) = false ->
  remove_from old 0 (body ++ old) = body.
Proof.
  intros Hne. induction body as [|x b IH]; intros H.
  - simpl app. rewrite <- (app_nil_r old) at 2.
    now rewrite remove_head.
  - cbn [app occurs] in H. apply orb_false_iff in H as [Hp Ho].
    cbn [app remove_from].
    assert (Hq : HasPrefix (x :: b ++ old) old = false).
    { unfold HasPrefix in *.
      destruct (strip_prefix old (x :: b ++ old)) as [r|] eqn:E;
        [|reflexivity].
      apply strip_prefix_app in E.
      rewrite (app_removelast_last x Hne) in E at 1.
      change (x :: b ++ removelast old ++ [last old x])
        with ((x :: b) ++ removelast old ++ [last old x]) in E.
      rewrite app_assoc in E.
      apply prefix_within in E as [r' E].
      - change (((x :: b) ++ removelast old)) with (x :: b ++ removelast old)
          in E.
        rewrite (proj2 (strip_prefix_app old _ r') E) in Hp.
        discriminate Hp.
      - rewrite length_app. cbn [length].
        rewrite (app_removelast_last x Hne) at 1.
        rewrite !length_app. simpl. lia. }
    rewrite Hq. f_equal. auto.
Qed.

Lemma unwrap (body : bytes) :
  wrapped_once body = true ->
  RemoveAll (RemoveAll (highlightStart ++ body ++ highlightEnd)
                       highlightStart) highlightEnd
  = body.
Proof.
  unfold wrapped_once, RemoveAll. intros H.
  apply andb_true_iff in H as [H1 H2]. apply negb_true_iff in H1, H2.
  rewrite remove_head by discriminate.
  rewrite (remove_none _ _ H1).
  apply remove_end; [discriminate|exact H2].
Qed.

(** X17. [highlight] from end to end.  When the two pipes exist and the
    highlighter answers with the wrapper markup around one fragment for each
    section, the fragments separated by encoded dividers and distinct from
    them and from the wrapper, then [highlight] returns the sections in
    order, each with its own fragment wrapped again as [CodeHTML] and with
    its rendered prose as [DocsHTML]. *)
Theorem highlight_round_trip
        (MarkdownCommon : bytes -> bytes) (pygmentize : bytes -> Pygmentize)
        (source : bytes) (language : Language) (sections : list section)
        (w : World) (f : bytes) (rest : list (divider * bytes)) :
  getLanguage source = Some language ->
  stdin_pipe (pygmentize (name language)) = true ->
  stdout_pipe (pygmentize (name language)) = true ->
  (forall sent,
      respond (pygmentize (name language)) sent
      = highlightStart ++ highlighted f rest ++ highlightEnd) ->
  wrapped_once (highlighted f rest) = true ->
  clean_fragment f = true ->
  Forall (fun df => clean_fragment (snd df) = true) rest ->
  length sections = S (length rest) ->
  exists out w',
    highlight MarkdownCommon pygmentize source sections w = (Ok out, w')
    /\ out = map (fun ef => with_fragment MarkdownCommon (fst ef) (snd ef))
                 (combine sections (f :: map snd rest))
    /\ map (@CodeHTML) out
       = map (fun fragment => highlightStart ++ fragment ++ highlightEnd)
             (f :: map snd rest)
    /\ map (@DocsHTML) out
       = map (fun e => MarkdownCommon (docsText e)) sections.
Proof.
  intros Hl Hin Hout Hresp Hwrap Hf Hrest Hlen.
  rewrite (highlight_run MarkdownCommon pygmentize source language
             sections w Hl Hin Hout).
  rewrite Hresp, (unwrap _ Hwrap).
  pose proof (getLanguage_solidity source language Hl) as ->.
  rewrite (fragments_of_highlighted MarkdownCommon sections f rest
             Hf Hrest) by lia.
  do 2 eexists. split; [reflexivity|]. split; [reflexivity|].
  assert (Hl2 : length sections = length (f :: map snd rest)).
  { simpl. now rewrite length_map. }
  clear - Hl2. revert Hl2. generalize (f :: map snd rest) as fs.
  induction sections as [|e next IH]; intros [|x fs] Hl2;
    try discriminate Hl2; [auto|].
  simpl in Hl2. injection Hl2 as Hl2.
  destruct (IH fs Hl2) as [Hc Hd].
  split; simpl; f_equal; assumption.
Qed.

Lemma highlight_round_trip_witness :
  let e1 := mkSection (bs "one") (bs "a;" ++ [nl]) (bs "a;") [] [] in
  let e2 := mkSection (bs "two") (bs "b;" ++ [nl]) (bs "b;") [] [] in
  let d := mkDivider 1 true 1 in
  let answer := highlightStart
                ++ highlighted (bs "<b>a</b>;") [(d, bs "<b>b</b>;")]
                ++ highlightEnd in
  let pygments :=
    mkPygmentize true true false 0 false (fun _ => answer) in
  getLanguage (bs "a.sol") = Some solidity
  /\ wrapped_once (highlighted (bs "<b>a</b>;") [(d, bs "<b>b</b>;")]) = true
  /\ clean_fragment (bs "<b>a</b>;") = true
  /\ Forall (fun df => clean_fragment (snd df) = true) [(d, bs "<b>b</b>;")]
  /\ exists out w',
       highlight (fun b => b) (fun _ => pygments) (bs "a.sol") [e1; e2]
                 world0 = (Ok out, w')
       /\ out = map (fun ef => with_fragment (fun b => b) (fst ef) (snd ef))
                    (combine [e1; e2] [bs "<b>a</b>;"; bs "<b>b</b>;"])
       /\ map (@CodeHTML) out
          = map (fun fragment => highlightStart ++ fragment ++ highlightEnd)
                [bs "<b>a</b>;"; bs "<b>b</b>;"]
       /\ map (@DocsHTML) out = [bs "one"; bs "two"].
Proof.
  intros e1 e2 d answer pygments.
  assert (Hw : wrapped_once
                 (highlighted (bs "<b>a</b>;") [(d, bs "<b>b</b>;")]) = true)
    by reflexivity.
  assert (Hf : clean_fragment (bs "<b>a</b>;") = true) by reflexivity.
  assert (Hrest : Forall (fun df => clean_fragment (snd df) = true)
                         [(d, bs "<b>b</b>;")])
    by (repeat constructor).
  split; [reflexivity|]. split; [exact Hw|]. split; [exact Hf|].
  split; [exact Hrest|].
  exact (highlight_round_trip
           (fun b => b) (fun _ => pygments) (bs "a.sol") solidity [e1; e2]
           world0 (bs "<b>a</b>;") [(d, bs "<b>b</b>;")]
           eq_refl eq_refl eq_refl (fun _ => eq_refl) Hw Hf Hrest eq_refl).
Defined.

(** ** Cross-references to the section's own identifier *)

Lemma word_graphic (c : ascii) : word c = true -> graphic c = true.
Proof.
  destruct c as [[] [] [] [] [] [] [] []];
    intros H; try discriminate H; reflexivity.
Qed.

Lemma split_runs_join_runs (units : list (bytes * bytes)) :
  forall w0,
    Forall (fun y => space y = false) w0 ->
    runs_ok units ->
    split_runs (join_runs w0 units) = (w0, units).
Proof.
  induction units as [|[sp w] units IH]; intros w0 Hw0 Hok.
  - now apply split_runs_word.
  - destruct Hok as (Hne & Hsp & Hw & Hlast & Hok).
    cbn [join_runs]. rewrite split_runs_word_before by assumption.
    rewrite (split_runs_space_before sp _ w units Hsp Hne (IH w Hw Hok) Hlast).
    cbn [fst snd]. now rewrite app_nil_r.
Qed.

(** A run of characters of a name at the head of a text that goes on with
    another character after [fixed] lies within [fixed]. *)
Lemma word_prefix_stops (p fixed tail r : bytes) :
  Forall (fun c => word c = true) p ->
  match tail with [] => True | c :: _ => word c = false end ->
  strip_prefix p (fixed ++ tail) = Some r ->
  HasPrefix fixed p = true.
Proof.
  intros Hp Htail H. apply strip_prefix_app in H. symmetry in H.
  unfold HasPrefix.
  apply app_eq_app in H as [l [[E1 E2]|[E1 E2]]].
  - destruct l as [|c l].
    + rewrite app_nil_r in E1. subst p.
      now rewrite (proj2 (strip_prefix_app fixed fixed [])) by
        now rewrite app_nil_r.
    + subst tail p. apply Forall_app in Hp as [_ Hp].
      inversion Hp as [|? ? Hc _]; subst. simpl in Htail. congruence.
  - now rewrite (proj2 (strip_prefix_app p fixed l)).
Qed.

Lemma wrap_first_apart (name fixed tail : bytes) :
  Forall (fun c => word c = true) name ->
  match tail with [] => True | c :: _ => word c = false end ->
  HasPrefix fixed name = false ->
  wrap_first name (fixed ++ tail) = fixed ++ tail.
Proof.
  intros Hn Htail Hp. unfold wrap_first.
  destruct (strip_prefix name (fixed ++ tail)) as [r|] eqn:E; [|reflexivity].
  rewrite (word_prefix_stops _ _ _ _ Hn Htail E) in Hp. discriminate Hp.
Qed.

Lemma wrap_last_apart (name tail fixed : bytes) :
  Forall (fun c => word c = true) name ->
  match rev tail with [] => True | c :: _ => word c = false end ->
  HasPrefix (rev fixed) (rev name) = false ->
  wrap_last name (tail ++ fixed) = tail ++ fixed.
Proof.
  intros Hn Htail Hp. unfold wrap_last.
  destruct (strip_prefix (rev name) (rev (tail ++ fixed))) as [r|] eqn:E;
    [|reflexivity].
  rewrite rev_app_distr in E.
  apply word_prefix_stops in E; [congruence| |exact Htail].
  apply Forall_forall. intros c Hc. apply in_rev in Hc.
  revert c Hc. now apply Forall_forall.
Qed.

Lemma emphasize_anchor (name : bytes) :
  name <> [] -> Forall (fun c => word c = true) name ->
  apart_from_markup name = true ->
  emphasize name (anchor name) = anchor_emphasized name.
Proof.
  intros Hne Hw Hapart.
  unfold apart_from_markup in Hapart.
  repeat (apply andb_true_iff in Hapart as [Hapart ?]).
  repeat match goal with
         | H : negb _ = true |- _ => apply negb_true_iff in H
         end.
  assert (Hns : Forall (fun y => space y = false) name).
  { revert Hw. apply Forall_impl. intros c Hc.
    now apply graphic_not_space, word_graphic. }
  set (W1 := (bs "href" ++ "="%char :: dquote :: bs "#section-" ++ name)
             ++ [dquote]).
  set (W2 := bs "title" ++ "="%char :: dquote :: bs "Jump").
  set (W4 := name ++ dquote :: bs ">" ++ name ++ bs "</a>").
  set (units := [(bs " ", W1); (bs " ", W2); (bs " ", bs "to"); (bs " ", W4)]).
  assert (Ha : anchor name = join_runs (bs "<a") units).
  { unfold anchor, units, W1, W2, W4. cbn [join_runs].
    rewrite <- !app_assoc. reflexivity. }
  assert (Hok : runs_ok units).
  { unfold units, W1, W2, W4. cbn [runs_ok].
    repeat split; try discriminate; try (repeat constructor; fail).
    - apply Forall_app. split; [|repeat constructor].
      apply Forall_app. split; [repeat constructor|].
      do 2 (constructor; [reflexivity|]).
      apply Forall_app. split; [repeat constructor|exact Hns].
    - apply Forall_app. split; [exact Hns|].
      constructor; [reflexivity|].
      apply Forall_app. split; [repeat constructor|].
      apply Forall_app. split; [exact Hns|repeat constructor]. }
  unfold emphasize. rewrite Ha.
  rewrite split_runs_join_runs; [|repeat constructor|exact Hok].
  unfold units. cbn [mark_leading map fst snd mark_trailing].
  assert (F0 : wrap_last name (bs "<a") = bs "<a").
  { apply (wrap_last_apart name (bs "<") (bs "a")); auto; reflexivity. }
  assert (F1 : wrap_first name W1 = W1).
  { unfold W1. rewrite <- app_assoc.
    apply wrap_first_apart; auto; reflexivity. }
  assert (F1' : wrap_last name W1 = W1).
  { rewrite <- (app_nil_r W1).
    apply wrap_last_apart; [exact Hw| |].
    - unfold W1. rewrite rev_app_distr. reflexivity.
    - simpl. destruct (rev name) eqn:E; [|reflexivity].
      apply (f_equal (@rev ascii)) in E. rewrite rev_involutive in E.
      simpl in E. congruence. }
  assert (F2 : wrap_first name W2 = W2).
  { unfold W2. apply wrap_first_apart; auto; reflexivity. }
  assert (F2' : wrap_last name W2 = W2).
  { unfold W2.
    apply (wrap_last_apart name (bs "title=" ++ [dquote]) (bs "Jump"));
      auto; reflexivity. }
  assert (F3 : wrap_first name (bs "to") = bs "to").
  { rewrite <- (app_nil_r (bs "to")).
    apply wrap_first_apart; auto; exact I. }
  assert (F3' : wrap_last name (bs "to") = bs "to").
  { apply (wrap_last_apart name [] (bs "to")); auto; exact I. }
  assert (F4 : wrap_first name W4
               = strong_open ++ name ++ strong_close
                 ++ dquote :: bs ">" ++ name ++ bs "</a>").
  { unfold W4. apply wrap_first_here. }
  rewrite F0, F1, F1', F2, F2', F3, F3', F4.
  unfold anchor_emphasized, W1, W2.
  rewrite <- !app_assoc. reflexivity.
Qed.

(** X18. The emphasis is applied after the cross-references are rewritten,
    and it reaches into the anchors: a reference to the section's own
    identifier becomes an anchor, and the emphasis then wraps the identifier
    inside the [title] attribute of that anchor (where white space comes
    before it) and not the text of the link.  This holds for every
    identifier of letters, digits and underscores that none of the words of
    the anchor's own markup starts or ends with. *)
Theorem own_reference_emphasized (name : bytes) :
  name <> [] -> Forall (fun c => word c = true) name ->
  apart_from_markup name = true ->
  ReplaceAll referenceRx (bs "@@" ++ name) referenceTpl = anchor name
  /\ highlightRefs (anchor name) name = Ok (anchor_emphasized name)
  /\ forall i sec tag,
       DocsHTML sec = bs "@@" ++ name ->
       getSectionTag (i + 1) (firstCodeLine sec) = Ok tag ->
       getFieldOrType (firstCodeLine sec) = Ok name ->
       exists t, templateSection i sec = Ok t
                 /\ tsDocsHTML t = anchor_emphasized name.
Proof.
  intros Hne Hw Hapart.
  assert (Hplain : plain_token name).
  { split; [exact Hne|]. revert Hw. apply Forall_impl. apply word_graphic. }
  assert (H1 : ReplaceAll referenceRx (bs "@@" ++ name) referenceTpl
               = anchor name).
  { unfold ReplaceAll.
    rewrite <- (app_nil_r (bs "@@" ++ name)).
    rewrite (replace_hit referenceRx referenceTpl 0 (bs "@@" ++ name) []
               [name]).
    - rewrite replace_end by reflexivity. now rewrite app_nil_r.
    - discriminate.
    - rewrite <- app_assoc. apply exec_reference_hit; auto. exact I. }
  assert (H2 : highlightRefs (anchor name) name = Ok (anchor_emphasized name)).
  { rewrite (highlightRefs_emphasize name Hplain).
    now rewrite emphasize_anchor. }
  split; [exact H1|]. split; [exact H2|].
  intros i sec tag Hdocs Htag Hid. unfold templateSection.
  rewrite Htag, Hid, Hdocs, H1. cbn [bind]. rewrite H2. cbn [bind].
  eexists. split; reflexivity.
Qed.

Lemma own_reference_emphasized_witness :
  let sec := mkSection (bs "@@Foo") (bs "dev Foo x;") (bs "dev Foo x;")
                       (bs "@@Foo") [] in
  bs "Foo" <> [] /\ Forall (fun c => word c = true) (bs "Foo")
  /\ apart_from_markup (bs "Foo") = true
  /\ ReplaceAll referenceRx (bs "@@" ++ bs "Foo") referenceTpl
     = anchor (bs "Foo")
  /\ highlightRefs (anchor (bs "Foo")) (bs "Foo")
     = Ok (anchor_emphasized (bs "Foo"))
  /\ exists t, templateSection 0 sec = Ok t
               /\ tsDocsHTML t = anchor_emphasized (bs "Foo").
Proof.
  intros sec.
  assert (Hne : bs "Foo" <> []) by discriminate.
  assert (Hw : Forall (fun c => word c = true) (bs "Foo"))
    by (repeat constructor).
  assert (Ha : apart_from_markup (bs "Foo") = true) by reflexivity.
  destruct (own_reference_emphasized (bs "Foo") Hne Hw Ha) as (H1 & H2 & H3).
  repeat (split; [assumption|]).
  exact (H3 0%Z sec (bs "Foo") eq_refl eq_refl eq_refl).
Defined.

(** ** The prose of the sections *)

Lemma docs_step (language : Language) (st : parser) (line : bytes) :
  docs_kept st -> docs_kept (parse_line language st line).
Proof.
  intros [Hs Hd]. unfold parse_line, docs_kept.
  destruct (Match (commentMatcher language) line).
  - destruct (p_hasCode st) eqn:E; simpl.
    + split.
      * unfold save. destruct (p_sections st) as [|s0 ss]; simpl.
        -- constructor.
        -- simpl in Hs. apply Forall_app. split; [exact Hs|].
           constructor; [|constructor]. simpl. apply Hd. discriminate.
      * intros _ H. apply app_eq_nil in H as [_ H]. discriminate H.
    + split; [exact Hs|].
      intros _ H. apply app_eq_nil in H as [_ H].
      apply app_eq_nil in H as [_ H]. discriminate H.
  - simpl. auto.
Qed.

Lemma docs_fold (language : Language) (lines : list bytes) :
  forall st,
    docs_kept st -> docs_kept (fold_left (parse_line language) lines st).
Proof.
  induction lines as [|l ls IH]; intros st Hst; simpl; auto.
  apply IH. now apply docs_step.
Qed.

(** X19. Only the first section can be without prose: [parse] starts a
    section at a comment line, so every section it returns after the first
    has a [docsText] that is not empty. *)
Theorem parse_later_sections_have_docs
        (source code : bytes) (language : Language) :
  getLanguage source = Some language ->
  exists first later,
    parse source code = Ok (first :: later)
    /\ Forall (fun s => docsText s <> []) later.
Proof.
  intros Hl. rewrite (parse_registered source code language Hl).
  unfold parse_lines, save.
  assert (H0 : docs_kept parser_init).
  { split; [constructor|]. simpl. congruence. }
  pose proof (docs_fold language (Split code nl) _ H0) as [Hs Hd].
  destruct (p_sections (fold_left _ (Split code nl) parser_init))
    as [|s0 ss] eqn:E.
  - eexists. exists []. split; [reflexivity|constructor].
  - exists s0. eexists. split; [reflexivity|].
    simpl in Hs. apply Forall_app. split; [exact Hs|].
    constructor; [|constructor]. simpl. apply Hd. discriminate.
Qed.

Lemma parse_later_sections_have_docs_witness :
  getLanguage (bs "a.sol") = Some solidity
  /\ exists first later,
       parse (bs "a.sol") (bs "a;" ++ [nl] ++ bs "///" ++ [nl] ++ bs "b;")
       = Ok (first :: later)
       /\ Forall (fun s => docsText s <> []) later.
Proof.
  split; [reflexivity|].
  exact (parse_later_sections_have_docs
           (bs "a.sol") (bs "a;" ++ [nl] ++ bs "///" ++ [nl] ++ bs "b;")
           solidity eq_refl).
Defined.

(** ** A panic in one section *)

Lemma templateSections_panic (sections : list section) :
  forall (i : Z) (k : nat) (sec : section) (m : string),
    nth_error sections k = Some sec ->
    templateSection (i + Z.of_nat k) sec = Panic m ->
    exists msg, templateSections i sections = Panic msg.
Proof.
  induction sections as [|s0 next IH]; intros i k sec m Hk Hp.
  - destruct k; discriminate Hk.
  - cbn [templateSections]. destruct k as [|k]; simpl in Hk.
    + injection Hk as ->. rewrite Z.add_0_r in Hp. rewrite Hp. simpl. eauto.
    + destruct (templateSection i s0) as [t0|m0]; simpl; [|eauto].
      destruct (IH (i + 1)%Z k sec m Hk) as [msg ->].
      * rewrite <- Hp. f_equal. lia.
      * simpl. eauto.
Qed.

(** X20. One first code line that starts with a keyword and holds no space,
    in any section of the file, stops the whole page: [generateHTML] panics
    while it converts the sections, before the template is run, and nothing
    is logged and no file is written for the source. *)
Theorem bad_declaration_stops_page
        (dappspecTemplate : TemplateData -> result bytes)
        (sources : list bytes) (source : bytes) (sections : list section)
        (k : nat) (sec : section) (w : World) :
  nth_error sections k = Some sec ->
  is_declaration (firstCodeLine sec) = true ->
  ~ In " "%char (firstCodeLine sec) ->
  (exists msg, templateData sources source sections = Panic msg)
  /\ exists msg,
       generateHTML dappspecTemplate sources source sections w
       = (Panic msg, w).
Proof.
  intros Hk Hd Hs.
  assert (Hp : templateSection (0 + Z.of_nat k) sec = Panic out_of_range).
  { unfold templateSection, getSectionTag.
    rewrite Hd, (Split_no_sep _ _ Hs). reflexivity. }
  destruct (templateSections_panic sections 0 k sec _ Hk Hp) as [msg Hmsg].
  assert (Hdata : templateData sources source sections = Panic msg).
  { unfold templateData. now rewrite Hmsg. }
  split; [eauto|]. exists msg.
  unfold generateHTML, iobind, lift.
  destruct (Ext_suffix (Base source)) as [stem Hstem].
  rewrite (destination_stem source stem Hstem). now rewrite Hdata.
Qed.

Lemma bad_declaration_stops_page_witness :
  let s1 := mkSection (bs "one") (bs "a;") (bs "a;") (bs "<p>one</p>") [] in
  let s2 := mkSection (bs "two") (bs "return") (bs "return") [] [] in
  nth_error [s1; s2] 1 = Some s2
  /\ is_declaration (firstCodeLine s2) = true
  /\ ~ In " "%char (firstCodeLine s2)
  /\ (exists msg, templateData [bs "a.sol"] (bs "a.sol") [s1; s2] = Panic msg)
  /\ exists msg,
       generateHTML plain_template [bs "a.sol"] (bs "a.sol") [s1; s2] world0
       = (Panic msg, world0).
Proof.
  intros s1 s2.
  assert (Hs : ~ In " "%char (firstCodeLine s2)).
  { simpl. intuition discriminate. }
  split; [reflexivity|]. split; [reflexivity|]. split; [exact Hs|].
  exact (bad_declaration_stops_page plain_template [bs "a.sol"] (bs "a.sol")
           [s1; s2] 1 s2 world0 eq_refl eq_refl Hs).
Defined.

(** ** Code that starts with a space *)

(** X21. The identifier of a first code line that starts with none of the
    keywords is what stands before its first space, with the white space at
    both ends cut off.  For a line that starts with a space, as code
    indented with spaces does, and for an empty line, it is the empty
    string, and [highlightRefs] then leaves the prose alone: the section
    gets the decimal form of its position as tag and its prose with the
    cross-references rewritten and nothing emphasized. *)
Theorem indented_code_no_emphasis (i : Z) (sec : section) :
  (is_declaration (firstCodeLine sec) = false ->
   forall p rest,
     ~ In " "%char p ->
     firstCodeLine sec = p \/ firstCodeLine sec = p ++ " "%char :: rest ->
     getFieldOrType (firstCodeLine sec) = Ok (TrimSpace p))
  /\ (firstCodeLine sec = []
      \/ (exists rest, firstCodeLine sec = " "%char :: rest) ->
      getFieldOrType (firstCodeLine sec) = Ok []
      /\ templateSection i sec
         = Ok {| tsDocsHTML :=
                   ReplaceAll referenceRx (DocsHTML sec) referenceTpl;
                 tsCodeHTML :=
                   if negb (HasPrefix (codeText sec) (bs "pragma"))
                      && negb (HasPrefix (codeText sec) (bs "import"))
                   then CodeHTML sec else [];
                 SectionTag := Sprintf_d (i + 1) |}).
Proof.
  split.
  - intros Hd p rest Hp Hline. unfold getFieldOrType. rewrite Hd.
    destruct Hline as [-> | ->].
    + now rewrite (Split_no_sep _ _ Hp).
    + now rewrite (Split_app_sep _ _ _ Hp).
  - intros H.
    assert (Hd : is_declaration (firstCodeLine sec) = false).
    { destruct H as [->|[rest ->]]; reflexivity. }
    assert (Hs : exists ls, Split (firstCodeLine sec) " "%char = [] :: ls).
    { destruct H as [->|[rest ->]]; simpl; eauto. }
    destruct Hs as [ls Hs].
    assert (Hid : getFieldOrType (firstCodeLine sec) = Ok []).
    { unfold getFieldOrType. rewrite Hd, Hs. reflexivity. }
    split; [exact Hid|].
    unfold templateSection, getSectionTag. rewrite Hd, Hid. reflexivity.
Qed.

Lemma indented_code_no_emphasis_witness :
  let sec := mkSection (bs "the owner" ++ [nl])
                       (bs "    address owner;" ++ [nl])
                       (bs "    address owner;")
                       (bs "<p>the address of @@owner</p>") (bs "<b>x</b>") in
  let tabbed := mkSection [] [] ([byte 9] ++ bs "address owner;") [] [] in
  (firstCodeLine sec = []
   \/ exists rest, firstCodeLine sec = " "%char :: rest)
  /\ getFieldOrType (firstCodeLine sec) = Ok []
  /\ templateSection 0 sec
     = Ok {| tsDocsHTML :=
               bs "<p>the address of " ++ anchor (bs "owner") ++ bs "</p>";
             tsCodeHTML := bs "<b>x</b>";
             SectionTag := bs "1" |}
  /\ getFieldOrType (firstCodeLine tabbed) = Ok (bs "address").
Proof.
  intros sec tabbed.
  assert (H : firstCodeLine sec = []
              \/ exists rest, firstCodeLine sec = " "%char :: rest).
  { right. now exists (bs "   address owner;"). }
  split; [exact H|].
  destruct (proj2 (indented_code_no_emphasis 0 sec) H) as [Hid Ht].
  split; [exact Hid|]. split; [exact Ht|].
  assert (Hp : ~ In " "%char ([byte 9] ++ bs "address")).
  { simpl. intuition discriminate. }
  exact (proj1 (indented_code_no_emphasis 0 tabbed) eq_refl
               ([byte 9] ++ bs "address") (bs "owner;") Hp
               (or_intror eq_refl)).
Defined.

(** * The highlighter: dividers, fragments and failures *)

(** ** What a match of the encoded divider is *)

Lemma newlines_repeat (n : bytes) :
  Forall (fun y => only nl y = true) n -> n = repeat nl (length n).
Proof.
  induction 1 as [|y n Hy _ IH]; [reflexivity|].
  apply Ascii.eqb_eq in Hy. subst y. cbn [length repeat]. now rewrite <- IH.
Qed.

Lemma exec_divider_shape (pos : nat) (s rest : bytes) (caps : list bytes) :
  exec (dividerHTML solidity) pos s = Some (caps, rest) ->
  exists d, s = divider_html d ++ rest.
Proof.
  intros H. apply exec_pieces in H as (ms & -> & Hms).
  simpl in Hms.
  inversion Hms as [|? n1 ? ms1 Hn1 H1]; subst; clear Hms.
  inversion H1 as [|? l1 ? ms2 Hl1 H2]; subst; clear H1.
  inversion H2 as [|? o ? ms3 Ho H3]; subst; clear H2.
  inversion H3 as [|? l2 ? ms4 Hl2 H4]; subst; clear H3.
  inversion H4 as [|? n2 ? ms5 Hn2 H5]; subst; clear H4.
  inversion H5; subst; clear H5.
  simpl in Hn1, Hl1, Ho, Hl2, Hn2. subst l1 l2.
  exists (mkDivider (length n1)
                    (match o with [] => false | _ => true end)
                    (length n2)).
  unfold divider_html. cbn [lines_before with_one lines_after].
  rewrite <- (newlines_repeat n1 Hn1), <- (newlines_repeat n2 Hn2).
  destruct Ho as [->|[y [-> Hy]]].
  - cbn [concat]. unfold encoded_divider.
    rewrite app_nil_r. now rewrite <- !app_assoc.
  - apply Ascii.eqb_eq in Hy. subst y.
    cbn [concat]. unfold encoded_divider.
    rewrite app_nil_r. now rewrite <- !app_assoc.
Qed.

(** The two offsets that [FindIndex] answers for the encoded divider are
    those of a divider of the answer: its newlines, the span of the comment
    with the class [c1] or [c], and the newlines after it. *)
Lemma FindIndex_divider_shape (buf : bytes) (a b : nat) :
  FindIndex (dividerHTML solidity) buf = Some (a, b) ->
  exists d,
    a <= b <= length buf
    /\ firstn (b - a) (skipn a buf) = divider_html d.
Proof.
  intros H. pose proof (FindIndex_in_range _ _ _ _ H) as Hrange.
  unfold FindIndex in H.
  destruct (search (dividerHTML solidity) 0 buf) as [[[a' caps] rest]|] eqn:E;
    [|discriminate H].
  injection H as <- <-.
  apply search_inv in E as (pre & m & -> & -> & Hexec).
  destruct (exec_divider_shape _ _ _ _ Hexec) as [d Hd].
  apply app_inv_tail in Hd. subst m.
  exists d. split; [exact Hrange|].
  rewrite !length_app. cbn [Nat.add].
  replace (length pre + (length (divider_html d) + length rest)
           - length rest - length pre)
    with (length (divider_html d)) by lia.
  rewrite skipn_app, skipn_all, Nat.sub_diag. cbn [skipn app].
  rewrite firstn_app, firstn_all, Nat.sub_diag. cbn [firstn].
  apply app_nil_r.
Qed.

(** ** The fragments of the sections *)

Lemma combine_fragments_inj (MarkdownCommon : bytes -> bytes)
      (sections : list section) :
  forall fs fs',
    length fs = length sections ->
    length sections <= length fs' ->
    map (fun ef => with_fragment MarkdownCommon (fst ef) (snd ef))
        (combine sections fs)
    = map (fun ef => with_fragment MarkdownCommon (fst ef) (snd ef))
          (combine sections fs') ->
    fs = firstn (length sections) fs'.
Proof.
  induction sections as [|e next IH]; intros fs fs' Hlen Hle H.
  - destruct fs; [reflexivity|discriminate Hlen].
  - destruct fs as [|f fs]; [discriminate Hlen|].
    destruct fs' as [|f' fs']; [cbn [length] in Hle; lia|].
    cbn [combine map fst snd] in H. injection H as Hhd Htl.
    cbn [length firstn]. f_equal.
    + now apply app_inv_tail in Hhd.
    + apply IH; [now injection Hlen|cbn [length] in Hle; lia|exact Htl].
Qed.

Lemma assigned_fragments (MarkdownCommon : bytes -> bytes)
      (sections : list section) (fs : list bytes) :
  length fs = length sections ->
  assigned MarkdownCommon sections fs
    (map (fun ef => with_fragment MarkdownCommon (fst ef) (snd ef))
         (combine sections fs)).
Proof.
  intros Hlen.
  pose proof (assigned_combine MarkdownCommon sections fs) as H.
  rewrite <- Hlen, firstn_all in H. apply H. lia.
Qed.

(** C2. For a list of N sections, N at least 1, and a run of the highlighter
    that ends and whose two pipes exist, [highlight] makes on the input pipe the N writes of the
    sections' code with the divider written between every two consecutive
    ones and not after the last (N-1 divider writes), then closes the pipe.
    It returns N sections for N fragments [fs]: the i-th has the three
    fields of the i-th input section that [parse] filled, its prose
    rendered, and as [CodeHTML] the i-th fragment between the two pieces of
    the wrapper.  The fragments are split off the output buffer one after
    the other at the matches of the encoded divider; such a match is always
    a span of a comment with the class [c1] or [c] that holds the divider
    line, with the newlines around it; and when the highlighter answered
    with fragments that can be told from the dividers, with a divider
    between every two, the fragments of the sections are these, in order. *)
Theorem highlight_dividers_and_fragments
        (MarkdownCommon : bytes -> bytes) (pygmentize : bytes -> Pygmentize)
        (source : bytes) (language : Language) (sections : list section)
        (w : World) :
  getLanguage source = Some language ->
  stdin_pipe (pygmentize (name language)) = true ->
  stdout_pipe (pygmentize (name language)) = true ->
  1 <= length sections ->
  exists out w' fs,
    highlight MarkdownCommon pygmentize source sections w = (Ok out, w')
    /\ w_stdin w'
       = interleave (PipeWriteString (dividerText language))
                    (map (fun e => PipeWrite (codeText e)) sections)
         ++ [PipeClose]
    /\ divider_calls language (w_stdin w') = length sections - 1
    /\ length fs = length sections
    /\ length out = length sections
    /\ assigned MarkdownCommon sections fs out
    /\ cuts language
            (RemoveAll
               (RemoveAll (respond (pygmentize (name language))
                                   (stream (w_stdin w')))
                          highlightStart)
               highlightEnd)
            fs
    /\ (forall buf a b,
          FindIndex (dividerHTML language) buf = Some (a, b) ->
          exists d,
            a <= b <= length buf
            /\ firstn (b - a) (skipn a buf) = divider_html d)
    /\ (forall f rest,
          respond (pygmentize (name language)) (stream (w_stdin w'))
          = highlightStart ++ highlighted f rest ++ highlightEnd ->
          wrapped_once (highlighted f rest) = true ->
          clean_fragment f = true ->
          Forall (fun df => clean_fragment (snd df) = true) rest ->
          length sections <= S (length rest) ->
          fs = firstn (length sections) (f :: map snd rest)).
Proof.
  intros Hl Hin Hout _.
  rewrite (highlight_run MarkdownCommon pygmentize source language
             sections w Hl Hin Hout).
  cbv zeta.
  pose proof (getLanguage_solidity _ _ Hl) as Hs.
  match goal with
  | |- context [fragments _ _ ?o _] =>
      destruct (fragments_cuts MarkdownCommon language sections o)
        as (fs & Hlen & Hcuts & Hfs)
  end.
  eexists _, _, fs.
  split; [reflexivity|]. cbn [w_stdin].
  split; [reflexivity|].
  split; [apply divider_calls_interleave|].
  split; [exact Hlen|].
  split; [rewrite Hfs, length_map, length_combine, Hlen; apply Nat.min_id|].
  split; [rewrite Hfs; now apply assigned_fragments|].
  split; [exact Hcuts|].
  split.
  - subst language. intros buf a b. apply FindIndex_divider_shape.
  - intros f rest Hanswer Hwrapped Hf Hrest Hle.
    rewrite Hanswer, (unwrap _ Hwrapped) in Hfs. subst language.
    rewrite (fragments_of_highlighted MarkdownCommon sections f rest
               Hf Hrest Hle) in Hfs.
    apply (combine_fragments_inj MarkdownCommon sections); auto.
    cbn [length]. now rewrite length_map.
Qed.

Lemma highlight_dividers_and_fragments_witness :
  let e1 := mkSection (bs "one") (bs "a;" ++ [nl]) (bs "a;") [] [] in
  let e2 := mkSection (bs "two") (bs "b;" ++ [nl]) (bs "b;") [] [] in
  let d := mkDivider 1 true 1 in
  let answer := highlightStart
                ++ highlighted (bs "<b>a</b>;") [(d, bs "<b>b</b>;")]
                ++ highlightEnd in
  let pygments :=
    mkPygmentize true true false 0 false (fun _ => answer) in
  let calls := [PipeWrite (bs "a;" ++ [nl]);
                PipeWriteString ([nl] ++ bs "///DIVIDER" ++ [nl]);
                PipeWrite (bs "b;" ++ [nl]);
                PipeClose] in
  getLanguage (bs "a.sol") = Some solidity
  /\ stdin_pipe pygments = true
  /\ stdout_pipe pygments = true
  /\ 1 <= length [e1; e2]
  /\ highlight (fun b => b) (fun _ => pygments) (bs "a.sol") [e1; e2] world0
     = (Ok [mkSection (bs "one") (bs "a;" ++ [nl]) (bs "a;") (bs "one")
              (highlightStart ++ bs "<b>a</b>;" ++ highlightEnd);
            mkSection (bs "two") (bs "b;" ++ [nl]) (bs "b;") (bs "two")
              (highlightStart ++ bs "<b>b</b>;" ++ highlightEnd)],
        {| w_stdin := calls; w_files := []; w_log := [];
           w_write := fun _ data => Some data |})
  /\ exists out w' fs,
       highlight (fun b => b) (fun _ => pygments) (bs "a.sol") [e1; e2]
                 world0 = (Ok out, w')
       /\ w_stdin w'
          = interleave (PipeWriteString (dividerText solidity))
                       (map (fun e => PipeWrite (codeText e)) [e1; e2])
            ++ [PipeClose]
       /\ divider_calls solidity (w_stdin w') = length [e1; e2] - 1
       /\ length fs = length [e1; e2]
       /\ length out = length [e1; e2]
       /\ assigned (fun b => b) [e1; e2] fs out
       /\ cuts solidity
               (RemoveAll
                  (RemoveAll (respond pygments (stream (w_stdin w')))
                             highlightStart)
                  highlightEnd)
               fs
       /\ (forall buf a b,
             FindIndex (dividerHTML solidity) buf = Some (a, b) ->
             exists d,
               a <= b <= length buf
               /\ firstn (b - a) (skipn a buf) = divider_html d)
       /\ (forall f rest,
             respond pygments (stream (w_stdin w'))
             = highlightStart ++ highlighted f rest ++ highlightEnd ->
             wrapped_once (highlighted f rest) = true ->
             clean_fragment f = true ->
             Forall (fun df => clean_fragment (snd df) = true) rest ->
             length [e1; e2] <= S (length rest) ->
             fs = firstn (length [e1; e2]) (f :: map snd rest)).
Proof.
  intros e1 e2 d answer pygments calls.
  split; [reflexivity|]. split; [reflexivity|]. split; [reflexivity|].
  split; [simpl; lia|]. split; [reflexivity|].
  apply (highlight_dividers_and_fragments
           (fun b => b) (fun _ => pygments) (bs "a.sol") solidity
           [e1; e2] world0); try reflexivity.
  simpl; lia.
Defined.

(** C5. When the encoded divider is not found in what is left of the
    output buffer, [highlight] raises no error: the section at hand gets
    all that is left, between the two pieces of the wrapper, as its
    [CodeHTML], and every later section gets the bare wrapper, since nothing
    is left of the buffer; the other fields are those of any section that
    [highlight] returns.  So it is for the buffer as a whole, and for what
    is left of it after a fragment and its divider have been split off.  A
    buffer in which the word [DIVIDER] does not occur is one in which the
    divider is not found.  With the two pipes in place and a run of the
    highlighter that ends, [highlight] as a whole returns its sections and
    never panics. *)
Theorem missing_divider_is_silent
        (MarkdownCommon : bytes -> bytes) (pygmentize : bytes -> Pygmentize)
        (source : bytes) (language : Language) :
  getLanguage source = Some language ->
  (forall output e next,
      FindIndex (dividerHTML language) output = None ->
      assigned MarkdownCommon (e :: next)
               (output :: map (fun _ => []) next)
               (fragments MarkdownCommon language output (e :: next)))
  /\ (forall f d output e0 e next,
        clean_fragment f = true ->
        starts_with_newline output = false ->
        FindIndex (dividerHTML language) output = None ->
        assigned MarkdownCommon (e0 :: e :: next)
                 (f :: output :: map (fun _ => []) next)
                 (fragments MarkdownCommon language
                            (f ++ divider_html d ++ output)
                            (e0 :: e :: next)))
  /\ (forall output,
        occurs (bs "DIVIDER") output = false ->
        FindIndex (dividerHTML language) output = None)
  /\ (stdin_pipe (pygmentize (name language)) = true ->
      stdout_pipe (pygmentize (name language)) = true ->
      forall sections w,
      exists out w',
        highlight MarkdownCommon pygmentize source sections w = (Ok out, w')
        /\ length out = length sections
        /\ forall e next,
             sections = e :: next ->
             let output :=
               RemoveAll
                 (RemoveAll (respond (pygmentize (name language))
                                     (stream (w_stdin w')))
                            highlightStart)
                 highlightEnd in
             FindIndex (dividerHTML language) output = None ->
             assigned MarkdownCommon sections
                      (output :: map (fun _ => []) next) out).
Proof.
  intros Hl.
  assert (Hnone : forall output e next,
             FindIndex (dividerHTML language) output = None ->
             fragments MarkdownCommon language output (e :: next)
             = map (fun ef => with_fragment MarkdownCommon (fst ef) (snd ef))
                   (combine (e :: next) (output :: map (fun _ => []) next))).
  { pose proof (getLanguage_solidity _ _ Hl) as ->.
    intros output e next Hnone. cbn [fragments]. rewrite Hnone.
    cbn [fst snd combine map]. rewrite firstn_all, skipn_all. f_equal.
    induction next as [|e' next IH]; [reflexivity|].
    cbn [fragments map combine fst snd].
    change (FindIndex (dividerHTML solidity) []) with (@None (nat * nat)).
    cbn [fst snd length firstn skipn]. now rewrite IH. }
  assert (Hassigned : forall output e next,
             FindIndex (dividerHTML language) output = None ->
             assigned MarkdownCommon (e :: next)
               (output :: map (fun _ => []) next)
               (fragments MarkdownCommon language output (e :: next))).
  { intros output e next H. rewrite (Hnone output e next H).
    apply assigned_fragments. cbn [length]. now rewrite length_map. }
  split; [exact Hassigned|]. split; [|split].
  - intros f d output e0 e next Hf Hstart H.
    apply clean_fragment_inv in Hf as (Hword & _ & Hend).
    pose proof (Hnone output e next H) as Hrest.
    pose proof (getLanguage_solidity _ _ Hl) as Hs. subst language.
    rewrite (fragments_step MarkdownCommon f d output e0 (e :: next)
               Hword Hend Hstart).
    rewrite Hrest.
    apply (assigned_fragments MarkdownCommon (e0 :: e :: next)
             (f :: output :: map (fun _ => []) next)).
    cbn [length]. now rewrite length_map.
  - pose proof (getLanguage_solidity _ _ Hl) as ->.
    intros output. apply FindIndex_clean.
  - intros Hin Hout sections w.
    rewrite (highlight_run MarkdownCommon pygmentize source language
               sections w Hl Hin Hout).
    cbv zeta. eexists _, _. split; [reflexivity|]. cbn [w_stdin]. split.
    + match goal with
      | |- context [fragments _ _ ?o _] =>
          destruct (fragments_cuts MarkdownCommon language sections o)
            as (fs & Hlen & _ & Hfs)
      end.
      rewrite Hfs, length_map, length_combine, Hlen. apply Nat.min_id.
    + intros e next -> H. now apply Hassigned.
Qed.

Lemma missing_divider_is_silent_witness :
  let e0 := mkSection (bs "zero") (bs "z;") (bs "z;") [] [] in
  let e1 := mkSection (bs "one") (bs "a;") (bs "a;") [] [] in
  let e2 := mkSection (bs "two") (bs "b;") (bs "b;") [] [] in
  let d := mkDivider 1 true 1 in
  getLanguage (bs "a.sol") = Some solidity
  /\ FindIndex (dividerHTML solidity) (bs "a; b;") = None
  /\ fragments (fun b => b) solidity (bs "a; b;") [e1; e2]
     = [mkSection (bs "one") (bs "a;") (bs "a;") (bs "one")
          (highlightStart ++ bs "a; b;" ++ highlightEnd);
        mkSection (bs "two") (bs "b;") (bs "b;") (bs "two")
          (highlightStart ++ highlightEnd)]
  /\ assigned (fun b => b) [e1; e2] [bs "a; b;"; []]
              (fragments (fun b => b) solidity (bs "a; b;") [e1; e2])
  /\ assigned (fun b => b) [e0; e1; e2] [bs "z;"; bs "a; b;"; []]
              (fragments (fun b => b) solidity
                         (bs "z;" ++ divider_html d ++ bs "a; b;")
                         [e0; e1; e2])
  /\ exists out w',
       highlight (fun b => b) (fun _ => echo_pygments) (bs "a.sol")
                 [e1; e2] world0 = (Ok out, w')
       /\ length out = 2
       /\ forall e next,
            [e1; e2] = e :: next ->
            let output :=
              RemoveAll
                (RemoveAll (respond echo_pygments (stream (w_stdin w')))
                           highlightStart)
                highlightEnd in
            FindIndex (dividerHTML solidity) output = None ->
            assigned (fun b => b) [e1; e2]
                     (output :: map (fun _ => []) next) out.
Proof.
  intros e0 e1 e2 d.
  split; [reflexivity|]. split; [reflexivity|]. split; [reflexivity|].
  destruct (missing_divider_is_silent
              (fun b => b) (fun _ => echo_pygments) (bs "a.sol") solidity
              eq_refl) as (Hrest & Hleft & _ & Hok).
  split; [exact (Hrest (bs "a; b;") e1 [e2] eq_refl)|].
  split; [exact (Hleft (bs "z;") d (bs "a; b;") e0 e1 [e2]
                       eq_refl eq_refl eq_refl)|].
  exact (Hok eq_refl eq_refl [e1; e2] world0).
Defined.

(** C4, amended. [highlight] checks none of the failures of the external
    highlighter.  When its two pipes exist -- whether or not the process
    could start, whatever its exit status, whether or not a read or a write
    on a pipe failed -- the run goes on with the output that was collected:
    [highlight] returns one section per input section, each with the bare
    wrapper as its [CodeHTML] when nothing was collected; and when the tags,
    the page template and the destination raise no panic, [generateHTML]
    logs its line, calls [WriteFile] with the page and returns, whatever
    becomes of the write: the file holds the page when the write succeeded,
    what got into it before the failure when the write failed midway, and
    there is no file when it could not be opened.  The run stops within
    [highlight] only when a pipe could not be created, by a nil dereference
    at the first call on it, and then no file is written. *)
Theorem highlighter_failures_unchecked
        (MarkdownCommon : bytes -> bytes)
        (dappspecTemplate : TemplateData -> result bytes)
        (sources : list bytes) (pygmentize : bytes -> Pygmentize)
        (ReadFile : bytes -> option bytes)
        (source code : bytes) (language : Language) (w : World) :
  ReadFile source = Some code ->
  getLanguage source = Some language ->
  let p := pygmentize (name language) in
  let sections := parse_lines language (Split code nl) in
  let run := generateDocumentation MarkdownCommon dappspecTemplate sources
               pygmentize ReadFile source w in
  (stdin_pipe p = true -> stdout_pipe p = true ->
   exists out w1,
     highlight MarkdownCommon pygmentize source sections w = (Ok out, w1)
     /\ length out = length sections
     /\ (respond p (stream (w_stdin w1)) = [] ->
         assigned MarkdownCommon sections (map (fun _ => []) sections) out)
     /\ (forall dest data html,
           destination source = Ok dest ->
           templateData sources source out = Ok data ->
           dappspecTemplate data = Ok html ->
           exists w2,
             run = (Ok tt, w2)
             /\ w_log w2
                = w_log w
                  ++ [bs "dappspec:  " ++ source ++ bs "  ->  " ++ dest]
             /\ w_files w2
                = match w_write w dest html with
                  | Some content => w_files w ++ [(dest, content)]
                  | None => w_files w
                  end))
  /\ (stdin_pipe p = false \/ stdout_pipe p = false ->
      exists w1, run = (Panic nil_deref, w1) /\ w_files w1 = w_files w).
Proof.
  intros Hread Hl p sections run. split.
  - intros Hin Hout.
    pose proof (highlight_run MarkdownCommon pygmentize source language
                  sections w Hl Hin Hout) as Hrun.
    cbv zeta in Hrun.
    eexists _, _. split; [exact Hrun|]. cbn [w_stdin].
    split; [|split].
    + match goal with
      | |- context [fragments _ _ ?o _] =>
          destruct (fragments_cuts MarkdownCommon language sections o)
            as (fs & Hlen & _ & Hfs)
      end.
      rewrite Hfs, length_map, length_combine, Hlen. apply Nat.min_id.
    + intros Hnone. fold p. rewrite Hnone.
      pose proof (getLanguage_solidity _ _ Hl) as ->.
      change (RemoveAll (RemoveAll [] highlightStart) highlightEnd)
        with (@nil ascii).
      rewrite fragments_of_nothing.
      clear. induction sections as [|e next IH]; [repeat split|].
      destruct IH as (H1 & H2 & H3 & H4 & H5).
      unfold assigned. cbn [map with_fragment docsText codeText firstCodeLine
                                DocsHTML CodeHTML].
      rewrite H1, H2, H3, H4, H5. repeat split.
    + intros dest data html Hdest Hdata Hhtml.
      match type of Hrun with
      | _ = (Ok ?o, ?w1) =>
          destruct (generateHTML_run dappspecTemplate sources source o w1
                      dest data html Hdest Hdata Hhtml)
            as (w2 & Hgen & Hlog & Hfiles)
      end.
      exists w2. cbn [w_log w_files w_write] in Hlog, Hfiles.
      split; [|split; assumption].
      unfold run, generateDocumentation.
      rewrite Hread. unfold iobind at 1, ret at 1.
      unfold lift at 1, iobind at 1.
      unfold parse. rewrite Hl. fold sections.
      unfold iobind at 1. rewrite Hrun. exact Hgen.
  - intros Hnil. unfold run, generateDocumentation.
    rewrite Hread. unfold iobind at 1, ret at 1.
    unfold lift at 1, iobind at 1.
    unfold parse. rewrite Hl.
    unfold iobind at 1.
    destruct (stdin_pipe p) eqn:Hin.
    + destruct Hnil as [Hnil|Hout]; [discriminate Hnil|].
      rewrite (highlight_nil_output MarkdownCommon pygmentize source language
                 _ w Hl Hin Hout).
      eexists. split; reflexivity.
    + rewrite (highlight_nil_pipe MarkdownCommon pygmentize source language
                 _ w Hl Hin).
      eexists. split; reflexivity.
Qed.

Lemma highlighter_failures_unchecked_witness :
  let pygmentize := fun _ : bytes => broken_pygments in
  let ReadFile := fun _ : bytes => Some (bs "x = 1;") in
  let sections := parse_lines solidity (Split (bs "x = 1;") nl) in
  let run := generateDocumentation (fun b => b) plain_template [bs "a.sol"]
               pygmentize ReadFile (bs "a.sol") in
  ReadFile (bs "a.sol") = Some (bs "x = 1;")
  /\ getLanguage (bs "a.sol") = Some solidity
  /\ stdin_pipe broken_pygments = true
  /\ stdout_pipe broken_pygments = true
  /\ failed broken_pygments = true
  /\ fst (run world0) = Ok tt
  /\ w_files (snd (run world0))
     = [(bs "docs/a.html", bs "1" ++ highlightStart ++ highlightEnd)]
  /\ fst (run read_only) = Ok tt
  /\ w_files (snd (run read_only)) = []
  /\ exists out w1,
       highlight (fun b => b) pygmentize (bs "a.sol") sections world0
       = (Ok out, w1)
       /\ length out = length sections
       /\ (respond broken_pygments (stream (w_stdin w1)) = [] ->
           assigned (fun b => b) sections (map (fun _ => []) sections) out)
       /\ (forall dest data html,
             destination (bs "a.sol") = Ok dest ->
             templateData [bs "a.sol"] (bs "a.sol") out = Ok data ->
             plain_template data = Ok html ->
             exists w2,
               run world0 = (Ok tt, w2)
               /\ w_log w2
                  = w_log world0
                    ++ [bs "dappspec:  " ++ bs "a.sol" ++ bs "  ->  " ++ dest]
               /\ w_files w2
                  = match w_write world0 dest html with
                    | Some content => w_files world0 ++ [(dest, content)]
                    | None => w_files world0
                    end).
Proof.
  intros pygmentize ReadFile sections run.
  split; [reflexivity|]. split; [reflexivity|].
  split; [reflexivity|]. split; [reflexivity|]. split; [reflexivity|].
  split; [reflexivity|]. split; [reflexivity|].
  split; [reflexivity|]. split; [reflexivity|].
  apply (proj1 (highlighter_failures_unchecked
                  (fun b => b) plain_template [bs "a.sol"] pygmentize ReadFile
                  (bs "a.sol") (bs "x = 1;") solidity world0
                  eq_refl eq_refl));
    reflexivity.
Defined.
